(** * Rendering: binding-state diff/apply and shader object compilation

    A shallow embedding of
    - [RenderingContext/BindingState.cpp] ([getBufferTargetBit],
      [getBufferTargetFromBit], [bindOrRemoveBuffer],
      [BindingState::makeDiff], [BindingState::apply]) and
    - [ShaderObjectInfo::compile] with its factory functions,
    followed by the properties of the binding-state engine.

    Conventions.  Unsigned machine integers are non-negative [Z].  A
    [std::bitset<N>] is a [Z] read with [Z.testbit] together with its
    width [N]; [set] and [test] raise [std::out_of_range] beyond the
    width.  A [std::unordered_map] is an association list whose order is
    the iteration order of the map.  Driver calls, diagnostics and error
    probes are recorded, oldest first, in a log of [Event]s; an exception
    is the result [None]. *)

From Stdlib Require Import ZArith List Bool Lia String DecimalString Sorted.
Import ListNotations.
Open Scope Z_scope.

Set Implicit Arguments.

(** ** OpenGL enumerants (values of the OpenGL registry) *)

Module GL.
Definition GL_FALSE : Z := 0.
Definition GL_TRUE : Z := 1.
Definition GL_BYTE : Z := 0x1400.
Definition GL_UNSIGNED_BYTE : Z := 0x1401.
Definition GL_RED : Z := 0x1903.
Definition GL_RGB : Z := 0x1907.
Definition GL_RGBA : Z := 0x1908.
Definition GL_RG : Z := 0x8227.
Definition GL_R8 : Z := 0x8229.
Definition GL_RG8 : Z := 0x822B.
Definition GL_RGB8 : Z := 0x8051.
Definition GL_RGBA8 : Z := 0x8058.
Definition GL_RGBA32F : Z := 0x8814.
Definition GL_READ_ONLY : Z := 0x88B8.
Definition GL_WRITE_ONLY : Z := 0x88B9.
Definition GL_READ_WRITE : Z := 0x88BA.
Definition GL_ARRAY_BUFFER : Z := 0x8892.
Definition GL_ELEMENT_ARRAY_BUFFER : Z := 0x8893.
Definition GL_PIXEL_PACK_BUFFER : Z := 0x88EB.
Definition GL_PIXEL_UNPACK_BUFFER : Z := 0x88EC.
Definition GL_UNIFORM_BUFFER : Z := 0x8A11.
Definition GL_TEXTURE_BUFFER : Z := 0x8C2A.
Definition GL_TRANSFORM_FEEDBACK_BUFFER : Z := 0x8C8E.
Definition GL_COPY_READ_BUFFER : Z := 0x8F36.
Definition GL_COPY_WRITE_BUFFER : Z := 0x8F37.
Definition GL_DRAW_INDIRECT_BUFFER : Z := 0x8F3F.
Definition GL_SHADER_STORAGE_BUFFER : Z := 0x90D2.
Definition GL_DISPATCH_INDIRECT_BUFFER : Z := 0x90EE.
Definition GL_QUERY_BUFFER : Z := 0x9192.
Definition GL_ATOMIC_COUNTER_BUFFER : Z := 0x92C0.
End GL.
Import GL.

(** ** Effects: a log of events, and exceptions *)

Inductive Event : Type :=
| WARN (msg : string)
| GET_GL_ERROR
| BufferObject_bind (buffer : nat) (target location : Z)
| BufferObject_unbind (target location : Z)
| glBindTextureUnit (unit texture : Z)
| glBindImageTexture (unit texture level layered layer access format : Z)
| createShaderModule (words : list Z).

(** A computation returns a value and the events it produced, or raises. *)
Definition M (A : Type) : Type := option (A * list Event).

Definition ret {A} (a : A) : M A := Some (a, []).

Definition bind {A B} (m : M A) (f : A -> M B) : M B :=
  match m with
  | None => None
  | Some (a, l1) =>
      match f a with
      | None => None
      | Some (b, l2) => Some (b, l1 ++ l2)
      end
  end.

Definition emit (e : Event) : M unit := Some (tt, [e]).

Definition throw {A} : M A := None.

Declare Scope m_scope.
Delimit Scope m_scope with m.
Notation "x <- c1 ;; c2" := (bind c1 (fun x => c2))
  (at level 100, c1 at next level, right associativity) : m_scope.
Notation "c1 ;;; c2" := (bind c1 (fun _ => c2))
  (at level 100, right associativity) : m_scope.
Open Scope m_scope.

(** A [for] loop over the elements of [l], threading the loop state. *)
Fixpoint forEach {A S} (body : S -> A -> M S) (l : list A) (s : S) : M S :=
  match l with
  | [] => ret s
  | x :: l' => s' <- body s x ;; forEach body l' s'
  end.

(** The indices [0, 1, ..., n-1] of a counting loop. *)
Definition upTo (n : Z) : list Z := map Z.of_nat (seq 0 (Z.to_nat n)).

(** [Util::StringUtils::toString] on an unsigned number. *)
Definition toString (n : Z) : string :=
  NilZero.string_of_uint (N.to_uint (Z.to_N n)).

(** ** [std::bitset] *)

Module bitset.
Definition in_range (width pos : Z) : bool := (0 <=? pos) && (pos <? width).

(** [bs.set(pos, val)] *)
Definition set (width bs pos : Z) (val : bool) : M Z :=
  if in_range width pos
  then ret (if val then Z.setbit bs pos else Z.clearbit bs pos)
  else throw.

(** [bs.test(pos)] *)
Definition test (width bs pos : Z) : M bool :=
  if in_range width pos then ret (Z.testbit bs pos) else throw.

(** [bs.any()] *)
Definition any (bs : Z) : bool := negb (bs =? 0).
End bitset.

(** ** [std::unordered_map] with integer keys *)

Module umap.
Definition t (V : Type) : Type := list (Z * V).

Fixpoint find {V} (k : Z) (m : t V) : option V :=
  match m with
  | [] => None
  | (k', v) :: m' => if k' =? k then Some v else find k m'
  end.

(** [m.erase(it)] for the iterator found under key [k]; keys are unique
    in the map, so this removes every entry under [k]. *)
Definition erase {V} (k : Z) (m : t V) : t V :=
  filter (fun e => negb (fst e =? k)) m.

(** Assignment through the iterator found under key [k]. *)
Fixpoint modify {V} (k : Z) (f : V -> V) (m : t V) : t V :=
  match m with
  | [] => []
  | (k', v) :: m' =>
      if k' =? k then (k', f v) :: m' else (k', v) :: modify k f m'
  end.

Definition keys {V} (m : t V) : list Z := map fst m.
End umap.

(** ** Data model of [BindingState] *)

Module Binding.

(** The live state of a buffer object, read through [getOffset] and
    [getSize]. *)
Record BufferObject : Type := { getOffset : Z; getSize : Z }.

Record PixelFormat : Type := { glInternalFormat : Z; glLocalDataType : Z }.

(** A texture object: [getGLId()] and [getFormat().pixelFormat]. *)
Record Texture : Type := { getGLId : Z; pixelFormat : PixelFormat }.

(** The externally owned objects that references point to.  A reference
    ([Util::Reference]) is [Some] address or null ([None]); two
    references are equal when they hold the same address. *)
Record Env : Type := {
  bufferObject : nat -> BufferObject;
  textureObject : nat -> Texture
}.

Definition Reference : Type := option nat.

Definition Reference_ne (a b : Reference) : bool :=
  match a, b with
  | Some x, Some y => negb (Nat.eqb x y)
  | None, None => false
  | _, _ => true
  end.

(** [BindingState::BufferBinding].  [target] and [location] overlay the
    64-bit [_key] (a union): [target] is the low word. *)
Record BufferBinding : Type := {
  buffer : Reference;
  target : Z;
  location : Z;
  offset : Z;
  size : Z
}.

Definition packKey (target location : Z) : Z := target + 2 ^ 32 * location.

Definition _key (b : BufferBinding) : Z := packKey (target b) (location b).

Module ImageBindParameters.
Record t : Type := {
  getTexture : Reference;
  getLevel : Z;
  getLayer : Z;
  getMultiLayer : bool;
  getReadOperations : bool;
  getWriteOperations : bool
}.
End ImageBindParameters.

Record BindingState : Type := {
  buffers : umap.t BufferBinding;
  textures : umap.t Reference;
  images : umap.t ImageBindParameters.t
}.

(** [BindingState::StateDiff_t]: one bitset per category. *)
Module StateDiff_t.
Record t : Type := {
  ssbos : Z;
  ubos : Z;
  acbos : Z;
  tfbos : Z;
  other : Z;
  textures : Z;
  images : Z
}.

(** A default-constructed difference: every bit clear. *)
Definition empty : t := Build_t 0 0 0 0 0 0 0.

Definition with_ssbos (d : t) (x : Z) : t :=
  Build_t x (ubos d) (acbos d) (tfbos d) (other d) (textures d) (images d).
Definition with_ubos (d : t) (x : Z) : t :=
  Build_t (ssbos d) x (acbos d) (tfbos d) (other d) (textures d) (images d).
Definition with_acbos (d : t) (x : Z) : t :=
  Build_t (ssbos d) (ubos d) x (tfbos d) (other d) (textures d) (images d).
Definition with_tfbos (d : t) (x : Z) : t :=
  Build_t (ssbos d) (ubos d) (acbos d) x (other d) (textures d) (images d).
Definition with_other (d : t) (x : Z) : t :=
  Build_t (ssbos d) (ubos d) (acbos d) (tfbos d) x (textures d) (images d).
Definition with_textures (d : t) (x : Z) : t :=
  Build_t (ssbos d) (ubos d) (acbos d) (tfbos d) (other d) x (images d).
Definition with_images (d : t) (x : Z) : t :=
  Build_t (ssbos d) (ubos d) (acbos d) (tfbos d) (other d) (textures d) x.
End StateDiff_t.

(** What [BindingState.h] declares and [BindingState.cpp] only uses: the
    widths of the seven bitsets, the two binding limits, the comparison
    operators of the binding records and the values the getters return
    for a key that is not in the map.  The development is parametric in
    them. *)
Record Header : Type := {
  SSBO_BITS : Z;
  UBO_BITS : Z;
  ACBO_BITS : Z;
  TFBO_BITS : Z;
  OTHER_BITS : Z;
  TEXTURE_BITS : Z;
  IMAGE_BITS : Z;
  getMaxTextureBindings : Z;
  getMaxImageBindings : Z;
  BufferBinding_ne : BufferBinding -> BufferBinding -> bool;
  unboundBuffer : BufferBinding;
  ImageBindParameters_ne :
    ImageBindParameters.t -> ImageBindParameters.t -> bool;
  unboundImage : ImageBindParameters.t
}.

(** ** The static helpers of [BindingState.cpp] *)

Definition getImageAccess (param : ImageBindParameters.t) : Z :=
  if negb (ImageBindParameters.getReadOperations param) then GL_WRITE_ONLY
  else if negb (ImageBindParameters.getWriteOperations param) then GL_READ_ONLY
  else GL_READ_WRITE.

Definition convertImageFormat (tex : Texture) : Z :=
  let pf := pixelFormat tex in
  let format := glInternalFormat pf in
  if (glLocalDataType pf =? GL_BYTE) || (glLocalDataType pf =? GL_UNSIGNED_BYTE)
  then
    if glInternalFormat pf =? GL_RED then GL_R8
    else if glInternalFormat pf =? GL_RG then GL_RG8
    else if glInternalFormat pf =? GL_RGB then GL_RGB8
    else if glInternalFormat pf =? GL_RGBA then GL_RGBA8
    else format
  else format.

Definition getBufferTargetBit (target : Z) : M Z :=
  if target =? GL_ARRAY_BUFFER then ret 0
  else if target =? GL_COPY_READ_BUFFER then ret 1
  else if target =? GL_COPY_WRITE_BUFFER then ret 2
  else if target =? GL_DISPATCH_INDIRECT_BUFFER then ret 3
  else if target =? GL_DRAW_INDIRECT_BUFFER then ret 4
  else if target =? GL_ELEMENT_ARRAY_BUFFER then ret 5
  else if target =? GL_PIXEL_PACK_BUFFER then ret 6
  else if target =? GL_PIXEL_UNPACK_BUFFER then ret 7
  else if target =? GL_QUERY_BUFFER then ret 8
  else if target =? GL_TEXTURE_BUFFER then ret 9
  else
    emit (WARN ("Unknown buffer target " ++ toString target)) ;;;
    ret 10.

Definition getBufferTargetFromBit (bit : Z) : Z :=
  if bit =? 0 then GL_ARRAY_BUFFER
  else if bit =? 1 then GL_COPY_READ_BUFFER
  else if bit =? 2 then GL_COPY_WRITE_BUFFER
  else if bit =? 3 then GL_DISPATCH_INDIRECT_BUFFER
  else if bit =? 4 then GL_DRAW_INDIRECT_BUFFER
  else if bit =? 5 then GL_ELEMENT_ARRAY_BUFFER
  else if bit =? 6 then GL_PIXEL_PACK_BUFFER
  else if bit =? 7 then GL_PIXEL_UNPACK_BUFFER
  else if bit =? 8 then GL_QUERY_BUFFER
  else if bit =? 9 then GL_TEXTURE_BUFFER
  else 0.

Section Engine.

Variable H : Header.
Variable env : Env.

Definition bindOrRemoveBuffer (bindings : umap.t BufferBinding)
    (target location : Z) : M (umap.t BufferBinding) :=
  let key := packKey target location in
  match umap.find key bindings with
  | Some b =>
      match buffer b with
      | Some obj =>
          let live := bufferObject env obj in
          let bindings' :=
            umap.modify key
              (fun b => Build_BufferBinding (buffer b) (Binding.target b)
                          (Binding.location b) (getOffset live) (getSize live))
              bindings in
          emit (BufferObject_bind obj target location) ;;;
          ret bindings'
      | None =>
          emit (BufferObject_unbind target location) ;;;
          ret (umap.erase key bindings)
      end
  | None => ret bindings
  end.

(** Modelled from the spec: the getter [getBufferBinding] of
    [BindingState.h]; a key absent from a snapshot is treated as
    unbound. *)
Definition getBufferBinding (s : BindingState) (key : Z) : BufferBinding :=
  match umap.find key (buffers s) with
  | Some b => b
  | None => unboundBuffer H
  end.

(** Modelled from the spec: the getter [getTexture] of [BindingState.h];
    an absent unit reads as the null reference. *)
Definition getTexture (s : BindingState) (unit : Z) : Reference :=
  match umap.find unit (textures s) with
  | Some t => t
  | None => None
  end.

(** Modelled from the spec: the getter [getImage] of [BindingState.h];
    an absent unit reads as the unbound image. *)
Definition getImage (s : BindingState) (unit : Z) : ImageBindParameters.t :=
  match umap.find unit (images s) with
  | Some p => p
  | None => unboundImage H
  end.

(** The local [changed] of [makeDiff]: the binding holds a buffer whose
    live offset or size is no longer the cached one. *)
Definition changed (b : BufferBinding) : bool :=
  match buffer b with
  | Some obj =>
      negb (offset b =? getOffset (bufferObject env obj))
      || negb (size b =? getSize (bufferObject env obj))
  | None => false
  end.

(** One iteration of the loops over [buffers]: [self] is the snapshot
    being iterated, [peer] the one it is compared against. *)
Definition diffBuffer (peer : BindingState) (forced : bool)
    (diff : StateDiff_t.t) (e : Z * BufferBinding) : M StateDiff_t.t :=
  let b := snd e in
  let key := _key b in
  let val := forced || changed b || BufferBinding_ne H (getBufferBinding peer key) b in
  if target b =? GL_SHADER_STORAGE_BUFFER then
    x <- bitset.set (SSBO_BITS H) (StateDiff_t.ssbos diff) (location b) val ;;
    ret (StateDiff_t.with_ssbos diff x)
  else if target b =? GL_UNIFORM_BUFFER then
    x <- bitset.set (UBO_BITS H) (StateDiff_t.ubos diff) (location b) val ;;
    ret (StateDiff_t.with_ubos diff x)
  else if target b =? GL_ATOMIC_COUNTER_BUFFER then
    x <- bitset.set (ACBO_BITS H) (StateDiff_t.acbos diff) (location b) val ;;
    ret (StateDiff_t.with_acbos diff x)
  else if target b =? GL_TRANSFORM_FEEDBACK_BUFFER then
    x <- bitset.set (TFBO_BITS H) (StateDiff_t.tfbos diff) (location b) val ;;
    ret (StateDiff_t.with_tfbos diff x)
  else
    bit <- getBufferTargetBit (target b) ;;
    x <- bitset.set (OTHER_BITS H) (StateDiff_t.other diff) bit val ;;
    ret (StateDiff_t.with_other diff x).

Definition diffTexture (peer : BindingState) (forced : bool)
    (diff : StateDiff_t.t) (e : Z * Reference) : M StateDiff_t.t :=
  x <- bitset.set (TEXTURE_BITS H) (StateDiff_t.textures diff) (fst e)
         (forced || Reference_ne (getTexture peer (fst e)) (snd e)) ;;
  ret (StateDiff_t.with_textures diff x).

Definition diffImage (peer : BindingState) (forced : bool)
    (diff : StateDiff_t.t) (e : Z * ImageBindParameters.t) : M StateDiff_t.t :=
  x <- bitset.set (IMAGE_BITS H) (StateDiff_t.images diff) (fst e)
         (forced || ImageBindParameters_ne H (getImage peer (fst e)) (snd e)) ;;
  ret (StateDiff_t.with_images diff x).

(** [this->makeDiff(target, forced)] *)
Definition makeDiff (this target : BindingState) (forced : bool)
    : M StateDiff_t.t :=
  let diff := StateDiff_t.empty in
  diff <- forEach (diffBuffer target forced) (buffers this) diff ;;
  diff <- forEach (diffBuffer this forced) (buffers target) diff ;;
  diff <- forEach (diffTexture target forced) (textures this) diff ;;
  diff <- forEach (diffTexture this forced) (textures target) diff ;;
  diff <- forEach (diffImage target forced) (images this) diff ;;
  diff <- forEach (diffImage this forced) (images target) diff ;;
  ret diff.

(** One of the five buffer passes of [apply]: when the mask has a set
    bit, the indices [0 .. count-1] are visited in ascending order, each
    set bit [i] rebinding the key ([targetOf i], [locationOf i]); the pass
    ends with an error probe.  The loop counter is a [uint_fast8_t],
    which reaches [count] only when [count] is below 256: the definition
    describes the pass for such a [count].  For a larger one the counter
    of the source wraps around and the loop does not end; the properties
    that say that [apply] returns are stated for masks narrower than 256
    bits ([narrow]). *)
Definition applyBuffers (width mask count : Z) (targetOf locationOf : Z -> Z)
    (bindings : umap.t BufferBinding) : M (umap.t BufferBinding) :=
  if bitset.any mask then
    bindings <- forEach (fun bindings i =>
                  set <- bitset.test width mask i ;;
                  if set : bool
                  then bindOrRemoveBuffer bindings (targetOf i) (locationOf i)
                  else ret bindings)
                (upTo count) bindings ;;
    emit GET_GL_ERROR ;;;
    ret bindings
  else ret bindings.

(** The texture pass of [apply], over the units below
    [getMaxTextureBindings()]; [test] raises at a unit beyond the width
    of the mask.  The counter is a [uint_fast8_t] as in the buffer
    passes: the definition describes the pass for a limit below 256, and
    for a larger limit when the mask is narrower than 256 bits, where
    [test] raises before the counter wraps around. *)
Definition applyTextures (mask : Z) (texs : umap.t Reference)
    : M (umap.t Reference) :=
  if bitset.any mask then
    texs <- forEach (fun texs i =>
              set <- bitset.test (TEXTURE_BITS H) mask i ;;
              if set : bool then
                match umap.find i texs with
                | Some (Some tex) =>
                    emit (glBindTextureUnit i (getGLId (textureObject env tex))) ;;;
                    ret texs
                | Some None =>
                    emit (glBindTextureUnit i 0) ;;;
                    ret (umap.erase i texs)
                | None => ret texs
                end
              else ret texs)
            (upTo (getMaxTextureBindings H)) texs ;;
    emit GET_GL_ERROR ;;;
    ret texs
  else ret texs.

(** The image pass of [apply], over the units below
    [getMaxImageBindings()], with the same counter.  The level and the
    layer are logged as the binding holds them; [glBindImageTexture]
    takes them as [GLint], so that the log shows what the driver
    receives for values below [2 ^ 31] ([imageArgumentsFit]). *)
Definition applyImages (mask : Z) (imgs : umap.t ImageBindParameters.t)
    : M (umap.t ImageBindParameters.t) :=
  if bitset.any mask then
    imgs <- forEach (fun imgs i =>
              set <- bitset.test (IMAGE_BITS H) mask i ;;
              if set : bool then
                match umap.find i imgs with
                | Some p =>
                    match ImageBindParameters.getTexture p with
                    | Some tex =>
                        emit (glBindImageTexture i
                                (getGLId (textureObject env tex))
                                (ImageBindParameters.getLevel p)
                                (if ImageBindParameters.getMultiLayer p
                                 then GL_TRUE else GL_FALSE)
                                (ImageBindParameters.getLayer p)
                                (getImageAccess p)
                                (convertImageFormat (textureObject env tex))) ;;;
                        ret imgs
                    | None =>
                        emit (glBindImageTexture i 0 0 GL_FALSE 0
                                GL_READ_WRITE GL_RGBA32F) ;;;
                        ret (umap.erase i imgs)
                    end
                | None => ret imgs
                end
              else ret imgs)
            (upTo (getMaxImageBindings H)) imgs ;;
    emit GET_GL_ERROR ;;;
    ret imgs
  else ret imgs.

(** [this->apply(diff)] *)
Definition apply (this : BindingState) (diff : StateDiff_t.t)
    : M BindingState :=
  emit GET_GL_ERROR ;;;
  (* SSBOs *)
  bufs <- applyBuffers (SSBO_BITS H) (StateDiff_t.ssbos diff) (SSBO_BITS H)
            (fun _ => GL_SHADER_STORAGE_BUFFER) (fun i => i) (buffers this) ;;
  (* UBOs *)
  bufs <- applyBuffers (UBO_BITS H) (StateDiff_t.ubos diff) (UBO_BITS H)
            (fun _ => GL_UNIFORM_BUFFER) (fun i => i) bufs ;;
  (* ACBOs *)
  bufs <- applyBuffers (ACBO_BITS H) (StateDiff_t.acbos diff) (ACBO_BITS H)
            (fun _ => GL_ATOMIC_COUNTER_BUFFER) (fun i => i) bufs ;;
  (* TFBOs *)
  bufs <- applyBuffers (TFBO_BITS H) (StateDiff_t.tfbos diff) (TFBO_BITS H)
            (fun _ => GL_TRANSFORM_FEEDBACK_BUFFER) (fun i => i) bufs ;;
  (* Other buffer *)
  bufs <- applyBuffers (OTHER_BITS H) (StateDiff_t.other diff) (OTHER_BITS H - 1)
            getBufferTargetFromBit (fun _ => 0) bufs ;;
  (* Textures *)
  texs <- applyTextures (StateDiff_t.textures diff) (textures this) ;;
  (* Images *)
  imgs <- applyImages (StateDiff_t.images diff) (images this) ;;
  ret (Build_BindingState bufs texs imgs).

(** Modelled from the spec: the reconciliation of the context facade
    (the caller of [makeDiff] and [apply]).  The difference between the
    current and the target snapshot is computed, the apply step runs on
    the target bindings, and current becomes target. *)
Definition reconcile (current target : BindingState) (forced : bool)
    : M (BindingState * BindingState) :=
  diff <- makeDiff current target forced ;;
  target' <- apply target diff ;;
  ret (target', target').

End Engine.


(** ** Vocabulary of the properties *)

(** The seven masks of a [StateDiff_t]. *)
Inductive Category : Type := SSBO | UBO | ACBO | TFBO | OTHER | TEXTURE | IMAGE.

Definition maskOf (c : Category) (d : StateDiff_t.t) : Z :=
  match c with
  | SSBO => StateDiff_t.ssbos d
  | UBO => StateDiff_t.ubos d
  | ACBO => StateDiff_t.acbos d
  | TFBO => StateDiff_t.tfbos d
  | OTHER => StateDiff_t.other d
  | TEXTURE => StateDiff_t.textures d
  | IMAGE => StateDiff_t.images d
  end.

Definition withMask (c : Category) (d : StateDiff_t.t) (x : Z) : StateDiff_t.t :=
  match c with
  | SSBO => StateDiff_t.with_ssbos d x
  | UBO => StateDiff_t.with_ubos d x
  | ACBO => StateDiff_t.with_acbos d x
  | TFBO => StateDiff_t.with_tfbos d x
  | OTHER => StateDiff_t.with_other d x
  | TEXTURE => StateDiff_t.with_textures d x
  | IMAGE => StateDiff_t.with_images d x
  end.

Definition widthOf (H : Header) (c : Category) : Z :=
  match c with
  | SSBO => SSBO_BITS H
  | UBO => UBO_BITS H
  | ACBO => ACBO_BITS H
  | TFBO => TFBO_BITS H
  | OTHER => OTHER_BITS H
  | TEXTURE => TEXTURE_BITS H
  | IMAGE => IMAGE_BITS H
  end.

Definition Category_eqb (a b : Category) : bool :=
  match a, b with
  | SSBO, SSBO | UBO, UBO | ACBO, ACBO | TFBO, TFBO
  | OTHER, OTHER | TEXTURE, TEXTURE | IMAGE, IMAGE => true
  | _, _ => false
  end.

Definition isBufferCategory (c : Category) : bool :=
  match c with TEXTURE | IMAGE => false | _ => true end.

(** The mask that the [switch] of [makeDiff] selects for a buffer target. *)
Definition bufferCategory (target : Z) : Category :=
  if target =? GL_SHADER_STORAGE_BUFFER then SSBO
  else if target =? GL_UNIFORM_BUFFER then UBO
  else if target =? GL_ATOMIC_COUNTER_BUFFER then ACBO
  else if target =? GL_TRANSFORM_FEEDBACK_BUFFER then TFBO
  else OTHER.

(** The value that [getBufferTargetBit] returns. *)
Definition targetBit (target : Z) : Z :=
  match getBufferTargetBit target with
  | Some (bit, _) => bit
  | None => 0
  end.

(** The ten targets that [getBufferTargetBit] recognises. *)
Definition recognised (target : Z) : bool := negb (targetBit target =? 10).

(** The bit of its mask that [makeDiff] writes for a buffer binding. *)
Definition bufferBit (b : BufferBinding) : Z :=
  match bufferCategory (target b) with
  | OTHER => targetBit (target b)
  | _ => location b
  end.

(** A write [bs.set(bit, val)] on the mask of a category. *)
Record Write : Type := { w_cat : Category; w_bit : Z; w_val : bool }.

Definition hits (w : Write) (c : Category) (i : Z) : bool :=
  Category_eqb (w_cat w) c && (w_bit w =? i).

(** The value of the last write of [ws] on bit [i] of mask [c], if any. *)
Fixpoint lastWrite (c : Category) (i : Z) (ws : list Write) : option bool :=
  match ws with
  | [] => None
  | w :: ws' =>
      match lastWrite c i ws' with
      | Some v => Some v
      | None => if hits w c i then Some (w_val w) else None
      end
  end.

Definition doWrite (H : Header) (d : StateDiff_t.t) (w : Write)
    : M StateDiff_t.t :=
  x <- bitset.set (widthOf H (w_cat w)) (maskOf (w_cat w) d) (w_bit w) (w_val w) ;;
  ret (withMask (w_cat w) d x).

Section Writes.

Variable H : Header.
Variable env : Env.

Definition bufferWrite (peer : BindingState) (forced : bool)
    (e : Z * BufferBinding) : Write :=
  let b := snd e in
  {| w_cat := bufferCategory (target b);
     w_bit := bufferBit b;
     w_val := forced || changed env b
              || BufferBinding_ne H (getBufferBinding H peer (_key b)) b |}.

Definition textureWrite (peer : BindingState) (forced : bool)
    (e : Z * Reference) : Write :=
  {| w_cat := TEXTURE;
     w_bit := fst e;
     w_val := forced || Reference_ne (getTexture peer (fst e)) (snd e) |}.

Definition imageWrite (peer : BindingState) (forced : bool)
    (e : Z * ImageBindParameters.t) : Write :=
  {| w_cat := IMAGE;
     w_bit := fst e;
     w_val := forced
              || ImageBindParameters_ne H (getImage H peer (fst e)) (snd e) |}.

(** The writes of the three loops of [makeDiff] that iterate [self]. *)
Definition writesOf (self peer : BindingState) (forced : bool) : list Write :=
  map (bufferWrite peer forced) (buffers self)
  ++ map (textureWrite peer forced) (textures self)
  ++ map (imageWrite peer forced) (images self).

(** The bits computed by the scan over the keys of [self] alone: the
    three loops of [makeDiff] over [self], run on a fresh difference. *)
Definition scanKeys (self peer : BindingState) (forced : bool)
    : M StateDiff_t.t :=
  let diff := StateDiff_t.empty in
  diff <- forEach (diffBuffer H env peer forced) (buffers self) diff ;;
  diff <- forEach (diffTexture H peer forced) (textures self) diff ;;
  diff <- forEach (diffImage H peer forced) (images self) diff ;;
  ret diff.

(** Bit [i] of mask [c] is written by the scan over the keys of [self]. *)
Definition wrote (self : BindingState) (c : Category) (i : Z) : bool :=
  existsb (fun w => hits w c i) (writesOf self self false).

(** Every slot index of the snapshot lies within the width of its mask,
    so that no [set] of [makeDiff] raises. *)
Definition fits (s : BindingState) : bool :=
  forallb (fun w => bitset.in_range (widthOf H (w_cat w)) (w_bit w))
          (writesOf s s false).

End Writes.

(** Mask-wise union of two differences. *)
Definition union (a b : StateDiff_t.t) : StateDiff_t.t :=
  StateDiff_t.Build_t
    (Z.lor (StateDiff_t.ssbos a) (StateDiff_t.ssbos b))
    (Z.lor (StateDiff_t.ubos a) (StateDiff_t.ubos b))
    (Z.lor (StateDiff_t.acbos a) (StateDiff_t.acbos b))
    (Z.lor (StateDiff_t.tfbos a) (StateDiff_t.tfbos b))
    (Z.lor (StateDiff_t.other a) (StateDiff_t.other b))
    (Z.lor (StateDiff_t.textures a) (StateDiff_t.textures b))
    (Z.lor (StateDiff_t.images a) (StateDiff_t.images b)).

(** *** Binding points and driver calls *)

Inductive Slot : Type :=
| BufferSlot (target location : Z)
| TextureSlot (unit : Z)
| ImageSlot (unit : Z).

Definition Slot_eqb (a b : Slot) : bool :=
  match a, b with
  | BufferSlot t l, BufferSlot t' l' => (t =? t') && (l =? l')
  | TextureSlot u, TextureSlot u' => u =? u'
  | ImageSlot u, ImageSlot u' => u =? u'
  | _, _ => false
  end.

(** The binding point that a driver call addresses; diagnostics and
    error probes address none. *)
Definition slotOfEvent (e : Event) : option Slot :=
  match e with
  | BufferObject_bind _ t l => Some (BufferSlot t l)
  | BufferObject_unbind t l => Some (BufferSlot t l)
  | glBindTextureUnit u _ => Some (TextureSlot u)
  | glBindImageTexture u _ _ _ _ _ _ => Some (ImageSlot u)
  | _ => None
  end.

Definition isCall (e : Event) : bool :=
  match slotOfEvent e with Some _ => true | None => false end.

(** The bind and unbind calls of a log, in the order they were issued. *)
Definition calls (log : list Event) : list Event := filter isCall log.

Definition addresses (sl : Slot) (e : Event) : bool :=
  match slotOfEvent e with Some sl' => Slot_eqb sl' sl | None => false end.

(** The number of driver calls of a log that address a binding point. *)
Definition callsAt (sl : Slot) (log : list Event) : nat :=
  List.length (filter (addresses sl) log).

Definition slotCategory (sl : Slot) : Category :=
  match sl with
  | BufferSlot t _ => bufferCategory t
  | TextureSlot _ => TEXTURE
  | ImageSlot _ => IMAGE
  end.

Definition slotBit (sl : Slot) : Z :=
  match sl with
  | BufferSlot t l =>
      match bufferCategory t with OTHER => targetBit t | _ => l end
  | TextureSlot u => u
  | ImageSlot u => u
  end.

(** The snapshot has an entry under the key of the binding point. *)
Definition occupied (s : BindingState) (sl : Slot) : bool :=
  match sl with
  | BufferSlot t l =>
      match umap.find (packKey t l) (buffers s) with Some _ => true | None => false end
  | TextureSlot u =>
      match umap.find u (textures s) with Some _ => true | None => false end
  | ImageSlot u =>
      match umap.find u (images s) with Some _ => true | None => false end
  end.

(** The loops of [apply] look at the binding point: every index of the
    four indexed buffer masks, the recognised targets of the shared mask
    at location 0, and the units below the binding limits. *)
Definition reached (H : Header) (sl : Slot) : bool :=
  match sl with
  | BufferSlot t l =>
      match bufferCategory t with
      | OTHER => recognised t && (l =? 0)
      | c => bitset.in_range (widthOf H c) l
      end
  | TextureSlot u => bitset.in_range (getMaxTextureBindings H) u
  | ImageSlot u => bitset.in_range (getMaxImageBindings H) u
  end.

(** [apply] reaches the binding point and finds its bit set. *)
Definition flagged (H : Header) (d : StateDiff_t.t) (sl : Slot) : bool :=
  reached H sl && Z.testbit (maskOf (slotCategory sl) d) (slotBit sl).

(** The position of a driver call in the fixed order of [apply]: the
    rank of its category, then the index within the category. *)
Definition categoryRank (c : Category) : Z :=
  match c with
  | SSBO => 0 | UBO => 1 | ACBO => 2 | TFBO => 3 | OTHER => 4
  | TEXTURE => 5 | IMAGE => 6
  end.

Definition slotRank (sl : Slot) : Z * Z :=
  (categoryRank (slotCategory sl), slotBit sl).

Definition rankOfEvent (e : Event) : Z * Z :=
  match slotOfEvent e with
  | Some sl => slotRank sl
  | None => (0, 0)
  end.

Definition rank_lt (a b : Z * Z) : Prop :=
  fst a < fst b \/ (fst a = fst b /\ snd a < snd b).

Definition issuedBefore (e1 e2 : Event) : Prop :=
  rank_lt (rankOfEvent e1) (rankOfEvent e2).

(** *** Invariants of snapshots and of the header *)

(** The invariant of a snapshot: keys are unique in each map, a buffer
    binding is stored under its own [_key], and its [target] and
    [location] are 32-bit unsigned numbers. *)
Definition wellFormed (s : BindingState) : Prop :=
  NoDup (umap.keys (buffers s))
  /\ (forall k b, In (k, b) (buffers s) ->
        k = _key b /\ 0 <= target b < 2 ^ 32 /\ 0 <= location b < 2 ^ 32)
  /\ NoDup (umap.keys (textures s))
  /\ NoDup (umap.keys (images s)).

(** The declarations of the header agree with their use in
    [BindingState.cpp]: the shared mask has one bit for each of the ten
    recognised targets and the sentinel bit 10 as its last one, and the
    binding limits do not exceed the widths of the masks they index. *)
Definition consistent (H : Header) : Prop :=
  OTHER_BITS H = 11
  /\ getMaxTextureBindings H <= TEXTURE_BITS H
  /\ getMaxImageBindings H <= IMAGE_BITS H.

(** No buffer binding of the snapshot is stale. *)
Definition fresh (env : Env) (s : BindingState) : Prop :=
  forall k b, In (k, b) (buffers s) -> changed env b = false.

(** *** Proof devices: logs restricted to driver calls, runs of writes *)

(** The computation with its log restricted to the driver calls. *)
Definition quiet {A} (m : M A) : M A :=
  match m with
  | Some (a, log) => Some (a, calls log)
  | None => None
  end.

Definition applyWrites (H : Header) (ws : list Write) (d : StateDiff_t.t)
    : M StateDiff_t.t :=
  forEach (doWrite H) ws d.

(** All writes of [makeDiff], in the order of its six loops. *)
Definition allWrites (H : Header) (env : Env) (this target : BindingState)
    (forced : bool) : list Write :=
  map (bufferWrite H env target forced) (buffers this)
  ++ map (bufferWrite H env this forced) (buffers target)
  ++ map (textureWrite target forced) (textures this)
  ++ map (textureWrite this forced) (textures target)
  ++ map (imageWrite H target forced) (images this)
  ++ map (imageWrite H this forced) (images target).

Definition inRange (H : Header) (w : Write) : bool :=
  bitset.in_range (widthOf H (w_cat w)) (w_bit w).

(** *** Proof devices: the passes of [apply] as visits of keys *)

Section Visit.

Variables V I : Type.
Variable keyOf : I -> Z.
Variable live : I -> V -> option (Event * V).
Variable dead : I -> Event.

(** What [apply] does at one set bit: an entry that is live is bound (and
    possibly updated), an entry that is not is unbound and erased, a
    missing entry is left alone. *)
Definition visit (m : umap.t V) (i : I) : M (umap.t V) :=
  match umap.find (keyOf i) m with
  | Some v =>
      match live i v with
      | Some (e, v') => emit e ;;; ret (umap.modify (keyOf i) (fun _ => v') m)
      | None => emit (dead i) ;;; ret (umap.erase (keyOf i) m)
      end
  | None => ret m
  end.

Definition eventsAt (m : umap.t V) (i : I) : list Event :=
  match umap.find (keyOf i) m with
  | Some v =>
      match live i v with
      | Some (e, _) => [e]
      | None => [dead i]
      end
  | None => []
  end.

Definition afterVisit (i : I) (o : option V) : option V :=
  match o with
  | Some v => option_map snd (live i v)
  | None => None
  end.

End Visit.

(** The set bits of a mask below [count], ascending. *)
Definition setBits (mask count : Z) : list Z :=
  filter (Z.testbit mask) (upTo count).

Definition bufferKey (tl : Z * Z) : Z := packKey (fst tl) (snd tl).

Definition refreshed (env : Env) (obj : nat) (b : BufferBinding) : BufferBinding :=
  Build_BufferBinding (buffer b) (target b) (location b)
    (getOffset (bufferObject env obj)) (getSize (bufferObject env obj)).

Definition bufferLive (env : Env) (tl : Z * Z) (b : BufferBinding)
    : option (Event * BufferBinding) :=
  match buffer b with
  | Some obj => Some (BufferObject_bind obj (fst tl) (snd tl), refreshed env obj b)
  | None => None
  end.

Definition bufferDead (tl : Z * Z) : Event :=
  BufferObject_unbind (fst tl) (snd tl).

Definition textureLive (env : Env) (i : Z) (r : Reference)
    : option (Event * Reference) :=
  match r with
  | Some tex => Some (glBindTextureUnit i (getGLId (textureObject env tex)), r)
  | None => None
  end.

Definition textureDead (i : Z) : Event := glBindTextureUnit i 0.

Definition imageLive (env : Env) (i : Z) (p : ImageBindParameters.t)
    : option (Event * ImageBindParameters.t) :=
  match ImageBindParameters.getTexture p with
  | Some tex =>
      Some (glBindImageTexture i
              (getGLId (textureObject env tex))
              (ImageBindParameters.getLevel p)
              (if ImageBindParameters.getMultiLayer p then GL_TRUE else GL_FALSE)
              (ImageBindParameters.getLayer p)
              (getImageAccess p)
              (convertImageFormat (textureObject env tex)), p)
  | None => None
  end.

Definition imageDead (i : Z) : Event :=
  glBindImageTexture i 0 0 GL_FALSE 0 GL_READ_WRITE GL_RGBA32F.

(** The keys that the five buffer passes of [apply] visit, in order. *)
Definition bufferVisits (H : Header) (d : StateDiff_t.t) : list (Z * Z) :=
  map (fun i => (GL_SHADER_STORAGE_BUFFER, i))
      (setBits (StateDiff_t.ssbos d) (SSBO_BITS H))
  ++ map (fun i => (GL_UNIFORM_BUFFER, i))
         (setBits (StateDiff_t.ubos d) (UBO_BITS H))
  ++ map (fun i => (GL_ATOMIC_COUNTER_BUFFER, i))
         (setBits (StateDiff_t.acbos d) (ACBO_BITS H))
  ++ map (fun i => (GL_TRANSFORM_FEEDBACK_BUFFER, i))
         (setBits (StateDiff_t.tfbos d) (TFBO_BITS H))
  ++ map (fun i => (getBufferTargetFromBit i, 0))
         (setBits (StateDiff_t.other d) (OTHER_BITS H - 1)).

Definition textureVisits (H : Header) (d : StateDiff_t.t) : list Z :=
  setBits (StateDiff_t.textures d) (getMaxTextureBindings H).

Definition imageVisits (H : Header) (d : StateDiff_t.t) : list Z :=
  setBits (StateDiff_t.images d) (getMaxImageBindings H).

(** The binding points that [apply] visits, in order. *)
Definition visitedSlots (H : Header) (d : StateDiff_t.t) : list Slot :=
  map (fun tl => BufferSlot (fst tl) (snd tl)) (bufferVisits H d)
  ++ map TextureSlot (textureVisits H d)
  ++ map ImageSlot (imageVisits H d).

(** *** What a snapshot holds at a binding point *)

Inductive Bound : Type :=
| BufferBound (b : BufferBinding)
| TextureBound (r : Reference)
| ImageBound (p : ImageBindParameters.t).

Definition lookup (s : BindingState) (sl : Slot) : option Bound :=
  match sl with
  | BufferSlot t l => option_map BufferBound (umap.find (packKey t l) (buffers s))
  | TextureSlot u => option_map TextureBound (umap.find u (textures s))
  | ImageSlot u => option_map ImageBound (umap.find u (images s))
  end.

(** The resource that the binding refers to, null when the handle is. *)
Definition resourceOf (bd : Bound) : Reference :=
  match bd with
  | BufferBound b => buffer b
  | TextureBound r => r
  | ImageBound p => ImageBindParameters.getTexture p
  end.

(** The driver call that binds the live resource [obj] of the binding
    [bd] at the binding point [sl]. *)
Definition bindCall (env : Env) (sl : Slot) (bd : Bound) (obj : nat) : Event :=
  match sl, bd with
  | ImageSlot u, ImageBound p =>
      glBindImageTexture u (getGLId (textureObject env obj))
        (ImageBindParameters.getLevel p)
        (if ImageBindParameters.getMultiLayer p then GL_TRUE else GL_FALSE)
        (ImageBindParameters.getLayer p)
        (getImageAccess p)
        (convertImageFormat (textureObject env obj))
  | ImageSlot u, _ => glBindImageTexture u (getGLId (textureObject env obj)) 0 0 0 0 0
  | TextureSlot u, _ => glBindTextureUnit u (getGLId (textureObject env obj))
  | BufferSlot t l, _ => BufferObject_bind obj t l
  end.

(** The driver call that unbinds the binding point [sl]. *)
Definition unbindCall (sl : Slot) : Event :=
  match sl with
  | BufferSlot t l => BufferObject_unbind t l
  | TextureSlot u => glBindTextureUnit u 0
  | ImageSlot u => glBindImageTexture u 0 0 GL_FALSE 0 GL_READ_WRITE GL_RGBA32F
  end.

(** The binding after a bind call: a buffer binding has its cached offset
    and size refreshed from the live buffer, texture and image bindings
    are unchanged. *)
Definition rebound (env : Env) (bd : Bound) (obj : nat) : Bound :=
  match bd with
  | BufferBound b => BufferBound (refreshed env obj b)
  | _ => bd
  end.

(** The driver calls of [apply] at a binding point whose bit is set. *)
Definition callsFor (env : Env) (sl : Slot) (o : option Bound) : list Event :=
  match o with
  | Some bd =>
      match resourceOf bd with
      | Some obj => [bindCall env sl bd obj]
      | None => [unbindCall sl]
      end
  | None => []
  end.

(** What the snapshot holds afterwards at such a binding point. *)
Definition afterApply (env : Env) (o : option Bound) : option Bound :=
  match o with
  | Some bd =>
      match resourceOf bd with
      | Some obj => Some (rebound env bd obj)
      | None => None
      end
  | None => None
  end.

(** A binding point that the 32-bit key of a buffer binding can name. *)
Definition validSlot (sl : Slot) : Prop :=
  match sl with
  | BufferSlot t l => 0 <= t < 2 ^ 32 /\ 0 <= l < 2 ^ 32
  | _ => True
  end.

Definition slotBefore (a b : Slot) : Prop := rank_lt (slotRank a) (slotRank b).

(** *** What the scans compute *)

(** The value, forced mode apart, that the scan over a snapshot writes
    for one of its bindings when it compares it against [peer]. *)
Definition scanValue (H : Header) (env : Env) (peer : BindingState)
    (sl : Slot) (bd : Bound) : bool :=
  match sl, bd with
  | BufferSlot t l, BufferBound b =>
      changed env b
      || BufferBinding_ne H (getBufferBinding H peer (packKey t l)) b
  | TextureSlot u, TextureBound r => Reference_ne (getTexture peer u) r
  | ImageSlot u, ImageBound p =>
      ImageBindParameters_ne H (getImage H peer u) p
  | _, _ => false
  end.

(** The value that [makeDiff], forced mode apart, leaves on the bit of a
    binding point: the scan over the target writes last; a binding point
    that only the current snapshot occupies keeps the value of the scan
    over current. *)
Definition scanned (H : Header) (env : Env) (current target : BindingState)
    (sl : Slot) : bool :=
  match lookup target sl with
  | Some bd => scanValue H env current sl bd
  | None =>
      match lookup current sl with
      | Some bd => scanValue H env target sl bd
      | None => false
      end
  end.

(** The comparison operators report no difference between a binding and
    itself. *)
Definition irreflexive (H : Header) : Prop :=
  (forall b, BufferBinding_ne H b b = false)
  /\ (forall p, ImageBindParameters_ne H p p = false).

(** The fourteen buffer targets that the switches of [makeDiff] and
    [getBufferTargetBit] name. *)
Definition knownTargets : list Z :=
  [GL_SHADER_STORAGE_BUFFER; GL_UNIFORM_BUFFER; GL_ATOMIC_COUNTER_BUFFER;
   GL_TRANSFORM_FEEDBACK_BUFFER; GL_ARRAY_BUFFER; GL_COPY_READ_BUFFER;
   GL_COPY_WRITE_BUFFER; GL_DISPATCH_INDIRECT_BUFFER; GL_DRAW_INDIRECT_BUFFER;
   GL_ELEMENT_ARRAY_BUFFER; GL_PIXEL_PACK_BUFFER; GL_PIXEL_UNPACK_BUFFER;
   GL_QUERY_BUFFER; GL_TEXTURE_BUFFER].

(** *** Vocabulary of the further properties *)

(** The ten targets that share the mask [other], in the order of their
    bits. *)
Definition sharedTargets : list Z :=
  [GL_ARRAY_BUFFER; GL_COPY_READ_BUFFER; GL_COPY_WRITE_BUFFER;
   GL_DISPATCH_INDIRECT_BUFFER; GL_DRAW_INDIRECT_BUFFER;
   GL_ELEMENT_ARRAY_BUFFER; GL_PIXEL_PACK_BUFFER; GL_PIXEL_UNPACK_BUFFER;
   GL_QUERY_BUFFER; GL_TEXTURE_BUFFER].

(** The four targets that have a mask of their own, indexed by location. *)
Definition indexedTargets : list Z :=
  [GL_SHADER_STORAGE_BUFFER; GL_UNIFORM_BUFFER; GL_ATOMIC_COUNTER_BUFFER;
   GL_TRANSFORM_FEEDBACK_BUFFER].

(** The byte component types for which [convertImageFormat] replaces an
    unsized format, the unsized formats and their sized counterparts. *)
Definition byteTypes : list Z := [GL_BYTE; GL_UNSIGNED_BYTE].
Definition unsizedFormats : list Z := [GL_RED; GL_RG; GL_RGB; GL_RGBA].
Definition sizedFormats : list Z := [GL_R8; GL_RG8; GL_RGB8; GL_RGBA8].

(** The diagnostics of one loop of [makeDiff] over buffer bindings: a
    warning for each binding, in iteration order, whose target reaches
    the [default] branch and is not recognised there. *)
Definition unknownWarnings (bs : umap.t BufferBinding) : list Event :=
  flat_map (fun e =>
              match bufferCategory (target (snd e)) with
              | OTHER =>
                  if recognised (target (snd e)) then []
                  else [WARN ("Unknown buffer target "
                              ++ toString (target (snd e)))]
              | _ => []
              end) bs.

(** The positions, mask and bit, that the loops of [makeDiff] over a
    snapshot write. *)
Definition positions (s : BindingState) : list (Category * Z) :=
  map (fun e => (bufferCategory (target (snd e)), bufferBit (snd e))) (buffers s)
  ++ map (fun e => (TEXTURE, fst e)) (textures s)
  ++ map (fun e => (IMAGE, fst e)) (images s).

(** The number of bits of a mask that the loop of [apply] runs over. *)
Definition loopBound (H : Header) (c : Category) : Z :=
  match c with
  | OTHER => OTHER_BITS H - 1
  | TEXTURE => getMaxTextureBindings H
  | IMAGE => getMaxImageBindings H
  | _ => widthOf H c
  end.

Definition isBind (e : Event) : bool :=
  match e with BufferObject_bind _ _ _ => true | _ => false end.

(** The entries of a snapshot, over its three maps. *)
Definition entries (s : BindingState) : nat :=
  (List.length (buffers s) + List.length (textures s)
   + List.length (images s))%nat.

Definition isProbe (e : Event) : bool :=
  match e with GET_GL_ERROR => true | _ => false end.

(** The masks in the order in which [apply] goes through them. *)
Definition categories : list Category :=
  [SSBO; UBO; ACBO; TFBO; OTHER; TEXTURE; IMAGE].

(** The loop counters of [apply] are [uint_fast8_t]: a mask of 256 bits
    or more would make them wrap around before the loop ends. *)
Definition narrow (H : Header) : Prop :=
  forall c, 0 <= widthOf H c < 256.

Section Settled.

Variables V I : Type.
Variable keyOf : I -> Z.
Variable live : I -> V -> option (Event * V).

(** An entry that a visit binds without changing it, or no entry. *)
Definition settled (m : umap.t V) (i : I) : Prop :=
  match umap.find (keyOf i) m with
  | Some v => exists e, live i v = Some (e, v)
  | None => True
  end.

End Settled.

(** The log of one pass of [apply]: nothing for a zero mask, otherwise
    driver calls followed by one error probe. *)
Definition passLog (mask : Z) (lg : list Event) : Prop :=
  exists cs,
    lg = (if bitset.any mask then cs ++ [GET_GL_ERROR] else [])
    /\ forallb isCall cs = true.

(** The level and the layer of every image binding of the snapshot are
    representable in the [GLint] parameters of [glBindImageTexture]. *)
Definition imageArgumentsFit (s : BindingState) : Prop :=
  forall u p, In (u, p) (images s) ->
    0 <= ImageBindParameters.getLevel p < 2 ^ 31
    /\ 0 <= ImageBindParameters.getLayer p < 2 ^ 31.

(** The buffer entry is stored under its own key, with a 32-bit target,
    and [makeDiff] writes it to bit [i] of mask [c]. *)
Definition atPosition (c : Category) (i : Z) (e : Z * BufferBinding) : bool :=
  Category_eqb (bufferCategory (target (snd e))) c
  && (bufferBit (snd e) =? i)
  && (fst e =? _key (snd e))
  && (0 <=? target (snd e)) && (target (snd e) <? 2 ^ 32).

(** What the scan of a snapshot against itself writes for a buffer
    entry when the comparison reports no difference: whether the entry
    is stale. *)
Definition stalenessWrite (env : Env) (e : Z * BufferBinding) : Write :=
  {| w_cat := bufferCategory (target (snd e));
     w_bit := bufferBit (snd e);
     w_val := changed env (snd e) |}.
End Binding.

(** ** [ShaderObjectInfo] *)

Module ShaderObjectInfo.

Inductive ShaderStage : Type :=
| Vertex | TesselationControl | TesselationEvaluation
| Geometry | Fragment | Compute.

Inductive shaderc_shader_kind : Type :=
| shaderc_glsl_vertex_shader
| shaderc_glsl_tess_control_shader
| shaderc_glsl_tess_evaluation_shader
| shaderc_glsl_geometry_shader
| shaderc_glsl_fragment_shader
| shaderc_glsl_compute_shader.

(** The object: its stage, the GLSL [code], the SPIR-V words [spirv], the
    file name (empty when there is none) and the macro definitions. *)
Record t : Type := {
  stage : ShaderStage;
  code : string;
  spirv : list Z;
  filename : string;
  defines : list (string * string)
}.

(** The two constructors: the members that are not named in the
    initialiser list are default-constructed, hence empty. *)
Definition fromCode (stage : ShaderStage) (_code : string) : t :=
  Build_t stage _code [] "" [].

Definition fromSpirv (stage : ShaderStage) (_spirv : list Z) : t :=
  Build_t stage "" _spirv "" [].

Definition createVertex (spirv : list Z) : t := fromSpirv Vertex spirv.
Definition createFragment (spirv : list Z) : t := fromSpirv Fragment spirv.
Definition createGeometry (spirv : list Z) : t := fromSpirv Geometry spirv.
Definition createCompute (spirv : list Z) : t := fromSpirv Compute spirv.

Definition createVertexFromCode (code : string) : t := fromCode Vertex code.
Definition createFragmentFromCode (code : string) : t := fromCode Fragment code.
Definition createGeometryFromCode (code : string) : t := fromCode Geometry code.
Definition createComputeFromCode (code : string) : t := fromCode Compute code.

(** A shader module handle: [None] is [nullptr], [Some ws] the module
    that the device created from the words [ws]. *)
Definition ShaderModuleHandle : Type := option (list Z).

Definition newline : string := String (Ascii.ascii_of_nat 10) EmptyString.

Section Compile.

(** The GLSL compiler of shaderc, an external collaborator: from the
    source, the shader kind, the input name and the macro definitions it
    yields the SPIR-V words or an error message. *)
Variable CompileGlslToSpv :
  string -> shaderc_shader_kind -> string -> list (string * string) ->
  list Z + string.

(** [Util::FileName::toShortString] *)
Variable toShortString : string -> string.

Definition stageSetup (s : ShaderStage)
    : string * string * shaderc_shader_kind :=
  match s with
  | Vertex => ("Vertex", "SG_VERTEX_SHADER", shaderc_glsl_vertex_shader)
  | TesselationControl =>
      ("TesselationControl", "SG_TESSELATIONCONTROL_SHADER",
       shaderc_glsl_tess_control_shader)
  | TesselationEvaluation =>
      ("TesselationEvaluation", "SG_TESSELATIONEVALUATION_SHADER",
       shaderc_glsl_tess_evaluation_shader)
  | Geometry => ("Geometry", "SG_GEOMETRY_SHADER", shaderc_glsl_geometry_shader)
  | Fragment => ("Fragment", "SG_FRAGMENT_SHADER", shaderc_glsl_fragment_shader)
  | Compute => ("Compute", "SG_COMPUTE_SHADER", shaderc_glsl_compute_shader)
  end%string.

(** [info.compile(device)]: the handle returned and the object
    afterwards ([spirv] is assigned on a successful compilation). *)
Definition compile (info : t) : M (ShaderModuleHandle * t) :=
  if (code info =? "")%string then
    emit (WARN "ShaderObjectInfo: Cannot compile empty code.") ;;;
    ret (None, info)
  else
    match spirv info with
    | _ :: _ =>
        (* Don't recompile *)
        emit (createShaderModule (spirv info)) ;;;
        ret (Some (spirv info), info)
    | [] =>
        let '(stageName, stageMacro, kind) := stageSetup (stage info) in
        let macros := (stageMacro, ""%string) :: defines info in
        let name :=
          if (filename info =? "")%string then stageName else filename info in
        match CompileGlslToSpv (code info) kind name macros with
        | inr message =>
            emit (WARN
              (if (filename info =? "")%string
               then "Shader compile error:" ++ newline ++ message ++ newline
                    ++ "Shader code:" ++ newline ++ code info
               else "Shader compile error:" ++ newline ++ message ++ newline
                    ++ "in shader file: " ++ toShortString (filename info)
                    ++ newline)%string) ;;;
            ret (None, info)
        | inl words =>
            let info' :=
              Build_t (stage info) (code info) words (filename info)
                (defines info) in
            emit (createShaderModule words) ;;;
            ret (Some words, info')
        end
    end.

End Compile.

End ShaderObjectInfo.

(** ** Concrete headers, environments and snapshots *)

Module Examples.
Import Binding.

(** Modelled from the spec: an instance of the declarations of
    [BindingState.h].  Buffer bindings differ when their handles or their
    keys differ; image bindings differ when any of their fields does; an
    absent key reads as the null binding. *)
Definition BufferBinding_ne (a b : BufferBinding) : bool :=
  Reference_ne (buffer a) (buffer b) || negb (_key a =? _key b).

Definition ImageBindParameters_ne (a b : ImageBindParameters.t) : bool :=
  Reference_ne (ImageBindParameters.getTexture a) (ImageBindParameters.getTexture b)
  || negb (ImageBindParameters.getLevel a =? ImageBindParameters.getLevel b)
  || negb (ImageBindParameters.getLayer a =? ImageBindParameters.getLayer b)
  || xorb (ImageBindParameters.getMultiLayer a) (ImageBindParameters.getMultiLayer b)
  || xorb (ImageBindParameters.getReadOperations a) (ImageBindParameters.getReadOperations b)
  || xorb (ImageBindParameters.getWriteOperations a) (ImageBindParameters.getWriteOperations b).

Definition header : Header :=
  {| SSBO_BITS := 8;
     UBO_BITS := 8;
     ACBO_BITS := 8;
     TFBO_BITS := 4;
     OTHER_BITS := 11;
     TEXTURE_BITS := 16;
     IMAGE_BITS := 8;
     getMaxTextureBindings := 16;
     getMaxImageBindings := 8;
     Binding.BufferBinding_ne := BufferBinding_ne;
     unboundBuffer := Build_BufferBinding None 0 0 0 0;
     Binding.ImageBindParameters_ne := ImageBindParameters_ne;
     unboundImage := ImageBindParameters.Build_t None 0 0 false true true |}.

(** Every buffer object lives at offset 0 with 64 bytes; texture [n] has
    the driver name [n + 1] and an 8-bit RGBA format. *)
Definition env : Env :=
  {| bufferObject := fun _ => {| getOffset := 0; getSize := 64 |};
     textureObject := fun n =>
       {| getGLId := Z.of_nat n + 1;
          pixelFormat := {| glInternalFormat := GL_RGBA;
                            glLocalDataType := GL_UNSIGNED_BYTE |} |} |}.

(** Buffer [obj] bound to ([target], [location]) with the cached extent
    ([0], [size]), stored under its key. *)
Definition bound (obj : nat) (target location size : Z) : Z * BufferBinding :=
  (packKey target location,
   Build_BufferBinding (Some obj) target location 0 size).

(** A null buffer bound to ([target], [location]). *)
Definition nullBound (target location : Z) : Z * BufferBinding :=
  (packKey target location, Build_BufferBinding None target location 0 0).

Definition onlyBuffers (bs : umap.t BufferBinding) : BindingState :=
  Build_BindingState bs [] [].

Definition nothingBound : BindingState := onlyBuffers [].

(** Two array buffers, at locations 0 and 1: both fall on bit 0 of the
    shared mask. *)
Definition twoArrayBuffers : BindingState :=
  onlyBuffers [bound 1 GL_ARRAY_BUFFER 0 64; bound 2 GL_ARRAY_BUFFER 1 64].

Definition oneArrayBuffer : BindingState :=
  onlyBuffers [bound 1 GL_ARRAY_BUFFER 0 64].

(** Array buffers at locations 0 and 1; the first is stale (32 bytes
    cached, 64 live), the second is not. *)
Definition staleThenFresh : BindingState :=
  onlyBuffers [bound 1 GL_ARRAY_BUFFER 0 32; bound 2 GL_ARRAY_BUFFER 1 64].

(** Array buffers at locations 0 and 1; the second is stale. *)
Definition freshThenStale : BindingState :=
  onlyBuffers [bound 1 GL_ARRAY_BUFFER 0 64; bound 2 GL_ARRAY_BUFFER 1 32].

Definition storageAt2 : BindingState :=
  onlyBuffers [bound 1 GL_SHADER_STORAGE_BUFFER 2 64].

Definition uniformAt1 : BindingState :=
  onlyBuffers [bound 2 GL_UNIFORM_BUFFER 1 64].

(** A stale buffer (32 bytes cached, 64 live) bound to the target
    [GL_PARAMETER_BUFFER] ([0x80EE]), which [getBufferTargetBit] does not
    recognise. *)
Definition staleParameterBuffer : BindingState :=
  onlyBuffers [bound 1 0x80EE 0 32].

(** The null buffer requested at storage slot 2. *)
Definition nullStorageAt2 : BindingState :=
  onlyBuffers [nullBound GL_SHADER_STORAGE_BUFFER 2].

Definition arrayAt1 : BindingState :=
  onlyBuffers [bound 2 GL_ARRAY_BUFFER 1 64].

Definition storageAndUniform : BindingState :=
  onlyBuffers [bound 1 GL_SHADER_STORAGE_BUFFER 2 64;
               bound 2 GL_UNIFORM_BUFFER 1 64].

(** A stale uniform buffer at slot 1 (32 bytes cached, 64 live). *)
Definition staleUniformAt1 : BindingState :=
  onlyBuffers [bound 2 GL_UNIFORM_BUFFER 1 32].

(** A snapshot with bindings of every kind: a storage buffer, a stale
    uniform buffer (32 bytes cached, 64 live), a null storage buffer, an
    element array buffer, a texture, a null texture and an image. *)
Definition mixed : BindingState :=
  {| buffers := [bound 1 GL_SHADER_STORAGE_BUFFER 2 64;
                 bound 2 GL_UNIFORM_BUFFER 1 32;
                 nullBound GL_SHADER_STORAGE_BUFFER 3;
                 bound 3 GL_ELEMENT_ARRAY_BUFFER 0 64];
     textures := [(0, Some 5%nat); (3, None)];
     images := [(1, ImageBindParameters.Build_t (Some 6%nat) 0 0 false true false)] |}.

(** A change mask with every bit of every mask set. *)
Definition everyBit : StateDiff_t.t :=
  StateDiff_t.Build_t 255 255 255 15 2047 65535 255.

(** The storage-buffer mask with bit 2 set, everything else clear. *)
Definition storageBit2 : StateDiff_t.t :=
  StateDiff_t.with_ssbos StateDiff_t.empty 4.

(** A header whose binding limits are below the widths of the texture
    and image masks. *)
Definition tightLimits : Header :=
  {| SSBO_BITS := 8; UBO_BITS := 8; ACBO_BITS := 8; TFBO_BITS := 4;
     OTHER_BITS := 11; TEXTURE_BITS := 16; IMAGE_BITS := 8;
     getMaxTextureBindings := 8; getMaxImageBindings := 4;
     Binding.BufferBinding_ne := BufferBinding_ne;
     unboundBuffer := unboundBuffer header;
     Binding.ImageBindParameters_ne := ImageBindParameters_ne;
     unboundImage := unboundImage header |}.

(** The bits of [everyBit] that the loops of [apply] run over under
    [tightLimits]: the sentinel bit, the texture units from 8 and the
    image units from 4 are clear. *)
Definition everyReachedBit : StateDiff_t.t :=
  StateDiff_t.Build_t 255 255 255 15 1023 255 15.

(** A header whose texture binding limit exceeds the width of the
    texture mask. *)
Definition wideLimits : Header :=
  {| SSBO_BITS := 8; UBO_BITS := 8; ACBO_BITS := 8; TFBO_BITS := 4;
     OTHER_BITS := 11; TEXTURE_BITS := 16; IMAGE_BITS := 8;
     getMaxTextureBindings := 32; getMaxImageBindings := 8;
     Binding.BufferBinding_ne := BufferBinding_ne;
     unboundBuffer := unboundBuffer header;
     Binding.ImageBindParameters_ne := ImageBindParameters_ne;
     unboundImage := unboundImage header |}.

End Examples.

(** Narrowness of a header that is given by its widths. *)
Ltac concrete_narrow :=
  let c := fresh "c" in
  intros c; destruct c; vm_compute; intuition discriminate.

(** Well-formedness of a snapshot that is given by its entries. *)
Ltac concrete_wellFormed :=
  unfold Binding.wellFormed; split; [|split; [|split]];
  [ cbn; repeat constructor; cbn; intuition discriminate
  | intros k b I; cbn in I;
    repeat (destruct I as [I|I];
            [injection I as <- <-; vm_compute; intuition discriminate|]);
    contradiction
  | cbn; repeat constructor; cbn; intuition discriminate
  | cbn; repeat constructor; cbn; intuition discriminate ].

(** * Properties *)

Import Binding.

Unset Implicit Arguments.

(** ** The monad *)

Lemma bind_ret_l {A B} (a : A) (f : A -> M B) : bind (ret a) f = f a.
Proof.
  unfold bind, ret. destruct (f a) as [[b l]|]; reflexivity.
Qed.

Lemma bind_ret_r {A} (m : M A) : bind m (fun a => ret a) = m.
Proof.
  destruct m as [[a l]|]; simpl; [rewrite app_nil_r|]; reflexivity.
Qed.

Lemma bind_assoc {A B C} (m : M A) (f : A -> M B) (g : B -> M C) :
  bind (bind m f) g = bind m (fun a => bind (f a) g).
Proof.
  destruct m as [[a l]|]; simpl; [|reflexivity].
  destruct (f a) as [[b l']|]; simpl; [|reflexivity].
  destruct (g b) as [[c l'']|]; simpl; [|reflexivity].
  now rewrite app_assoc.
Qed.

Lemma bind_ext {A B} (m : M A) (f g : A -> M B) :
  (forall a, f a = g a) -> bind m f = bind m g.
Proof.
  intros E. destruct m as [[a l]|]; simpl; [rewrite E|]; reflexivity.
Qed.

Lemma forEach_ext {A S} (f g : S -> A -> M S) l :
  (forall s x, f s x = g s x) -> forall s, forEach f l s = forEach g l s.
Proof.
  intros E. induction l as [|x l IH]; intros s; simpl; [reflexivity|].
  rewrite E. now apply bind_ext.
Qed.

Lemma forEach_app {A S} (f : S -> A -> M S) l1 l2 s :
  forEach f (l1 ++ l2) s = bind (forEach f l1 s) (forEach f l2).
Proof.
  revert s. induction l1 as [|x l1 IH]; intros s.
  - symmetry. apply (bind_ret_l s (forEach f l2)).
  - cbn [forEach app]. rewrite bind_assoc. now apply bind_ext.
Qed.

Lemma forEach_map {A B S} (f : S -> B -> M S) (g : A -> B) l s :
  forEach f (map g l) s = forEach (fun s x => f s (g x)) l s.
Proof.
  revert s. induction l as [|x l IH]; intros s; simpl; [reflexivity|].
  now apply bind_ext.
Qed.

Lemma quiet_bind {A B} (m : M A) (f : A -> M B) :
  quiet (bind m f) = bind (quiet m) (fun a => quiet (f a)).
Proof.
  destruct m as [[a l]|]; simpl; [|reflexivity].
  destruct (f a) as [[b l']|]; simpl; [|reflexivity].
  unfold calls. now rewrite filter_app.
Qed.

Lemma quiet_forEach {A S} (f : S -> A -> M S) l s :
  quiet (forEach f l s) = forEach (fun s x => quiet (f s x)) l s.
Proof.
  revert s. induction l as [|x l IH]; intros s; simpl; [reflexivity|].
  rewrite quiet_bind. now apply bind_ext.
Qed.

Lemma quiet_Some {A} (m : M A) a cs :
  quiet m = Some (a, cs) -> exists log, m = Some (a, log) /\ calls log = cs.
Proof.
  destruct m as [[a' l]|]; simpl; [|discriminate].
  intros E. injection E as -> <-. now exists l.
Qed.

Lemma quiet_of_Some {A} (m : M A) a log :
  m = Some (a, log) -> quiet m = Some (a, calls log).
Proof. now intros ->. Qed.

(** ** Association lists *)

Lemma find_erase_eq {V} k (m : umap.t V) : umap.find k (umap.erase k m) = None.
Proof.
  induction m as [|[k' v] m IH]; simpl; [reflexivity|].
  destruct (k' =? k) eqn:E; simpl; [assumption|]. now rewrite E.
Qed.

Lemma find_erase_neq {V} k k' (m : umap.t V) :
  k' <> k -> umap.find k' (umap.erase k m) = umap.find k' m.
Proof.
  intros N. induction m as [|[k0 v] m IH]; simpl; [reflexivity|].
  destruct (k0 =? k) eqn:E; simpl.
  - apply Z.eqb_eq in E. subst k0.
    destruct (k =? k') eqn:E'; [apply Z.eqb_eq in E'; congruence|assumption].
  - destruct (k0 =? k'); [reflexivity|assumption].
Qed.

Lemma find_modify_eq {V} k f (m : umap.t V) :
  umap.find k (umap.modify k f m) = option_map f (umap.find k m).
Proof.
  induction m as [|[k0 v] m IH]; simpl; [reflexivity|].
  destruct (k0 =? k) eqn:E; simpl; rewrite E; [reflexivity|assumption].
Qed.

Lemma find_modify_neq {V} k k' f (m : umap.t V) :
  k' <> k -> umap.find k' (umap.modify k f m) = umap.find k' m.
Proof.
  intros N. induction m as [|[k0 v] m IH]; simpl; [reflexivity|].
  destruct (k0 =? k) eqn:E; simpl.
  - apply Z.eqb_eq in E. subst k0.
    destruct (k =? k') eqn:E'; [apply Z.eqb_eq in E'; congruence|reflexivity].
  - destruct (k0 =? k'); [reflexivity|assumption].
Qed.

Lemma modify_found {V} k (f g : V -> V) (m : umap.t V) v :
  umap.find k m = Some v -> f v = g v -> umap.modify k f m = umap.modify k g m.
Proof.
  induction m as [|[k0 v0] m IH]; simpl; [discriminate|].
  destruct (k0 =? k) eqn:E.
  - intros [= ->] ->. reflexivity.
  - intros F E'. now rewrite IH.
Qed.

Lemma modify_same {V} k (m : umap.t V) v :
  umap.find k m = Some v -> umap.modify k (fun _ => v) m = m.
Proof.
  induction m as [|[k0 v0] m IH]; simpl; [discriminate|].
  destruct (k0 =? k) eqn:E.
  - now intros [= ->].
  - intros F. now rewrite IH.
Qed.

Lemma find_In {V} k (m : umap.t V) v :
  umap.find k m = Some v -> In (k, v) m.
Proof.
  induction m as [|[k0 v0] m IH]; simpl; [discriminate|].
  destruct (k0 =? k) eqn:E.
  - apply Z.eqb_eq in E. intros [= ->]. left. now subst.
  - intros F. right. now apply IH.
Qed.

Lemma In_find {V} k (m : umap.t V) v :
  NoDup (umap.keys m) -> In (k, v) m -> umap.find k m = Some v.
Proof.
  induction m as [|[k0 v0] m IH]; simpl; [contradiction|].
  intros ND [E|I].
  - injection E as -> ->. now rewrite Z.eqb_refl.
  - inversion ND as [|? ? NI ND']; subst.
    destruct (k0 =? k) eqn:E.
    + apply Z.eqb_eq in E. subst k0. exfalso. apply NI.
      unfold umap.keys. change k with (fst (k, v)). now apply in_map.
    + now apply IH.
Qed.

Lemma In_erase {V} k (m : umap.t V) e :
  In e (umap.erase k m) <-> In e m /\ fst e <> k.
Proof.
  unfold umap.erase. rewrite filter_In, negb_true_iff, Z.eqb_neq. tauto.
Qed.

Lemma keys_erase_NoDup {V} k (m : umap.t V) :
  NoDup (umap.keys m) -> NoDup (umap.keys (umap.erase k m)).
Proof.
  induction m as [|[k0 v0] m IH]; simpl; intros ND; [constructor|].
  inversion ND as [|? ? NI ND']; subst.
  destruct (k0 =? k); simpl; [now apply IH|].
  constructor; [|now apply IH].
  intros I. apply NI. unfold umap.keys in *. apply in_map_iff in I.
  destruct I as [e [E I]]. apply In_erase in I. apply in_map_iff.
  exists e. tauto.
Qed.

Lemma keys_modify {V} k f (m : umap.t V) :
  umap.keys (umap.modify k f m) = umap.keys m.
Proof.
  induction m as [|[k0 v0] m IH]; simpl; [reflexivity|].
  destruct (k0 =? k); simpl; [reflexivity|]. now rewrite IH.
Qed.


Lemma flat_map_agree {A B} (f g : A -> list B) l :
  (forall x, In x l -> f x = g x) -> flat_map f l = flat_map g l.
Proof.
  induction l as [|x l IH]; intros E; simpl; [reflexivity|].
  rewrite E by now left. rewrite IH; [reflexivity|].
  intros y Iy. apply E. now right.
Qed.

(** ** [makeDiff] as a run of writes *)

Lemma Category_eqb_eq a b : Category_eqb a b = true <-> a = b.
Proof. destruct a, b; simpl; split; congruence. Qed.

Lemma Category_eqb_refl a : Category_eqb a a = true.
Proof. now destruct a. Qed.

Lemma maskOf_withMask c c' d x :
  maskOf c (withMask c' d x) = if Category_eqb c' c then x else maskOf c d.
Proof. destruct c, c'; reflexivity. Qed.

Lemma set_bits width bs pos val :
  bitset.in_range width pos = true ->
  exists bs', bitset.set width bs pos val = Some (bs', [])
    /\ forall i, Z.testbit bs' i = if pos =? i then val else Z.testbit bs i.
Proof.
  intros R. unfold bitset.set. rewrite R. eexists. split; [reflexivity|].
  unfold bitset.in_range in R. apply andb_true_iff in R.
  destruct R as [R _]. apply Z.leb_le in R. intros i.
  destruct val.
  - rewrite Z.setbit_eqb by assumption. now destruct (pos =? i).
  - rewrite Z.clearbit_eqb. destruct (pos =? i); simpl;
      [apply andb_false_r|apply andb_true_r].
Qed.

Lemma doWrite_bits H d w :
  inRange H w = true ->
  exists d', doWrite H d w = Some (d', [])
    /\ forall c i, Z.testbit (maskOf c d') i
                   = if hits w c i then w_val w else Z.testbit (maskOf c d) i.
Proof.
  intros R. unfold doWrite.
  destruct (set_bits _ (maskOf (w_cat w) d) _ (w_val w) R) as [bs [E B]].
  rewrite E. eexists. split; [reflexivity|].
  intros c i. rewrite maskOf_withMask. unfold hits.
  destruct (Category_eqb (w_cat w) c) eqn:C; simpl; [|reflexivity].
  apply Category_eqb_eq in C. subst c. apply B.
Qed.

Lemma doWrite_raises H d w : inRange H w = false -> doWrite H d w = None.
Proof.
  intros R. unfold doWrite, bitset.set. unfold inRange in R. now rewrite R.
Qed.

Lemma applyWrites_bits H ws : forall d,
  forallb (inRange H) ws = true ->
  exists d', applyWrites H ws d = Some (d', [])
    /\ forall c i, Z.testbit (maskOf c d') i
                   = match lastWrite c i ws with
                     | Some v => v
                     | None => Z.testbit (maskOf c d) i
                     end.
Proof.
  induction ws as [|w ws IH]; intros d R; simpl in *.
  - exists d. now split.
  - apply andb_true_iff in R. destruct R as [Rw R].
    destruct (doWrite_bits H d w Rw) as [d1 [E1 B1]].
    destruct (IH d1 R) as [d' [E' B']].
    exists d'. unfold applyWrites in *. simpl. rewrite E1. simpl. rewrite E'.
    split; [reflexivity|]. intros c i. rewrite B'.
    destruct (lastWrite c i ws); [reflexivity|]. rewrite B1.
    now destruct (hits w c i).
Qed.

Lemma applyWrites_returns H ws : forall d d' log,
  applyWrites H ws d = Some (d', log) -> forallb (inRange H) ws = true.
Proof.
  induction ws as [|w ws IH]; intros d d' log E; simpl in *; [reflexivity|].
  unfold applyWrites in E. simpl in E.
  destruct (inRange H w) eqn:R; simpl.
  - destruct (doWrite_bits H d w R) as [d1 [E1 _]]. rewrite E1 in E. simpl in E.
    destruct (forEach (doWrite H) ws d1) as [[d2 l2]|] eqn:E2; [|discriminate].
    eapply IH. exact E2.
  - now rewrite (doWrite_raises H d w R) in E.
Qed.

Lemma lastWrite_app c i ws1 ws2 :
  lastWrite c i (ws1 ++ ws2)
  = match lastWrite c i ws2 with
    | Some v => Some v
    | None => lastWrite c i ws1
    end.
Proof.
  induction ws1 as [|w ws1 IH]; simpl.
  - now destruct (lastWrite c i ws2).
  - rewrite IH. now destruct (lastWrite c i ws2).
Qed.

Lemma lastWrite_none c i ws :
  lastWrite c i ws = None <-> existsb (fun w => hits w c i) ws = false.
Proof.
  induction ws as [|w ws IH]; simpl; [tauto|].
  destruct (lastWrite c i ws).
  - split; [discriminate|]. intros E. apply orb_false_iff in E.
    destruct E as [_ E]. apply IH in E. discriminate.
  - destruct (hits w c i); simpl; [split; discriminate|]. tauto.
Qed.

Lemma lastWrite_In c i ws v :
  lastWrite c i ws = Some v ->
  exists w, In w ws /\ hits w c i = true /\ w_val w = v.
Proof.
  induction ws as [|w ws IH]; simpl; [discriminate|].
  destruct (lastWrite c i ws) as [v'|].
  - intros [= <-]. destruct (IH eq_refl) as [w' [I [Hh E]]].
    exists w'. auto.
  - destruct (hits w c i) eqn:Hh; [|discriminate].
    intros [= <-]. exists w. auto.
Qed.

(** When every write on a bit carries the same value, so does the last. *)
Lemma lastWrite_all c i ws v w0 :
  In w0 ws -> hits w0 c i = true ->
  (forall w, In w ws -> hits w c i = true -> w_val w = v) ->
  lastWrite c i ws = Some v.
Proof.
  intros I0 H0 A. destruct (lastWrite c i ws) as [v'|] eqn:E.
  - destruct (lastWrite_In _ _ _ _ E) as [w [I [Hh <-]]]. f_equal. now apply A.
  - apply lastWrite_none in E. 
    assert (X : existsb (fun w => hits w c i) ws = true)
      by (apply existsb_exists; exists w0; auto).
    congruence.
Qed.

(** The loop bodies of [makeDiff] are single writes; their only other
    effect is the diagnostic of [getBufferTargetBit]. *)
Lemma getBufferTargetBit_returns target :
  exists log, getBufferTargetBit target = Some (targetBit target, log)
              /\ calls log = [].
Proof.
  unfold targetBit, getBufferTargetBit.
  repeat match goal with
         | |- context [if ?c then _ else _] => destruct c
         end; simpl; eexists; split; reflexivity.
Qed.

Lemma diffBuffer_quiet H env peer forced d e :
  quiet (diffBuffer H env peer forced d e)
  = doWrite H d (bufferWrite H env peer forced e).
Proof.
  unfold diffBuffer, doWrite, bufferWrite, bufferBit, bufferCategory.
  cbn [w_cat w_bit w_val].
  destruct (target (snd e) =? GL_SHADER_STORAGE_BUFFER);
    [cbn [widthOf maskOf withMask]; unfold bitset.set;
     destruct (bitset.in_range _ _); reflexivity|].
  destruct (target (snd e) =? GL_UNIFORM_BUFFER);
    [cbn [widthOf maskOf withMask]; unfold bitset.set;
     destruct (bitset.in_range _ _); reflexivity|].
  destruct (target (snd e) =? GL_ATOMIC_COUNTER_BUFFER);
    [cbn [widthOf maskOf withMask]; unfold bitset.set;
     destruct (bitset.in_range _ _); reflexivity|].
  destruct (target (snd e) =? GL_TRANSFORM_FEEDBACK_BUFFER);
    [cbn [widthOf maskOf withMask]; unfold bitset.set;
     destruct (bitset.in_range _ _); reflexivity|].
  cbn [widthOf maskOf withMask].
  destruct (getBufferTargetBit_returns (target (snd e))) as [log [E C]].
  rewrite E. unfold bitset.set, bind at 1. cbn beta iota.
  destruct (bitset.in_range (OTHER_BITS H) (targetBit (target (snd e))));
    simpl; [|reflexivity].
  unfold calls in *. rewrite filter_app, C. reflexivity.
Qed.

Lemma diffTexture_quiet H peer forced d e :
  quiet (diffTexture H peer forced d e)
  = doWrite H d (textureWrite peer forced e).
Proof.
  unfold diffTexture, doWrite, textureWrite, bitset.set. simpl.
  destruct (bitset.in_range (TEXTURE_BITS H) (fst e)); reflexivity.
Qed.

Lemma diffImage_quiet H peer forced d e :
  quiet (diffImage H peer forced d e)
  = doWrite H d (imageWrite H peer forced e).
Proof.
  unfold diffImage, doWrite, imageWrite, bitset.set. simpl.
  destruct (bitset.in_range (IMAGE_BITS H) (fst e)); reflexivity.
Qed.

Lemma diffBuffers_quiet H env peer forced l d :
  quiet (forEach (diffBuffer H env peer forced) l d)
  = applyWrites H (map (bufferWrite H env peer forced) l) d.
Proof.
  rewrite quiet_forEach. unfold applyWrites. rewrite forEach_map.
  apply forEach_ext. intros. apply diffBuffer_quiet.
Qed.

Lemma diffTextures_quiet H peer forced l d :
  quiet (forEach (diffTexture H peer forced) l d)
  = applyWrites H (map (textureWrite peer forced) l) d.
Proof.
  rewrite quiet_forEach. unfold applyWrites. rewrite forEach_map.
  apply forEach_ext. intros. apply diffTexture_quiet.
Qed.

Lemma diffImages_quiet H peer forced l d :
  quiet (forEach (diffImage H peer forced) l d)
  = applyWrites H (map (imageWrite H peer forced) l) d.
Proof.
  rewrite quiet_forEach. unfold applyWrites. rewrite forEach_map.
  apply forEach_ext. intros. apply diffImage_quiet.
Qed.

Lemma applyWrites_app H ws1 ws2 d :
  applyWrites H (ws1 ++ ws2) d
  = bind (applyWrites H ws1 d) (applyWrites H ws2).
Proof. apply forEach_app. Qed.

Lemma makeDiff_quiet H env this target forced :
  quiet (makeDiff H env this target forced)
  = applyWrites H (allWrites H env this target forced) StateDiff_t.empty.
Proof.
  unfold makeDiff, allWrites.
  rewrite quiet_bind, applyWrites_app, diffBuffers_quiet.
  apply bind_ext. intros d1.
  rewrite quiet_bind, applyWrites_app, diffBuffers_quiet.
  apply bind_ext. intros d2.
  rewrite quiet_bind, applyWrites_app, diffTextures_quiet.
  apply bind_ext. intros d3.
  rewrite quiet_bind, applyWrites_app, diffTextures_quiet.
  apply bind_ext. intros d4.
  rewrite quiet_bind, applyWrites_app, diffImages_quiet.
  apply bind_ext. intros d5.
  rewrite quiet_bind, diffImages_quiet. apply bind_ret_r.
Qed.

Lemma scanKeys_quiet H env self peer forced :
  quiet (scanKeys H env self peer forced)
  = applyWrites H (writesOf H env self peer forced) StateDiff_t.empty.
Proof.
  unfold scanKeys, writesOf.
  rewrite quiet_bind, applyWrites_app, diffBuffers_quiet.
  apply bind_ext. intros d1.
  rewrite quiet_bind, applyWrites_app, diffTextures_quiet.
  apply bind_ext. intros d2.
  rewrite quiet_bind, diffImages_quiet. apply bind_ret_r.
Qed.

(** ** The two-sided scan of [makeDiff] *)

Lemma forallb_map_eq {A B} (f : B -> bool) (g : A -> B) l :
  forallb f (map g l) = forallb (fun x => f (g x)) l.
Proof.
  induction l as [|x l IH]; simpl; [reflexivity|]. now rewrite IH.
Qed.

Lemma existsb_map_eq {A B} (f : B -> bool) (g : A -> B) l :
  existsb f (map g l) = existsb (fun x => f (g x)) l.
Proof.
  induction l as [|x l IH]; simpl; [reflexivity|]. now rewrite IH.
Qed.

Lemma inRange_writesOf H env self peer forced :
  forallb (inRange H) (writesOf H env self peer forced) = fits H env self.
Proof.
  unfold fits, writesOf. rewrite !forallb_app, !forallb_map_eq. reflexivity.
Qed.

Lemma inRange_allWrites H env this target forced :
  forallb (inRange H) (allWrites H env this target forced)
  = fits H env this && fits H env target.
Proof.
  unfold fits, writesOf, allWrites, inRange.
  rewrite !forallb_app, !forallb_map_eq. cbn [w_cat w_bit bufferWrite textureWrite imageWrite].
  repeat match goal with
         | |- context [forallb ?f ?l] =>
             let x := fresh "x" in set (x := forallb f l)
         end.
  repeat match goal with x : bool |- _ => destruct x end; reflexivity.
Qed.

Lemma hits_writesOf H env self peer forced c i :
  existsb (fun w => hits w c i) (writesOf H env self peer forced)
  = wrote H env self c i.
Proof.
  unfold wrote, writesOf. rewrite !existsb_app, !existsb_map_eq. reflexivity.
Qed.

Lemma lastWrite_elsewhere c i ws :
  (forall w, In w ws -> Category_eqb (w_cat w) c = false) ->
  lastWrite c i ws = None.
Proof.
  intros A. apply lastWrite_none. apply not_true_is_false. intros E.
  apply existsb_exists in E. destruct E as [w [I Hh]].
  unfold hits in Hh. rewrite (A w I) in Hh. discriminate.
Qed.

Lemma bufferCategory_isBuffer t : isBufferCategory (bufferCategory t) = true.
Proof.
  unfold bufferCategory.
  repeat match goal with
         | |- context [if ?c then _ else _] => destruct c
         end; reflexivity.
Qed.

Lemma lastWrite_buffers H env peer forced l c i :
  isBufferCategory c = false ->
  lastWrite c i (map (bufferWrite H env peer forced) l) = None.
Proof.
  intros N. apply lastWrite_elsewhere. intros w I.
  apply in_map_iff in I. destruct I as [e [<- _]]. simpl.
  pose proof (bufferCategory_isBuffer (target (snd e))) as B.
  destruct (bufferCategory (target (snd e))), c; simpl in *; congruence.
Qed.

Lemma lastWrite_textures peer forced l c i :
  c <> TEXTURE -> lastWrite c i (map (textureWrite peer forced) l) = None.
Proof.
  intros N. apply lastWrite_elsewhere. intros w I.
  apply in_map_iff in I. destruct I as [e [<- _]]. simpl.
  destruct c; simpl; congruence.
Qed.

Lemma lastWrite_images H peer forced l c i :
  c <> IMAGE -> lastWrite c i (map (imageWrite H peer forced) l) = None.
Proof.
  intros N. apply lastWrite_elsewhere. intros w I.
  apply in_map_iff in I. destruct I as [e [<- _]]. simpl.
  destruct c; simpl; congruence.
Qed.

(** The last write of [makeDiff] on a bit is the last write of the scan
    over the target, or else the last write of the scan over [this]. *)
Lemma lastWrite_allWrites H env this target forced c i :
  lastWrite c i (allWrites H env this target forced)
  = match lastWrite c i (writesOf H env target this forced) with
    | Some v => Some v
    | None => lastWrite c i (writesOf H env this target forced)
    end.
Proof.
  unfold allWrites, writesOf. rewrite !lastWrite_app.
  destruct c;
    repeat (rewrite !lastWrite_buffers by reflexivity);
    repeat (rewrite !lastWrite_textures by discriminate);
    repeat (rewrite !lastWrite_images by discriminate);
    repeat match goal with
           | |- context [match lastWrite ?c ?i ?l with _ => _ end] =>
               destruct (lastWrite c i l)
           end; reflexivity.
Qed.

Lemma makeDiff_returns H env this target forced :
  fits H env this = true -> fits H env target = true ->
  exists d log,
    makeDiff H env this target forced = Some (d, log)
    /\ calls log = []
    /\ forall c i, Z.testbit (maskOf c d) i
                   = match lastWrite c i (allWrites H env this target forced) with
                     | Some v => v
                     | None => false
                     end.
Proof.
  intros F1 F2.
  destruct (applyWrites_bits H (allWrites H env this target forced)
              StateDiff_t.empty) as [d [E B]].
  { rewrite inRange_allWrites, F1, F2. reflexivity. }
  rewrite <- makeDiff_quiet in E. apply quiet_Some in E.
  destruct E as [log [E C]]. exists d, log. repeat split; try assumption.
  intros c i. rewrite B. destruct (lastWrite c i _); [reflexivity|].
  destruct c; apply Z.testbit_0_l.
Qed.

(** Conversely, [makeDiff] returns only when every slot index lies within
    its mask. *)
Lemma makeDiff_fits H env this target forced d log :
  makeDiff H env this target forced = Some (d, log) ->
  fits H env this = true /\ fits H env target = true.
Proof.
  intros E. apply quiet_of_Some in E. rewrite makeDiff_quiet in E.
  apply applyWrites_returns in E. rewrite inRange_allWrites in E.
  now apply andb_true_iff in E.
Qed.

Lemma scanKeys_returns H env self peer forced :
  fits H env self = true ->
  exists d log,
    scanKeys H env self peer forced = Some (d, log)
    /\ forall c i, Z.testbit (maskOf c d) i
                   = match lastWrite c i (writesOf H env self peer forced) with
                     | Some v => v
                     | None => false
                     end.
Proof.
  intros F.
  destruct (applyWrites_bits H (writesOf H env self peer forced)
              StateDiff_t.empty) as [d [E B]].
  { now rewrite inRange_writesOf. }
  rewrite <- scanKeys_quiet in E. apply quiet_Some in E.
  destruct E as [log [E C]]. exists d, log. split; [assumption|].
  intros c i. rewrite B. destruct (lastWrite c i _); [reflexivity|].
  destruct c; apply Z.testbit_0_l.
Qed.

Lemma StateDiff_ext (a b : StateDiff_t.t) :
  (forall c i, Z.testbit (maskOf c a) i = Z.testbit (maskOf c b) i) -> a = b.
Proof.
  intros E. destruct a, b.
  pose proof (E SSBO) as E1. pose proof (E UBO) as E2.
  pose proof (E ACBO) as E3. pose proof (E TFBO) as E4.
  pose proof (E OTHER) as E5. pose proof (E TEXTURE) as E6.
  pose proof (E IMAGE) as E7. simpl in *.
  f_equal; apply Z.bits_inj'; intros; auto.
Qed.

Lemma maskOf_union c a b : maskOf c (union a b) = Z.lor (maskOf c a) (maskOf c b).
Proof. destruct c; reflexivity. Qed.

(** C1 (as amended).  When every slot index of the two snapshots lies
    within its mask, [makeDiff] returns, and so do the scan over the keys
    of the current snapshot and the scan over the keys of the target; the
    change mask is the former overwritten by the latter: a bit that the
    target scan writes holds the value of the target scan (a bit set
    while scanning current is cleared when the target scan writes false
    there), any other bit holds the value of the scan over current.
    Hence every set bit of the mask is set in the union of the two scans,
    and in forced mode the mask is that union. *)
Theorem makeDiff_target_scan_overwrites H env current target forced :
  fits H env current = true ->
  fits H env target = true ->
  exists d log dc logc dt logt,
    makeDiff H env current target forced = Some (d, log)
    /\ scanKeys H env current target forced = Some (dc, logc)
    /\ scanKeys H env target current forced = Some (dt, logt)
    /\ (forall c i,
          Z.testbit (maskOf c d) i
          = if wrote H env target c i
            then Z.testbit (maskOf c dt) i
            else Z.testbit (maskOf c dc) i)
    /\ (forall c i,
          Z.testbit (maskOf c d) i = true ->
          Z.testbit (maskOf c (union dc dt)) i = true)
    /\ (forced = true -> d = union dc dt).
Proof.
  intros Fc Ft.
  destruct (makeDiff_returns H env current target forced Fc Ft)
    as [d [log [E [_ B]]]].
  destruct (scanKeys_returns H env current target forced Fc) as [dc [logc [Ec Bc]]].
  destruct (scanKeys_returns H env target current forced Ft) as [dt [logt [Et Bt]]].
  exists d, log, dc, logc, dt, logt.
  assert (K : forall c i,
             Z.testbit (maskOf c d) i
             = if wrote H env target c i
               then Z.testbit (maskOf c dt) i
               else Z.testbit (maskOf c dc) i).
  { intros c i. rewrite B, Bt, Bc, lastWrite_allWrites.
    rewrite <- (hits_writesOf H env target current forced).
    destruct (lastWrite c i (writesOf H env target current forced)) eqn:L.
    - destruct (existsb _ _) eqn:X; [reflexivity|].
      apply lastWrite_none in X. congruence.
    - apply lastWrite_none in L. now rewrite L. }
  repeat split; try assumption.
  - intros c i T. rewrite maskOf_union, Z.lor_spec. rewrite K in T.
    destruct (wrote H env target c i); rewrite T;
      [apply orb_true_r|reflexivity].
  - intros ->. apply StateDiff_ext. intros c i.
    rewrite maskOf_union, Z.lor_spec, K.
    rewrite <- (hits_writesOf H env target current true).
    rewrite Bt.
    destruct (lastWrite c i (writesOf H env target current true)) eqn:L.
    + assert (X : existsb (fun w => hits w c i)
                    (writesOf H env target current true) = true).
      { destruct (existsb _ _) eqn:X; [reflexivity|].
        apply lastWrite_none in X. congruence. }
      rewrite X. apply lastWrite_In in L. destruct L as [w [I [_ V]]].
      assert (b = true) as ->.
      { rewrite <- V. unfold writesOf in I.
        repeat (apply in_app_or in I; destruct I as [I|I]);
          apply in_map_iff in I; destruct I as [e [<- _]]; reflexivity. }
      now rewrite orb_true_r.
    + apply lastWrite_none in L. rewrite L. now rewrite orb_false_r.
Qed.

Lemma makeDiff_target_scan_overwrites_witness :
  exists d log dc logc dt logt,
    makeDiff Examples.header Examples.env Examples.twoArrayBuffers
      Examples.oneArrayBuffer false = Some (d, log)
    /\ scanKeys Examples.header Examples.env Examples.twoArrayBuffers
         Examples.oneArrayBuffer false = Some (dc, logc)
    /\ scanKeys Examples.header Examples.env Examples.oneArrayBuffer
         Examples.twoArrayBuffers false = Some (dt, logt)
    /\ (forall c i,
          Z.testbit (maskOf c d) i
          = if wrote Examples.header Examples.env Examples.oneArrayBuffer c i
            then Z.testbit (maskOf c dt) i
            else Z.testbit (maskOf c dc) i)
    /\ (forall c i,
          Z.testbit (maskOf c d) i = true ->
          Z.testbit (maskOf c (union dc dt)) i = true)
    /\ (false = true -> d = union dc dt).
Proof.
  apply (makeDiff_target_scan_overwrites Examples.header Examples.env
           Examples.twoArrayBuffers Examples.oneArrayBuffer false);
    reflexivity.
Defined.

(** C1 (as stated) fails: with array buffers at locations 0 and 1 in the
    current snapshot and only the first of them, unchanged, in the
    target, the scan over current sets bit 0 of the shared mask, the scan
    over the target clears it, and the change mask is not the union. *)
Lemma makeDiff_not_union :
  makeDiff Examples.header Examples.env Examples.twoArrayBuffers
    Examples.oneArrayBuffer false = Some (StateDiff_t.empty, [])
  /\ scanKeys Examples.header Examples.env Examples.twoArrayBuffers
       Examples.oneArrayBuffer false
     = Some (StateDiff_t.with_other StateDiff_t.empty 1, [])
  /\ scanKeys Examples.header Examples.env Examples.oneArrayBuffer
       Examples.twoArrayBuffers false = Some (StateDiff_t.empty, [])
  /\ StateDiff_t.empty
     <> union (StateDiff_t.with_other StateDiff_t.empty 1) StateDiff_t.empty.
Proof.
  repeat split; try reflexivity. discriminate.
Qed.

(** ** [apply] as a run of visits *)

Section VisitFacts.

Variables V I : Type.
Variable keyOf : I -> Z.
Variable live : I -> V -> option (Event * V).
Variable dead : I -> Event.

Let visit := visit keyOf live dead.
Let eventsAt := eventsAt keyOf live dead.
Let afterVisit := afterVisit live.

Lemma visit_spec m i :
  exists m',
    visit m i = Some (m', eventsAt m i)
    /\ umap.find (keyOf i) m' = afterVisit i (umap.find (keyOf i) m)
    /\ (forall k, k <> keyOf i -> umap.find k m' = umap.find k m)
    /\ (NoDup (umap.keys m) -> NoDup (umap.keys m')).
Proof.
  unfold visit, eventsAt, afterVisit, Binding.visit, Binding.eventsAt,
    Binding.afterVisit.
  destruct (umap.find (keyOf i) m) as [v|] eqn:F.
  - destruct (live i v) as [[e v']|] eqn:L.
    + eexists. split; [reflexivity|]. repeat split.
      * rewrite find_modify_eq, F. reflexivity.
      * intros k N. now apply find_modify_neq.
      * now rewrite keys_modify.
    + eexists. split; [reflexivity|]. repeat split.
      * apply find_erase_eq.
      * intros k N. now apply find_erase_neq.
      * apply keys_erase_NoDup.
  - exists m. repeat split; auto.
Qed.

Lemma visits_spec vs : forall m,
  NoDup (map keyOf vs) ->
  exists m',
    forEach visit vs m = Some (m', flat_map (eventsAt m) vs)
    /\ (forall i, In i vs ->
          umap.find (keyOf i) m' = afterVisit i (umap.find (keyOf i) m))
    /\ (forall k, ~ In k (map keyOf vs) -> umap.find k m' = umap.find k m)
    /\ (NoDup (umap.keys m) -> NoDup (umap.keys m')).
Proof.
  induction vs as [|i vs IH]; intros m ND.
  - exists m. repeat split; auto. intros i [].
  - inversion ND as [|? ? NI ND']; subst.
    destruct (visit_spec m i) as [m1 [E1 [A1 [O1 K1]]]].
    destruct (IH m1 ND') as [m' [E' [A' [O' K']]]].
    exists m'. cbn [forEach flat_map]. rewrite E1. cbn [bind]. rewrite E'.
    assert (X : flat_map (eventsAt m1) vs = flat_map (eventsAt m) vs).
    { apply flat_map_agree. intros j Ij.
      unfold eventsAt, Binding.eventsAt. rewrite O1; [reflexivity|].
      intros E. apply NI. rewrite <- E. now apply in_map. }
    rewrite X. split; [reflexivity|]. repeat split.
    + intros j [<-|Ij].
      * rewrite O' by assumption. apply A1.
      * rewrite A' by assumption. rewrite O1; [reflexivity|].
        intros E. apply NI. rewrite <- E. now apply in_map.
    + intros k N. simpl in N. rewrite O' by tauto. apply O1.
      intros E. apply N. now left.
    + intros N. auto.
Qed.

End VisitFacts.

Lemma In_upTo n i : In i (upTo n) <-> 0 <= i < n.
Proof.
  unfold upTo. rewrite in_map_iff. split.
  - intros [k [<- I]]. apply in_seq in I. lia.
  - intros R. exists (Z.to_nat i). split; [lia|]. apply in_seq. lia.
Qed.

Lemma In_setBits mask n i :
  In i (setBits mask n) <-> 0 <= i < n /\ Z.testbit mask i = true.
Proof. unfold setBits. now rewrite filter_In, In_upTo. Qed.

(** The guarded loop of a pass visits exactly the set bits. *)
Lemma pass_spec {S} (f : S -> Z -> M S) width mask l : forall s,
  (forall i, In i l -> 0 <= i < width) ->
  forEach (fun s i =>
             set <- bitset.test width mask i ;;
             if set : bool then f s i else ret s) l s
  = forEach f (filter (Z.testbit mask) l) s.
Proof.
  induction l as [|i l IH]; intros s R; [reflexivity|].
  cbn [forEach filter].
  assert (T : bitset.test width mask i = ret (Z.testbit mask i)).
  { unfold bitset.test, bitset.in_range.
    destruct (R i (or_introl eq_refl)) as [R1 R2].
    apply Z.leb_le in R1. apply Z.ltb_lt in R2. now rewrite R1, R2. }
  rewrite T, bind_ret_l.
  destruct (Z.testbit mask i).
  - cbn [forEach]. apply bind_ext. intros s'. apply IH.
    intros j Ij. apply R. now right.
  - rewrite bind_ret_l. apply IH. intros j Ij. apply R. now right.
Qed.

Lemma setBits_zero n : setBits 0 n = [].
Proof.
  unfold setBits. induction (upTo n) as [|i l IH]; [reflexivity|].
  simpl. now rewrite Z.testbit_0_l.
Qed.

Lemma quiet_probe : quiet (emit GET_GL_ERROR) = ret tt.
Proof. reflexivity. Qed.

Lemma bind_probe {A} (m : M A) :
  bind m (fun a => quiet (emit GET_GL_ERROR ;;; ret a)) = m.
Proof.
  transitivity (bind m (fun a => ret a)); [|apply bind_ret_r].
  apply bind_ext. reflexivity.
Qed.

Lemma bindOrRemoveBuffer_visit env m t l :
  bindOrRemoveBuffer env m t l
  = visit bufferKey (bufferLive env) bufferDead m (t, l).
Proof.
  unfold bindOrRemoveBuffer, visit, bufferKey, bufferLive, bufferDead.
  cbn [fst snd].
  destruct (umap.find (packKey t l) m) as [b|] eqn:F; [|reflexivity].
  destruct (buffer b) as [obj|] eqn:B; [|reflexivity].
  unfold refreshed.
  rewrite (modify_found (packKey t l)
             (fun b0 => Build_BufferBinding (buffer b0) (target b0)
                          (location b0)
                          (getOffset (bufferObject env obj))
                          (getSize (bufferObject env obj)))
             (fun _ => Build_BufferBinding (buffer b) (target b) (location b)
                         (getOffset (bufferObject env obj))
                         (getSize (bufferObject env obj))) m b F eq_refl).
  reflexivity.
Qed.

Lemma applyBuffers_quiet env width mask count targetOf locationOf m :
  count <= width ->
  quiet (applyBuffers env width mask count targetOf locationOf m)
  = quiet (forEach (visit bufferKey (bufferLive env) bufferDead)
             (map (fun i => (targetOf i, locationOf i)) (setBits mask count)) m).
Proof.
  intros W. unfold applyBuffers, bitset.any.
  destruct (mask =? 0) eqn:Z0; cbn [negb].
  - apply Z.eqb_eq in Z0. subst mask. now rewrite setBits_zero.
  - rewrite pass_spec by (intros i Ii; apply In_upTo in Ii; lia).
    rewrite quiet_bind. rewrite forEach_map.
    erewrite (forEach_ext _ (fun s x => visit bufferKey (bufferLive env) bufferDead s (targetOf x, locationOf x)))
      by (intros; apply bindOrRemoveBuffer_visit).
    fold (setBits mask count). apply bind_probe.
Qed.

Lemma applyTextures_quiet H env mask m :
  getMaxTextureBindings H <= TEXTURE_BITS H ->
  quiet (applyTextures H env mask m)
  = quiet (forEach (visit (fun i => i) (textureLive env) textureDead)
             (setBits mask (getMaxTextureBindings H)) m).
Proof.
  intros W. unfold applyTextures, bitset.any.
  destruct (mask =? 0) eqn:Z0; cbn [negb].
  - apply Z.eqb_eq in Z0. subst mask. now rewrite setBits_zero.
  - rewrite (pass_spec
               (fun texs i =>
                  match umap.find i texs with
                  | Some (Some tex) =>
                      emit (glBindTextureUnit i (getGLId (textureObject env tex))) ;;;
                      ret texs
                  | Some None =>
                      emit (glBindTextureUnit i 0) ;;; ret (umap.erase i texs)
                  | None => ret texs
                  end))
      by (intros i Ii; apply In_upTo in Ii; lia).
    rewrite quiet_bind. fold (setBits mask (getMaxTextureBindings H)).
    erewrite (forEach_ext _ (visit (fun i => i) (textureLive env) textureDead)).
    + apply bind_probe.
    + intros s i. unfold visit, textureLive, textureDead, Reference in *.
      cbn beta.
      destruct (umap.find i s) as [[tex|]|] eqn:F; try reflexivity.
      now rewrite (modify_same _ _ _ F).
Qed.

Lemma applyImages_quiet H env mask m :
  getMaxImageBindings H <= IMAGE_BITS H ->
  quiet (applyImages H env mask m)
  = quiet (forEach (visit (fun i => i) (imageLive env) imageDead)
             (setBits mask (getMaxImageBindings H)) m).
Proof.
  intros W. unfold applyImages, bitset.any.
  destruct (mask =? 0) eqn:Z0; cbn [negb].
  - apply Z.eqb_eq in Z0. subst mask. now rewrite setBits_zero.
  - rewrite (pass_spec
               (fun imgs i =>
                  match umap.find i imgs with
                  | Some p =>
                      match ImageBindParameters.getTexture p with
                      | Some tex =>
                          emit (glBindImageTexture i
                                  (getGLId (textureObject env tex))
                                  (ImageBindParameters.getLevel p)
                                  (if ImageBindParameters.getMultiLayer p
                                   then GL_TRUE else GL_FALSE)
                                  (ImageBindParameters.getLayer p)
                                  (getImageAccess p)
                                  (convertImageFormat (textureObject env tex))) ;;;
                          ret imgs
                      | None =>
                          emit (glBindImageTexture i 0 0 GL_FALSE 0
                                  GL_READ_WRITE GL_RGBA32F) ;;;
                          ret (umap.erase i imgs)
                      end
                  | None => ret imgs
                  end))
      by (intros i Ii; apply In_upTo in Ii; lia).
    rewrite quiet_bind. fold (setBits mask (getMaxImageBindings H)).
    erewrite (forEach_ext _ (visit (fun i => i) (imageLive env) imageDead)).
    + apply bind_probe.
    + intros s i. unfold visit, imageLive, imageDead. cbn beta.
      destruct (umap.find i s) as [p|] eqn:F; try reflexivity.
      destruct (ImageBindParameters.getTexture p) as [tex|]; try reflexivity.
      now rewrite (modify_same _ _ _ F).
Qed.

Lemma quiet_forEach_app {A S} (f : S -> A -> M S) l1 l2 s :
  quiet (forEach f (l1 ++ l2) s)
  = bind (quiet (forEach f l1 s)) (fun s' => quiet (forEach f l2 s')).
Proof. now rewrite forEach_app, quiet_bind. Qed.

(** [apply], up to its error probes, visits the buffer keys of the five
    buffer passes, then the texture units, then the image units. *)
Lemma apply_quiet H env s d :
  consistent H ->
  quiet (apply H env s d)
  = (bufs <- quiet (forEach (visit bufferKey (bufferLive env) bufferDead)
                      (bufferVisits H d) (buffers s)) ;;
     texs <- quiet (forEach (visit (fun i => i) (textureLive env) textureDead)
                      (textureVisits H d) (textures s)) ;;
     imgs <- quiet (forEach (visit (fun i => i) (imageLive env) imageDead)
                      (imageVisits H d) (images s)) ;;
     ret (Build_BindingState bufs texs imgs)).
Proof.
  intros [CO [CT CI]]. unfold apply, bufferVisits.
  rewrite quiet_bind, quiet_probe, bind_ret_l.
  rewrite quiet_bind, applyBuffers_quiet by lia.
  rewrite quiet_forEach_app, bind_assoc. apply bind_ext. intros b1.
  rewrite quiet_bind, applyBuffers_quiet by lia.
  rewrite quiet_forEach_app, bind_assoc. apply bind_ext. intros b2.
  rewrite quiet_bind, applyBuffers_quiet by lia.
  rewrite quiet_forEach_app, bind_assoc. apply bind_ext. intros b3.
  rewrite quiet_bind, applyBuffers_quiet by lia.
  rewrite quiet_forEach_app, bind_assoc. apply bind_ext. intros b4.
  rewrite quiet_bind, applyBuffers_quiet by lia. apply bind_ext. intros b5.
  rewrite quiet_bind, applyTextures_quiet by lia. apply bind_ext. intros t.
  rewrite quiet_bind, applyImages_quiet by lia. apply bind_ext. intros i.
  reflexivity.
Qed.

(** ** The binding points that [apply] visits *)

Lemma SS_app {A} (R : A -> A -> Prop) l1 l2 :
  StronglySorted R l1 -> StronglySorted R l2 ->
  (forall x y, In x l1 -> In y l2 -> R x y) ->
  StronglySorted R (l1 ++ l2).
Proof.
  induction l1 as [|a l1 IH]; intros S1 S2 X; simpl; [assumption|].
  apply StronglySorted_inv in S1. destruct S1 as [S1 F1].
  constructor.
  - apply IH; try assumption. intros x y Ix Iy. apply X; [now right|assumption].
  - apply Forall_app. split; [assumption|].
    apply Forall_forall. intros y Iy. apply X; [now left|assumption].
Qed.

Lemma SS_map {A B} (R : B -> B -> Prop) (f : A -> B) l :
  StronglySorted (fun a b => R (f a) (f b)) l -> StronglySorted R (map f l).
Proof.
  induction 1 as [|a l S IH F]; simpl; constructor; [assumption|].
  apply Forall_map. exact F.
Qed.

Lemma SS_filter {A} (R : A -> A -> Prop) (p : A -> bool) l :
  StronglySorted R l -> StronglySorted R (filter p l).
Proof.
  induction 1 as [|a l S IH F]; simpl; [constructor|].
  destruct (p a); [|assumption]. constructor; [assumption|].
  apply Forall_forall. intros x Ix. apply filter_In in Ix.
  rewrite Forall_forall in F. now apply F.
Qed.

Lemma SS_weaken {A} (R R' : A -> A -> Prop) l :
  (forall a b, In a l -> In b l -> R a b -> R' a b) ->
  StronglySorted R l -> StronglySorted R' l.
Proof.
  intros W S. induction S as [|a l S IH F]; constructor.
  - apply IH. intros x y Ix Iy. apply W; now right.
  - rewrite Forall_forall in *. intros x Ix. apply W; [now left|now right|].
    now apply F.
Qed.

Lemma SS_NoDup {A} (R : A -> A -> Prop) l :
  (forall a, ~ R a a) -> StronglySorted R l -> NoDup l.
Proof.
  intros Irr S. induction S as [|a l S IH F]; constructor; [|assumption].
  intros I. rewrite Forall_forall in F. exact (Irr a (F a I)).
Qed.

Lemma SS_seq a k : StronglySorted lt (seq a k).
Proof.
  revert a. induction k as [|k IH]; intros a; simpl; constructor.
  - apply IH.
  - apply Forall_forall. intros x Ix. apply in_seq in Ix. lia.
Qed.

Lemma SS_upTo n : StronglySorted Z.lt (upTo n).
Proof.
  unfold upTo. apply SS_map.
  apply (SS_weaken lt); [|apply SS_seq]. intros a b _ _ L. lia.
Qed.

Lemma SS_setBits mask n : StronglySorted Z.lt (setBits mask n).
Proof. apply SS_filter, SS_upTo. Qed.

Lemma flat_map_map {A B C} (f : B -> list C) (g : A -> B) l :
  flat_map f (map g l) = flat_map (fun x => f (g x)) l.
Proof.
  induction l as [|x l IH]; simpl; [reflexivity|]. now rewrite IH.
Qed.

(** *** The shared mask: bits and targets *)

Lemma targetBit_fromBit i :
  0 <= i < 10 ->
  targetBit (getBufferTargetFromBit i) = i
  /\ recognised (getBufferTargetFromBit i) = true
  /\ bufferCategory (getBufferTargetFromBit i) = OTHER.
Proof.
  intros R.
  assert (E : i = 0 \/ i = 1 \/ i = 2 \/ i = 3 \/ i = 4 \/ i = 5 \/ i = 6
              \/ i = 7 \/ i = 8 \/ i = 9) by lia.
  repeat (destruct E as [->|E]; [now vm_compute|]). subst. now vm_compute.
Qed.

Lemma fromBit_targetBit t :
  recognised t = true ->
  getBufferTargetFromBit (targetBit t) = t /\ 0 <= targetBit t < 10.
Proof.
  unfold recognised, targetBit, getBufferTargetBit.
  repeat match goal with
         | |- context [if ?x =? ?c then _ else _] =>
             destruct (Z.eqb_spec x c);
             [subst; intros _; split; [reflexivity|simpl; lia]|]
         end.
  simpl. discriminate.
Qed.

Lemma fromBit_range i : 0 <= getBufferTargetFromBit i < 2 ^ 32.
Proof.
  unfold getBufferTargetFromBit.
  repeat match goal with
         | |- context [if ?c then _ else _] => destruct c
         end; now vm_compute.
Qed.

Lemma fromBit_category i : bufferCategory (getBufferTargetFromBit i) = OTHER.
Proof.
  unfold getBufferTargetFromBit.
  repeat match goal with
         | |- context [if ?c then _ else _] => destruct c
         end; now vm_compute.
Qed.

Lemma bufferCategory_cases t :
  (t = GL_SHADER_STORAGE_BUFFER /\ bufferCategory t = SSBO)
  \/ (t = GL_UNIFORM_BUFFER /\ bufferCategory t = UBO)
  \/ (t = GL_ATOMIC_COUNTER_BUFFER /\ bufferCategory t = ACBO)
  \/ (t = GL_TRANSFORM_FEEDBACK_BUFFER /\ bufferCategory t = TFBO)
  \/ (t <> GL_SHADER_STORAGE_BUFFER /\ t <> GL_UNIFORM_BUFFER
      /\ t <> GL_ATOMIC_COUNTER_BUFFER /\ t <> GL_TRANSFORM_FEEDBACK_BUFFER
      /\ bufferCategory t = OTHER).
Proof.
  unfold bufferCategory.
  destruct (Z.eqb_spec t GL_SHADER_STORAGE_BUFFER); [subst; now left|].
  destruct (Z.eqb_spec t GL_UNIFORM_BUFFER); [subst; right; now left|].
  destruct (Z.eqb_spec t GL_ATOMIC_COUNTER_BUFFER);
    [subst; right; right; now left|].
  destruct (Z.eqb_spec t GL_TRANSFORM_FEEDBACK_BUFFER);
    [subst; right; right; right; now left|].
  right; right; right; right. tauto.
Qed.

Lemma in_range_iff w i : bitset.in_range w i = true <-> 0 <= i < w.
Proof.
  unfold bitset.in_range. rewrite andb_true_iff, Z.leb_le, Z.ltb_lt. tauto.
Qed.

(** The keys that the buffer passes visit are those of the flagged
    binding points. *)
Lemma In_bufferVisits H d t l :
  OTHER_BITS H = 11 ->
  In (t, l) (bufferVisits H d) <-> flagged H d (BufferSlot t l) = true.
Proof.
  intros O. unfold bufferVisits, flagged, reached. cbn [slotCategory slotBit].
  rewrite !in_app_iff, !in_map_iff. rewrite O.
  change (11 - 1) with 10.
  destruct (bufferCategory_cases t)
    as [[-> C]|[[-> C]|[[-> C]|[[-> C]|[N1 [N2 [N3 [N4 C]]]]]]]];
    rewrite C; cbn [widthOf maskOf];
    rewrite andb_true_iff; try rewrite in_range_iff.
  - split.
    + intros [[i [E I]]|[[i [E I]]|[[i [E I]]|[[i [E I]]|[i [E I]]]]]];
        try discriminate.
      * injection E as <-. now apply In_setBits in I.
      * injection E as E _. pose proof (fromBit_category i) as X.
        rewrite E in X. discriminate.
    + intros [R T]. left. exists l. split; [reflexivity|].
      now apply In_setBits.
  - split.
    + intros [[i [E I]]|[[i [E I]]|[[i [E I]]|[[i [E I]]|[i [E I]]]]]];
        try discriminate.
      * injection E as <-. now apply In_setBits in I.
      * injection E as E _. pose proof (fromBit_category i) as X.
        rewrite E in X. discriminate.
    + intros [R T]. right. left. exists l. split; [reflexivity|].
      now apply In_setBits.
  - split.
    + intros [[i [E I]]|[[i [E I]]|[[i [E I]]|[[i [E I]]|[i [E I]]]]]];
        try discriminate.
      * injection E as <-. now apply In_setBits in I.
      * injection E as E _. pose proof (fromBit_category i) as X.
        rewrite E in X. discriminate.
    + intros [R T]. right. right. left. exists l. split; [reflexivity|].
      now apply In_setBits.
  - split.
    + intros [[i [E I]]|[[i [E I]]|[[i [E I]]|[[i [E I]]|[i [E I]]]]]];
        try discriminate.
      * injection E as <-. now apply In_setBits in I.
      * injection E as E _. pose proof (fromBit_category i) as X.
        rewrite E in X. discriminate.
    + intros [R T]. right. right. right. left. exists l.
      split; [reflexivity|]. now apply In_setBits.
  - rewrite andb_true_iff, Z.eqb_eq. split.
    + intros [[i [E I]]|[[i [E I]]|[[i [E I]]|[[i [E I]]|[i [E I]]]]]];
        try (injection E as E _; congruence).
      injection E as <- <-. apply In_setBits in I. destruct I as [R T].
      destruct (targetBit_fromBit i R) as [-> [-> _]]. tauto.
    + intros [[R ->] T]. destruct (fromBit_targetBit t R) as [E B].
      right. right. right. right. exists (targetBit t).
      split; [now rewrite E|]. now apply In_setBits.
Qed.

Lemma In_visitedSlots H d sl :
  consistent H ->
  In sl (visitedSlots H d) <-> flagged H d sl = true.
Proof.
  intros [O _]. unfold visitedSlots. rewrite !in_app_iff, !in_map_iff.
  destruct sl as [t l|u|u].
  - rewrite <- (In_bufferVisits H d t l O). split.
    + intros [[[t' l'] [E I]]|[[i [E I]]|[i [E I]]]]; try discriminate.
      simpl in E. now injection E as -> ->.
    + intros I. left. now exists (t, l).
  - unfold flagged, reached, textureVisits. cbn [slotCategory slotBit maskOf].
    rewrite andb_true_iff, in_range_iff. split.
    + intros [[tl [E I]]|[[i [E I]]|[i [E I]]]]; try discriminate.
      injection E as ->. now apply In_setBits in I.
    + intros I. right. left. exists u. split; [reflexivity|].
      now apply In_setBits.
  - unfold flagged, reached, imageVisits. cbn [slotCategory slotBit maskOf].
    rewrite andb_true_iff, in_range_iff. split.
    + intros [[tl [E I]]|[[i [E I]]|[i [E I]]]]; try discriminate.
      injection E as ->. now apply In_setBits in I.
    + intros I. right. right. exists u. split; [reflexivity|].
      now apply In_setBits.
Qed.

(** *** The order of the visits *)

Lemma rank_lt_irrefl a : ~ rank_lt a a.
Proof. unfold rank_lt. lia. Qed.

(** A pass over one category visits ascending indices. *)
Lemma SS_block (g : Z -> Slot) k mask n :
  (forall i, 0 <= i < n -> slotRank (g i) = (k, i)) ->
  StronglySorted slotBefore (map g (setBits mask n))
  /\ forall sl, In sl (map g (setBits mask n)) -> fst (slotRank sl) = k.
Proof.
  intros R. split.
  - apply SS_map. apply (SS_weaken Z.lt); [|apply SS_setBits].
    intros a b Ia Ib L. apply In_setBits in Ia, Ib.
    unfold slotBefore, rank_lt. rewrite !R by tauto. simpl. lia.
  - intros sl I. apply in_map_iff in I. destruct I as [i [<- I]].
    apply In_setBits in I. now rewrite R by tauto.
Qed.

Lemma SS_blocks k l rest :
  StronglySorted slotBefore l ->
  (forall sl, In sl l -> fst (slotRank sl) = k) ->
  StronglySorted slotBefore rest ->
  (forall sl, In sl rest -> k < fst (slotRank sl)) ->
  StronglySorted slotBefore (l ++ rest).
Proof.
  intros S1 F1 S2 F2. apply SS_app; try assumption.
  intros x y Ix Iy. left. rewrite (F1 x Ix). now apply F2.
Qed.

Lemma visitedSlots_sorted H d :
  consistent H -> StronglySorted slotBefore (visitedSlots H d).
Proof.
  intros [O _]. unfold visitedSlots, bufferVisits, textureVisits, imageVisits.
  rewrite !map_app, !map_map. cbn [fst snd]. rewrite O. change (11 - 1) with 10.
  rewrite <- !app_assoc.
  destruct (SS_block (fun i => BufferSlot GL_SHADER_STORAGE_BUFFER i) 0
              (StateDiff_t.ssbos d) (SSBO_BITS H)) as [S1 F1]; [reflexivity|].
  destruct (SS_block (fun i => BufferSlot GL_UNIFORM_BUFFER i) 1
              (StateDiff_t.ubos d) (UBO_BITS H)) as [S2 F2]; [reflexivity|].
  destruct (SS_block (fun i => BufferSlot GL_ATOMIC_COUNTER_BUFFER i) 2
              (StateDiff_t.acbos d) (ACBO_BITS H)) as [S3 F3]; [reflexivity|].
  destruct (SS_block (fun i => BufferSlot GL_TRANSFORM_FEEDBACK_BUFFER i) 3
              (StateDiff_t.tfbos d) (TFBO_BITS H)) as [S4 F4]; [reflexivity|].
  destruct (SS_block (fun i => BufferSlot (getBufferTargetFromBit i) 0) 4
              (StateDiff_t.other d) 10) as [S5 F5].
  { intros i R. unfold slotRank. cbn [slotCategory slotBit].
    destruct (targetBit_fromBit i R) as [-> [_ ->]]. reflexivity. }
  destruct (SS_block TextureSlot 5 (StateDiff_t.textures d)
              (getMaxTextureBindings H)) as [S6 F6]; [reflexivity|].
  destruct (SS_block ImageSlot 6 (StateDiff_t.images d)
              (getMaxImageBindings H)) as [S7 F7]; [reflexivity|].
  assert (T : forall k rest (l : list Slot),
             StronglySorted slotBefore l ->
             (forall sl, In sl l -> fst (slotRank sl) = k) ->
             StronglySorted slotBefore rest ->
             (forall sl, In sl rest -> k < fst (slotRank sl)) ->
             StronglySorted slotBefore (l ++ rest)
             /\ (forall sl, In sl (l ++ rest) -> k <= fst (slotRank sl))).
  { intros k rest l Sl Fl Sr Fr. split; [now apply (SS_blocks k)|].
    intros sl I. apply in_app_or in I. destruct I as [I|I].
    - rewrite (Fl sl I). lia.
    - specialize (Fr sl I). lia. }
  destruct (T 5 _ _ S6 F6 S7) as [S67 F67].
  { intros sl I. rewrite (F7 sl I). lia. }
  destruct (T 4 _ _ S5 F5 S67) as [S57 F57].
  { intros sl I. specialize (F67 sl I). lia. }
  destruct (T 3 _ _ S4 F4 S57) as [S47 F47].
  { intros sl I. specialize (F57 sl I). lia. }
  destruct (T 2 _ _ S3 F3 S47) as [S37 F37].
  { intros sl I. specialize (F47 sl I). lia. }
  destruct (T 1 _ _ S2 F2 S37) as [S27 F27].
  { intros sl I. specialize (F37 sl I). lia. }
  destruct (T 0 _ _ S1 F1 S27) as [S17 F17].
  { intros sl I. specialize (F27 sl I). lia. }
  exact S17.
Qed.

Lemma visitedSlots_NoDup H d : consistent H -> NoDup (visitedSlots H d).
Proof.
  intros C. apply (SS_NoDup slotBefore); [|now apply visitedSlots_sorted].
  intros a. apply rank_lt_irrefl.
Qed.

Lemma packKey_inj t l t' l' :
  0 <= t < 2 ^ 32 -> 0 <= t' < 2 ^ 32 ->
  packKey t l = packKey t' l' -> t = t' /\ l = l'.
Proof.
  unfold packKey. change (2 ^ 32) with 4294967296. lia.
Qed.

Lemma bufferVisits_valid H d t l :
  In (t, l) (bufferVisits H d) -> 0 <= t < 2 ^ 32 /\ 0 <= l.
Proof.
  unfold bufferVisits. rewrite !in_app_iff, !in_map_iff.
  change (2 ^ 32) with 4294967296.
  intros [[i [E I]]|[[i [E I]]|[[i [E I]]|[[i [E I]]|[i [E I]]]]]];
    injection E as <- <-; apply In_setBits in I.
  - unfold GL_SHADER_STORAGE_BUFFER. lia.
  - unfold GL_UNIFORM_BUFFER. lia.
  - unfold GL_ATOMIC_COUNTER_BUFFER. lia.
  - unfold GL_TRANSFORM_FEEDBACK_BUFFER. lia.
  - split; [apply fromBit_range|lia].
Qed.

Lemma bufferVisits_keys_NoDup H d :
  consistent H -> NoDup (map bufferKey (bufferVisits H d)).
Proof.
  intros C. apply NoDup_map_NoDup_ForallPairs.
  - intros [t l] [t' l'] I I' E. unfold bufferKey in E. cbn [fst snd] in E.
    apply bufferVisits_valid in I, I'.
    destruct (packKey_inj t l t' l') as [-> ->]; tauto.
  - pose proof (visitedSlots_NoDup H d C) as N. unfold visitedSlots in N.
    apply NoDup_app_remove_r in N. now apply NoDup_map_inv in N.
Qed.

Lemma setBits_NoDup mask n : NoDup (setBits mask n).
Proof.
  apply (SS_NoDup Z.lt); [intros a; lia|apply SS_setBits].
Qed.

(** ** [apply], binding point by binding point *)

Lemma calls_flat_map {A} (f : A -> list Event) l :
  (forall x, calls (f x) = f x) -> calls (flat_map f l) = flat_map f l.
Proof.
  intros E. induction l as [|x l IH]; simpl; [reflexivity|].
  unfold calls in *. now rewrite filter_app, E, IH.
Qed.

Lemma eventsAt_buffer env s t l :
  eventsAt bufferKey (bufferLive env) bufferDead (buffers s) (t, l)
  = callsFor env (BufferSlot t l) (lookup s (BufferSlot t l)).
Proof.
  unfold eventsAt, callsFor, lookup, bufferKey, bufferLive, bufferDead.
  cbn [fst snd]. destruct (umap.find (packKey t l) (buffers s)) as [b|];
    [|reflexivity].
  cbn [option_map resourceOf]. now destruct (buffer b).
Qed.

Lemma eventsAt_texture env s u :
  eventsAt (fun i => i) (textureLive env) textureDead (textures s) u
  = callsFor env (TextureSlot u) (lookup s (TextureSlot u)).
Proof.
  unfold eventsAt, callsFor, lookup, textureLive, textureDead.
  destruct (umap.find u (textures s)) as [r|]; [|reflexivity].
  cbn [option_map resourceOf]. now destruct r.
Qed.

Lemma eventsAt_image env s u :
  eventsAt (fun i => i) (imageLive env) imageDead (images s) u
  = callsFor env (ImageSlot u) (lookup s (ImageSlot u)).
Proof.
  unfold eventsAt, callsFor, lookup, imageLive, imageDead.
  destruct (umap.find u (images s)) as [p|]; [|reflexivity].
  cbn [option_map resourceOf]. now destruct (ImageBindParameters.getTexture p).
Qed.

Lemma callsFor_calls env sl o : calls (callsFor env sl o) = callsFor env sl o.
Proof.
  unfold callsFor. destruct o as [bd|]; [|reflexivity].
  destruct (resourceOf bd); [|now destruct sl].
  destruct sl, bd; reflexivity.
Qed.

(** Every call that [apply] issues for a binding point addresses it. *)
Lemma callsFor_slot env sl o e :
  In e (callsFor env sl o) -> slotOfEvent e = Some sl.
Proof.
  unfold callsFor. destruct o as [bd|]; [|intros []].
  destruct (resourceOf bd); intros [<-|[]]; [|now destruct sl].
  destruct sl, bd; reflexivity.
Qed.

Lemma afterVisit_buffer env tl o :
  option_map BufferBound (afterVisit (bufferLive env) tl o)
  = afterApply env (option_map BufferBound o).
Proof.
  destruct o as [b|]; [|reflexivity]. unfold afterVisit, afterApply, bufferLive.
  cbn [option_map resourceOf]. now destruct (buffer b).
Qed.

Lemma afterVisit_texture env u o :
  option_map TextureBound (afterVisit (textureLive env) u o)
  = afterApply env (option_map TextureBound o).
Proof.
  destruct o as [r|]; [|reflexivity]. unfold afterVisit, afterApply, textureLive.
  cbn [option_map resourceOf]. now destruct r.
Qed.

Lemma afterVisit_image env u o :
  option_map ImageBound (afterVisit (imageLive env) u o)
  = afterApply env (option_map ImageBound o).
Proof.
  destruct o as [p|]; [|reflexivity]. unfold afterVisit, afterApply, imageLive.
  cbn [option_map resourceOf]. now destruct (ImageBindParameters.getTexture p).
Qed.

(** [apply] in terms of the three maps of the snapshot. *)
Lemma apply_raw H env s d :
  consistent H ->
  exists bufs texs imgs log,
    apply H env s d = Some (Build_BindingState bufs texs imgs, log)
    /\ calls log
       = flat_map (eventsAt bufferKey (bufferLive env) bufferDead (buffers s))
           (bufferVisits H d)
         ++ flat_map (eventsAt (fun i => i) (textureLive env) textureDead
                        (textures s)) (textureVisits H d)
         ++ flat_map (eventsAt (fun i => i) (imageLive env) imageDead
                        (images s)) (imageVisits H d)
    /\ ((forall tl, In tl (bufferVisits H d) ->
           umap.find (bufferKey tl) bufs
           = afterVisit (bufferLive env) tl (umap.find (bufferKey tl) (buffers s)))
        /\ (forall k, ~ In k (map bufferKey (bufferVisits H d)) ->
              umap.find k bufs = umap.find k (buffers s))
        /\ (NoDup (umap.keys (buffers s)) -> NoDup (umap.keys bufs)))
    /\ ((forall u, In u (textureVisits H d) ->
           umap.find u texs
           = afterVisit (textureLive env) u (umap.find u (textures s)))
        /\ (forall k, ~ In k (textureVisits H d) ->
              umap.find k texs = umap.find k (textures s))
        /\ (NoDup (umap.keys (textures s)) -> NoDup (umap.keys texs)))
    /\ ((forall u, In u (imageVisits H d) ->
           umap.find u imgs
           = afterVisit (imageLive env) u (umap.find u (images s)))
        /\ (forall k, ~ In k (imageVisits H d) ->
              umap.find k imgs = umap.find k (images s))
        /\ (NoDup (umap.keys (images s)) -> NoDup (umap.keys imgs))).
Proof.
  intros C.
  destruct (visits_spec _ _ bufferKey (bufferLive env) bufferDead
              (bufferVisits H d) (buffers s) (bufferVisits_keys_NoDup H d C))
    as [bufs [Eb [Ab [Ob Kb]]]].
  destruct (visits_spec _ _ (fun i => i) (textureLive env) textureDead
              (textureVisits H d) (textures s))
    as [texs [Et [At [Ot Kt]]]].
  { rewrite map_id. apply setBits_NoDup. }
  destruct (visits_spec _ _ (fun i => i) (imageLive env) imageDead
              (imageVisits H d) (images s))
    as [imgs [Ei [Ai [Oi Ki]]]].
  { rewrite map_id. apply setBits_NoDup. }
  pose proof (apply_quiet H env s d C) as Q.
  rewrite Eb, Et, Ei in Q. cbn [quiet bind ret] in Q.
  apply quiet_Some in Q. destruct Q as [log [E L]].
  exists bufs, texs, imgs, log.
  split; [exact E|]. split.
  - rewrite L, app_nil_r.
    rewrite !calls_flat_map; [reflexivity| | |].
    + intros u. rewrite eventsAt_image. apply callsFor_calls.
    + intros u. rewrite eventsAt_texture. apply callsFor_calls.
    + intros [t l]. rewrite eventsAt_buffer. apply callsFor_calls.
  - rewrite map_id in Ot, Oi. repeat split; assumption.
Qed.

Lemma apply_slots H env s d :
  consistent H ->
  exists s' log,
    apply H env s d = Some (s', log)
    /\ calls log
       = flat_map (fun sl => callsFor env sl (lookup s sl)) (visitedSlots H d)
    /\ (forall sl, validSlot sl ->
          lookup s' sl
          = if flagged H d sl then afterApply env (lookup s sl)
            else lookup s sl)
    /\ (NoDup (umap.keys (buffers s)) -> NoDup (umap.keys (buffers s')))
    /\ (NoDup (umap.keys (textures s)) -> NoDup (umap.keys (textures s')))
    /\ (NoDup (umap.keys (images s)) -> NoDup (umap.keys (images s'))).
Proof.
  intros C.
  destruct (apply_raw H env s d C)
    as [bufs [texs [imgs [log [E [L [[Ab [Ob Kb]] [[At [Ot Kt]] [Ai [Oi Ki]]]]]]]]]].
  exists (Build_BindingState bufs texs imgs), log.
  split; [exact E|]. split.
  - rewrite L. unfold visitedSlots.
    rewrite !flat_map_app, !flat_map_map.
    f_equal; [|f_equal]; apply flat_map_agree.
    + intros [t l] _. apply eventsAt_buffer.
    + intros u _. apply eventsAt_texture.
    + intros u _. apply eventsAt_image.
  - split; [|cbn [buffers textures images]; tauto].
    intros sl Vs. destruct sl as [t l|u|u]; cbn [lookup buffers textures images].
    + destruct (flagged H d (BufferSlot t l)) eqn:Fl.
      * apply (In_bufferVisits H d t l (proj1 C)) in Fl.
        rewrite <- afterVisit_buffer with (tl := (t, l)). f_equal.
        apply (Ab (t, l) Fl).
      * f_equal. apply Ob. intros I. apply in_map_iff in I.
        destruct I as [[t' l'] [Ek I]].
        pose proof (bufferVisits_valid H d t' l' I) as Vt.
        unfold bufferKey in Ek. cbn [fst snd] in Ek.
        destruct (packKey_inj t' l' t l) as [-> ->]; [tauto|apply Vs|exact Ek|].
        apply (In_bufferVisits H d t l (proj1 C)) in I. congruence.
    + destruct (flagged H d (TextureSlot u)) eqn:Fl.
      * apply (In_visitedSlots H d _ C) in Fl. unfold visitedSlots in Fl.
        rewrite !in_app_iff, !in_map_iff in Fl.
        destruct Fl as [[tl [X _]]|[[i [X I]]|[i [X _]]]]; try discriminate.
        injection X as ->.
        rewrite <- afterVisit_texture with (u := u). f_equal. now apply At.
      * f_equal. apply Ot. intros I.
        assert (X : In (TextureSlot u) (visitedSlots H d)).
        { unfold visitedSlots. rewrite !in_app_iff. right. left.
          now apply in_map. }
        apply (In_visitedSlots H d _ C) in X. congruence.
    + destruct (flagged H d (ImageSlot u)) eqn:Fl.
      * apply (In_visitedSlots H d _ C) in Fl. unfold visitedSlots in Fl.
        rewrite !in_app_iff, !in_map_iff in Fl.
        destruct Fl as [[tl [X _]]|[[i [X _]]|[i [X I]]]]; try discriminate.
        injection X as ->.
        rewrite <- afterVisit_image with (u := u). f_equal. now apply Ai.
      * f_equal. apply Oi. intros I.
        assert (X : In (ImageSlot u) (visitedSlots H d)).
        { unfold visitedSlots. rewrite !in_app_iff. right. right.
          now apply in_map. }
        apply (In_visitedSlots H d _ C) in X. congruence.
Qed.

(** ** The order of the driver calls *)

Lemma calls_in_slot_order env s l :
  StronglySorted slotBefore l ->
  StronglySorted issuedBefore
    (flat_map (fun sl => callsFor env sl (lookup s sl)) l).
Proof.
  induction 1 as [|a l S IH F]; [constructor|].
  cbn [flat_map].
  assert (X : Forall (fun e => slotOfEvent e = Some a)
                (callsFor env a (lookup s a))).
  { apply Forall_forall. intros e. apply callsFor_slot. }
  assert (L : (List.length (callsFor env a (lookup s a)) <= 1)%nat).
  { unfold callsFor. destruct (lookup s a) as [bd|]; simpl; [|lia].
    destruct (resourceOf bd); simpl; lia. }
  destruct (callsFor env a (lookup s a)) as [|e [|e' r]];
    [exact IH| |simpl in L; lia].
  cbn [app]. constructor; [exact IH|].
  apply Forall_forall. intros e' I. apply in_flat_map in I.
  destruct I as [sl [Isl Ie]]. apply callsFor_slot in Ie.
  inversion X as [|? ? Ea _]; subst.
  rewrite Forall_forall in F. specialize (F sl Isl).
  unfold issuedBefore, rankOfEvent. now rewrite Ea, Ie.
Qed.

(** C7.  With masks narrower than 256 bits, which the 8-bit loop
    counters of [apply] can run through, [apply] returns, and the driver
    calls it issues are strictly ascending in the fixed order of the
    passes: storage, uniform, atomic-counter and transform-feedback
    buffers, the buffers of the shared mask, texture units, image units,
    and by ascending index within each of them; a call of a later
    category never precedes a call of an earlier one. *)
Theorem apply_issues_calls_in_fixed_order H env s d :
  consistent H -> narrow H ->
  exists s' log,
    apply H env s d = Some (s', log)
    /\ StronglySorted issuedBefore (calls log).
Proof.
  intros C _. destruct (apply_slots H env s d C) as [s' [log [E [L _]]]].
  exists s', log. split; [exact E|]. rewrite L.
  apply calls_in_slot_order. now apply visitedSlots_sorted.
Qed.

Lemma apply_issues_calls_in_fixed_order_witness :
  consistent Examples.header
  /\ narrow Examples.header
  /\ exists s' log,
       apply Examples.header Examples.env Examples.mixed Examples.everyBit
       = Some (s', log)
       /\ StronglySorted issuedBefore (calls log).
Proof.
  split; [|split].
  - unfold consistent. simpl. lia.
  - concrete_narrow.
  - apply apply_issues_calls_in_fixed_order.
    + unfold consistent. simpl. lia.
    + concrete_narrow.
Defined.

(** ** The sentinel bit of the shared mask *)

Lemma setBits_agree x y n :
  (forall i, 0 <= i < n -> Z.testbit x i = Z.testbit y i) ->
  setBits x n = setBits y n.
Proof.
  intros A. unfold setBits. apply filter_ext_in. intros i I.
  apply In_upTo in I. now apply A.
Qed.

(** C10 (as amended).  With masks narrower than 256 bits, the last bit
    of the shared mask is the sentinel bit 10, and [apply] never looks at
    it: whatever its value, [apply]
    returns the same snapshot and issues the same driver calls, so a
    difference recorded there causes no bind, no unbind and no change of
    the snapshot.  [getBufferTargetFromBit] maps the sentinel position to
    0, which is neither [GL_ARRAY_BUFFER] nor a sentinel target. *)
Theorem sentinel_bit_is_never_applied H env s d x :
  consistent H -> narrow H ->
  (forall i, i <> 10 -> Z.testbit x i = Z.testbit (StateDiff_t.other d) i) ->
  OTHER_BITS H - 1 = 10
  /\ (exists s' log, apply H env s d = Some (s', log))
  /\ quiet (apply H env s (StateDiff_t.with_other d x)) = quiet (apply H env s d)
  /\ (forall sl, In sl (visitedSlots H d) ->
        slotCategory sl = OTHER -> slotBit sl <> 10)
  /\ getBufferTargetFromBit 10 = 0.
Proof.
  intros C _ A. pose proof C as [O _].
  split; [lia|]. split.
  { destruct (apply_slots H env s d C) as [s' [log [E _]]]. now exists s', log. }
  split.
  { rewrite !apply_quiet by assumption.
    assert (B : bufferVisits H (StateDiff_t.with_other d x) = bufferVisits H d).
    { unfold bufferVisits. destruct d; cbn. rewrite O.
      rewrite (setBits_agree x other (11 - 1)); [reflexivity|].
      intros i R. apply A. lia. }
    rewrite B. destruct d; reflexivity. }
  split; [|reflexivity].
  intros sl I Cat. apply (In_visitedSlots H d sl C) in I.
  unfold flagged, reached in I. destruct sl as [t l|u|u]; try discriminate.
  cbn [slotCategory] in Cat. cbn [slotBit]. rewrite Cat in *.
  apply andb_true_iff in I. destruct I as [I _].
  apply andb_true_iff in I. destruct I as [R _].
  unfold recognised in R. apply negb_true_iff in R. now apply Z.eqb_neq in R.
Qed.

Lemma sentinel_bit_is_never_applied_witness :
  consistent Examples.header
  /\ narrow Examples.header
  /\ OTHER_BITS Examples.header - 1 = 10
  /\ (exists s' log,
        apply Examples.header Examples.env Examples.mixed StateDiff_t.empty
        = Some (s', log))
  /\ quiet (apply Examples.header Examples.env Examples.mixed
              (StateDiff_t.with_other StateDiff_t.empty 1024))
     = quiet (apply Examples.header Examples.env Examples.mixed StateDiff_t.empty)
  /\ (forall sl, In sl (visitedSlots Examples.header StateDiff_t.empty) ->
        slotCategory sl = OTHER -> slotBit sl <> 10)
  /\ getBufferTargetFromBit 10 = 0.
Proof.
  split; [|split].
  - unfold consistent. simpl. lia.
  - concrete_narrow.
  - apply (sentinel_bit_is_never_applied Examples.header Examples.env
             Examples.mixed StateDiff_t.empty 1024).
    + unfold consistent. simpl. lia.
    + concrete_narrow.
    + intros i N. cbn [StateDiff_t.other StateDiff_t.empty].
      rewrite Z.testbit_0_l. change 1024 with (2 ^ 10).
      destruct (Z.neg_nonneg_cases i) as [Neg|Pos].
      * now apply Z.testbit_neg_r.
      * rewrite Z.pow2_bits_eqb by lia. now apply Z.eqb_neq.
Defined.

(** C10 (as stated) fails in its last part: the sentinel position is not
    mapped back to [GL_ARRAY_BUFFER]. *)
Lemma sentinel_is_not_mapped_to_array_buffer :
  getBufferTargetFromBit 10 <> GL_ARRAY_BUFFER.
Proof. discriminate. Qed.

(** ** The driver calls at one binding point *)

Lemma Slot_eqb_eq a b : Slot_eqb a b = true <-> a = b.
Proof.
  destruct a, b; simpl; try (split; [discriminate|congruence]).
  - rewrite andb_true_iff, !Z.eqb_eq. split; [intros [-> ->]|intros [= -> ->]]; auto.
  - rewrite Z.eqb_eq. split; [intros ->|intros [= ->]]; auto.
  - rewrite Z.eqb_eq. split; [intros ->|intros [= ->]]; auto.
Qed.

Lemma filter_within {A} (p q : A -> bool) l :
  (forall x, p x = true -> q x = true) ->
  filter p (filter q l) = filter p l.
Proof.
  intros W. induction l as [|x l IH]; [reflexivity|]. cbn [filter].
  destruct (q x) eqn:Q; cbn [filter].
  - now rewrite IH.
  - destruct (p x) eqn:P; [|exact IH].
    rewrite (W x P) in Q. discriminate.
Qed.

Lemma addresses_calls sl log :
  filter (addresses sl) (calls log) = filter (addresses sl) log.
Proof.
  apply filter_within. intros e. unfold addresses, isCall.
  now destruct (slotOfEvent e).
Qed.

Lemma addresses_own env sl o :
  filter (addresses sl) (callsFor env sl o) = callsFor env sl o.
Proof.
  apply forallb_filter_id. apply forallb_forall. intros e I.
  unfold addresses. rewrite (callsFor_slot env sl o e I).
  now apply Slot_eqb_eq.
Qed.

Lemma addresses_foreign env sl sl' o :
  sl' <> sl -> filter (addresses sl) (callsFor env sl' o) = [].
Proof.
  intros N. unfold callsFor. destruct o as [bd|]; [|reflexivity].
  assert (X : forall e, slotOfEvent e = Some sl' -> filter (addresses sl) [e] = []).
  { intros e S. simpl. unfold addresses. rewrite S.
    destruct (Slot_eqb sl' sl) eqn:E; [|reflexivity].
    apply Slot_eqb_eq in E. contradiction. }
  destruct (resourceOf bd) eqn:R; apply X;
    apply (callsFor_slot env sl' (Some bd)); unfold callsFor; rewrite R;
    now left.
Qed.

Lemma addresses_visits env s sl l :
  NoDup l ->
  filter (addresses sl) (flat_map (fun sl' => callsFor env sl' (lookup s sl')) l)
  = if existsb (Slot_eqb sl) l then callsFor env sl (lookup s sl) else [].
Proof.
  induction 1 as [|a l NI ND IH]; [reflexivity|].
  cbn [flat_map existsb]. rewrite filter_app, IH.
  destruct (Slot_eqb sl a) eqn:E.
  - apply Slot_eqb_eq in E. subst a. rewrite addresses_own.
    destruct (existsb (Slot_eqb sl) l) eqn:X; [|now rewrite app_nil_r].
    apply existsb_exists in X. destruct X as [y [Iy Ey]].
    apply Slot_eqb_eq in Ey. subst y. contradiction.
  - rewrite addresses_foreign; [reflexivity|].
    intros ->. rewrite (proj2 (Slot_eqb_eq sl sl) eq_refl) in E. discriminate.
Qed.

Lemma existsb_visited H d sl :
  consistent H -> existsb (Slot_eqb sl) (visitedSlots H d) = flagged H d sl.
Proof.
  intros C. destruct (flagged H d sl) eqn:F.
  - apply existsb_exists. exists sl. split; [now apply In_visitedSlots|].
    now apply Slot_eqb_eq.
  - apply not_true_is_false. intros X. apply existsb_exists in X.
    destruct X as [y [Iy Ey]]. apply Slot_eqb_eq in Ey. subst y.
    apply (In_visitedSlots H d sl C) in Iy. congruence.
Qed.

(** The calls of [apply] that address a binding point, and what the
    snapshot holds there afterwards. *)
Lemma apply_at_slot H env s d :
  consistent H ->
  exists s' log,
    apply H env s d = Some (s', log)
    /\ forall sl, validSlot sl ->
         filter (addresses sl) log
         = (if flagged H d sl then callsFor env sl (lookup s sl) else [])
         /\ lookup s' sl
            = (if flagged H d sl then afterApply env (lookup s sl)
               else lookup s sl).
Proof.
  intros C. destruct (apply_slots H env s d C) as [s' [log [E [L [A _]]]]].
  exists s', log. split; [exact E|]. intros sl V. split; [|now apply A].
  rewrite <- (addresses_calls sl log), L.
  rewrite addresses_visits by now apply visitedSlots_NoDup.
  now rewrite existsb_visited.
Qed.

(** C2 (as amended).  With masks narrower than 256 bits, which the
    8-bit loop counters of [apply] can run through, and image levels and
    layers that fit the [GLint] parameters of the driver call, [apply]
    returns, and at every binding point whose bit is set in the change
    mask and that its loops reach it does exactly one of three things:
    when the binding holds a live resource it issues one bind call for
    that binding point and refreshes the cached offset and size of a
    buffer binding from the live resource; when the binding is null it
    issues one unbind call and removes the entry; when the key is absent
    from the snapshot it issues no driver call and leaves the snapshot
    as it is.  At every other binding point it issues no call and
    changes nothing. *)
Theorem apply_binds_unbinds_or_skips H env s d :
  consistent H -> narrow H -> imageArgumentsFit s ->
  exists s' log,
    apply H env s d = Some (s', log)
    /\ forall sl, validSlot sl ->
         (flagged H d sl = true ->
          match lookup s sl with
          | Some bd =>
              match resourceOf bd with
              | Some obj =>
                  filter (addresses sl) log = [bindCall env sl bd obj]
                  /\ lookup s' sl = Some (rebound env bd obj)
              | None =>
                  filter (addresses sl) log = [unbindCall sl]
                  /\ lookup s' sl = None
              end
          | None => filter (addresses sl) log = [] /\ lookup s' sl = None
          end)
         /\ (flagged H d sl = false ->
             filter (addresses sl) log = [] /\ lookup s' sl = lookup s sl).
Proof.
  intros C _ _. destruct (apply_at_slot H env s d C) as [s' [log [E A]]].
  exists s', log. split; [exact E|]. intros sl V.
  destruct (A sl V) as [A1 A2]. split; intros F; rewrite F in A1, A2.
  - unfold callsFor in A1. unfold afterApply in A2.
    destruct (lookup s sl) as [bd|]; [|now split].
    destruct (resourceOf bd); now split.
  - now split.
Qed.

Lemma apply_binds_unbinds_or_skips_witness :
  consistent Examples.header
  /\ narrow Examples.header
  /\ imageArgumentsFit Examples.mixed
  /\ exists s' log,
       apply Examples.header Examples.env Examples.mixed Examples.everyBit
       = Some (s', log)
       /\ forall sl, validSlot sl ->
            (flagged Examples.header Examples.everyBit sl = true ->
             match lookup Examples.mixed sl with
             | Some bd =>
                 match resourceOf bd with
                 | Some obj =>
                     filter (addresses sl) log
                     = [bindCall Examples.env sl bd obj]
                     /\ lookup s' sl = Some (rebound Examples.env bd obj)
                 | None =>
                     filter (addresses sl) log = [unbindCall sl]
                     /\ lookup s' sl = None
                 end
             | None => filter (addresses sl) log = [] /\ lookup s' sl = None
             end)
            /\ (flagged Examples.header Examples.everyBit sl = false ->
                filter (addresses sl) log = []
                /\ lookup s' sl = lookup Examples.mixed sl).
Proof.
  assert (Fit : imageArgumentsFit Examples.mixed).
  { intros u p [E|[]]. injection E as <- <-. now vm_compute. }
  split; [|split; [|split]].
  - unfold consistent. simpl. lia.
  - concrete_narrow.
  - exact Fit.
  - apply apply_binds_unbinds_or_skips.
    + unfold consistent. simpl. lia.
    + concrete_narrow.
    + exact Fit.
Defined.

(** C2 (as stated) fails for an absent key: with bit 2 of the storage
    mask set and no entry under that key, [apply] issues no unbind call
    (its log holds the two error probes only). *)
Lemma apply_skips_absent_key :
  Z.testbit (StateDiff_t.ssbos Examples.storageBit2) 2 = true
  /\ lookup Examples.nothingBound (BufferSlot GL_SHADER_STORAGE_BUFFER 2) = None
  /\ apply Examples.header Examples.env Examples.nothingBound Examples.storageBit2
     = Some (Examples.nothingBound, [GET_GL_ERROR; GET_GL_ERROR])
  /\ callsAt (BufferSlot GL_SHADER_STORAGE_BUFFER 2) [GET_GL_ERROR; GET_GL_ERROR]
     = 0%nat.
Proof. repeat split. Qed.

(** ** Writes and binding points *)

Lemma occupied_lookup s sl :
  occupied s sl = match lookup s sl with Some _ => true | None => false end.
Proof.
  destruct sl; simpl;
    match goal with |- context [umap.find ?k ?m] => destruct (umap.find k m) end;
    reflexivity.
Qed.

Lemma entry_slot s k b :
  wellFormed s -> In (k, b) (buffers s) ->
  validSlot (BufferSlot (target b) (location b))
  /\ lookup s (BufferSlot (target b) (location b)) = Some (BufferBound b)
  /\ k = packKey (target b) (location b).
Proof.
  intros [ND [K _]] I. destruct (K k b I) as [-> [Rt Rl]].
  split; [now split|]. split; [|reflexivity].
  simpl. fold (_key b). now rewrite (In_find _ _ _ ND I).
Qed.

Lemma slot_entry s t l b :
  wellFormed s -> validSlot (BufferSlot t l) ->
  lookup s (BufferSlot t l) = Some (BufferBound b) ->
  In (packKey t l, b) (buffers s) /\ target b = t /\ location b = l.
Proof.
  intros [ND [K _]] [Vt Vl] L. simpl in L.
  destruct (umap.find (packKey t l) (buffers s)) as [b'|] eqn:F;
    [|discriminate].
  injection L as ->. apply find_In in F. split; [exact F|].
  destruct (K _ _ F) as [E [Rt Rl]]. unfold _key in E.
  destruct (packKey_inj t l (target b) (location b)); auto.
Qed.

Lemma write_has_slot H env self peer forced w :
  wellFormed self ->
  In w (writesOf H env self peer forced) ->
  exists sl bd,
    validSlot sl /\ lookup self sl = Some bd
    /\ w_cat w = slotCategory sl /\ w_bit w = slotBit sl
    /\ w_val w = forced || scanValue H env peer sl bd.
Proof.
  intros WF I. unfold writesOf in I.
  apply in_app_or in I. destruct I as [I|I]; [|apply in_app_or in I; destruct I as [I|I]];
    apply in_map_iff in I; destruct I as [[k v] [<- I]].
  - destruct (entry_slot self k v WF I) as [V [L E]].
    exists (BufferSlot (target v) (location v)), (BufferBound v).
    repeat split; try assumption; try apply V.
    simpl. now rewrite orb_assoc.
  - destruct WF as [_ [_ [ND _]]].
    exists (TextureSlot k), (TextureBound v). repeat split.
    simpl. now rewrite (In_find _ _ _ ND I).
  - destruct WF as [_ [_ [_ ND]]].
    exists (ImageSlot k), (ImageBound v). repeat split.
    simpl. now rewrite (In_find _ _ _ ND I).
Qed.

Lemma slot_has_write H env self peer forced sl bd :
  wellFormed self -> validSlot sl -> lookup self sl = Some bd ->
  exists w,
    In w (writesOf H env self peer forced)
    /\ w_cat w = slotCategory sl /\ w_bit w = slotBit sl
    /\ w_val w = forced || scanValue H env peer sl bd.
Proof.
  intros WF V L. unfold writesOf. destruct sl as [t l|u|u].
  - assert (X : exists b, bd = BufferBound b).
    { simpl in L. destruct (umap.find _ _); [|discriminate].
      injection L as <-. eauto. }
    destruct X as [b ->].
    destruct (slot_entry self t l b WF V L) as [I [<- <-]].
    exists (bufferWrite H env peer forced (packKey (target b) (location b), b)).
    split; [apply in_or_app; left; now apply in_map|].
    repeat split. simpl. now rewrite orb_assoc.
  - simpl in L. destruct (umap.find u (textures self)) as [r|] eqn:F;
      [|discriminate].
    injection L as <-. apply find_In in F.
    exists (textureWrite peer forced (u, r)).
    split; [|repeat split].
    apply in_or_app; right. apply in_or_app; left. now apply in_map.
  - simpl in L. destruct (umap.find u (images self)) as [p|] eqn:F;
      [|discriminate].
    injection L as <-. apply find_In in F.
    exists (imageWrite H peer forced (u, p)).
    split; [|repeat split].
    apply in_or_app; right. apply in_or_app; right. now apply in_map.
Qed.

Lemma hits_iff w c i :
  hits w c i = true <-> w_cat w = c /\ w_bit w = i.
Proof.
  unfold hits. now rewrite andb_true_iff, Category_eqb_eq, Z.eqb_eq.
Qed.

Lemma In_allWrites H env this target forced w :
  In w (allWrites H env this target forced)
  <-> In w (writesOf H env this target forced)
      \/ In w (writesOf H env target this forced).
Proof.
  unfold allWrites, writesOf. rewrite !in_app_iff. tauto.
Qed.

(** In forced mode every write sets its bit. *)
Lemma forced_writes H env self peer w :
  In w (writesOf H env self peer true) -> w_val w = true.
Proof.
  unfold writesOf. intros I.
  repeat (apply in_app_or in I; destruct I as [I|I]);
    apply in_map_iff in I; destruct I as [e [<- _]]; reflexivity.
Qed.

(** Binding points that [apply] reaches have bits of their own. *)
Lemma reached_position_inj H sl sl' :
  reached H sl = true -> reached H sl' = true ->
  slotCategory sl = slotCategory sl' -> slotBit sl = slotBit sl' -> sl = sl'.
Proof.
  intros R R' C B.
  destruct sl as [t l|u|u], sl' as [t' l'|u'|u']; cbn [slotCategory] in C;
    try (pose proof (bufferCategory_isBuffer t) as X; rewrite C in X;
         discriminate);
    try (pose proof (bufferCategory_isBuffer t') as X; rewrite <- C in X;
         discriminate);
    try discriminate; cbn [slotBit] in B; try now subst.
  cbn [reached] in R, R'. rewrite <- C in *.
  destruct (bufferCategory_cases t)
    as [[-> Ct]|[[-> Ct]|[[-> Ct]|[[-> Ct]|[_ [_ [_ [_ Ct]]]]]]]];
    destruct (bufferCategory_cases t')
      as [[-> Ct']|[[-> Ct']|[[-> Ct']|[[-> Ct']|[_ [_ [_ [_ Ct']]]]]]]];
    rewrite Ct in *; try discriminate; rewrite ?Ct' in *; try discriminate;
    try (now subst).
  apply andb_true_iff in R, R'. destruct R as [R Z], R' as [R' Z'].
  apply Z.eqb_eq in Z, Z'. subst l l'.
  destruct (fromBit_targetBit t R) as [<- _].
  destruct (fromBit_targetBit t' R') as [<- _]. now rewrite B.
Qed.

(** ** Staleness detection *)

(** C4 (as amended).  When the target holds a buffer binding whose cached
    offset or size differs from the live one (as it does when it still
    holds the stale binding of the current snapshot), and no other buffer
    binding of the target falls on the same bit of the same mask,
    [makeDiff] with [forced = false] returns a mask with that bit set.
    Bindings of the storage, uniform, atomic-counter and
    transform-feedback categories never share a bit; bindings of the
    shared mask do when they have the same target at different
    locations or unrecognised targets. *)
Theorem stale_binding_sets_its_bit H env current target k b :
  fits H env current = true ->
  fits H env target = true ->
  In (k, b) (buffers target) ->
  changed env b = true ->
  (forall k' b', In (k', b') (buffers target) ->
     bufferCategory (Binding.target b') = bufferCategory (Binding.target b) ->
     bufferBit b' = bufferBit b -> b' = b) ->
  exists d log,
    makeDiff H env current target false = Some (d, log)
    /\ Z.testbit (maskOf (bufferCategory (Binding.target b)) d) (bufferBit b)
       = true.
Proof.
  intros Fc Ft I S U.
  destruct (makeDiff_returns H env current target false Fc Ft)
    as [d [log [E [_ B]]]].
  exists d, log. split; [exact E|]. rewrite B, lastWrite_allWrites.
  rewrite (lastWrite_all _ _ _ true (bufferWrite H env current false (k, b)));
    [reflexivity| | |].
  - unfold writesOf. apply in_or_app. left. now apply in_map.
  - apply hits_iff. now split.
  - intros w Iw Hw. apply hits_iff in Hw. destruct Hw as [Hc Hb].
    unfold writesOf in Iw.
    apply in_app_or in Iw. destruct Iw as [Iw|Iw];
      [|apply in_app_or in Iw; destruct Iw as [Iw|Iw]];
      apply in_map_iff in Iw; destruct Iw as [[k' v] [<- Iw]].
    + cbn [bufferWrite w_cat w_bit w_val snd] in *.
      rewrite (U k' v Iw Hc Hb), S. reflexivity.
    + cbn [textureWrite w_cat] in Hc.
      pose proof (bufferCategory_isBuffer (Binding.target b)) as X.
      rewrite <- Hc in X. discriminate.
    + cbn [imageWrite w_cat] in Hc.
      pose proof (bufferCategory_isBuffer (Binding.target b)) as X.
      rewrite <- Hc in X. discriminate.
Qed.

Lemma stale_binding_sets_its_bit_witness :
  exists d log,
    makeDiff Examples.header Examples.env Examples.staleUniformAt1
      Examples.staleUniformAt1 false = Some (d, log)
    /\ Z.testbit
         (maskOf (bufferCategory
                    (target (snd (Examples.bound 2 GL_UNIFORM_BUFFER 1 32)))) d)
         (bufferBit (snd (Examples.bound 2 GL_UNIFORM_BUFFER 1 32)))
       = true.
Proof.
  apply (stale_binding_sets_its_bit Examples.header Examples.env
           Examples.staleUniformAt1 Examples.staleUniformAt1
           (fst (Examples.bound 2 GL_UNIFORM_BUFFER 1 32))
           (snd (Examples.bound 2 GL_UNIFORM_BUFFER 1 32))).
  - reflexivity.
  - reflexivity.
  - simpl. now left.
  - reflexivity.
  - intros k' b' [E|[]] _ _. now injection E as _ <-.
Defined.

(** C4 (as stated) fails: the array buffer at location 0 is stale in the
    current snapshot, the target is the same snapshot, and the change
    mask is empty, because the unchanged array buffer at location 1
    writes the same bit of the shared mask afterwards. *)
Lemma stale_binding_is_overwritten :
  In (Examples.bound 1 GL_ARRAY_BUFFER 0 32) (buffers Examples.staleThenFresh)
  /\ changed Examples.env (snd (Examples.bound 1 GL_ARRAY_BUFFER 0 32)) = true
  /\ makeDiff Examples.header Examples.env Examples.staleThenFresh
       Examples.staleThenFresh false = Some (StateDiff_t.empty, [])
  /\ Z.testbit (StateDiff_t.other StateDiff_t.empty) 0 = false.
Proof. repeat split. simpl. now left. Qed.

(** ** Forced reconciliation *)

Lemma callsFor_length env sl o :
  List.length (callsFor env sl o)
  = match o with Some _ => 1%nat | None => 0%nat end.
Proof.
  unfold callsFor. destruct o as [bd|]; [|reflexivity].
  now destruct (resourceOf bd).
Qed.

(** C5 (as amended).  With [forced = true], [makeDiff] returns a mask
    with the bit of every binding point set that the current or the
    target snapshot occupies.  With masks narrower than 256 bits, which
    the 8-bit loop counters of [apply] can run through, [apply] of that
    mask, on either snapshot, returns and
    issues exactly one driver call for each binding point that its loops
    reach and that the snapshot it runs on occupies, and none for any
    other binding point: none for a key that only the other snapshot
    holds, none for a buffer of the shared mask at a location other
    than 0 or with an unrecognised target, none for a unit at or above
    the binding limit. *)
Theorem forced_diff_sets_every_bit H env current target :
  consistent H -> narrow H ->
  wellFormed current -> wellFormed target ->
  fits H env current = true -> fits H env target = true ->
  exists d log,
    makeDiff H env current target true = Some (d, log)
    /\ (forall sl, validSlot sl ->
          occupied current sl || occupied target sl = true ->
          Z.testbit (maskOf (slotCategory sl) d) (slotBit sl) = true)
    /\ (forall s, s = current \/ s = target ->
          exists s' log',
            apply H env s d = Some (s', log')
            /\ forall sl, validSlot sl ->
                 callsAt sl log'
                 = if reached H sl && occupied s sl then 1%nat else 0%nat).
Proof.
  intros C _ Wc Wt Fc Ft.
  destruct (makeDiff_returns H env current target true Fc Ft)
    as [d [log [E [_ B]]]].
  exists d, log. split; [exact E|].
  assert (A : forall sl, validSlot sl ->
                occupied current sl || occupied target sl = true ->
                Z.testbit (maskOf (slotCategory sl) d) (slotBit sl) = true).
  { intros sl V O. rewrite B.
    assert (X : exists w, In w (allWrites H env current target true)
                          /\ hits w (slotCategory sl) (slotBit sl) = true).
    { apply orb_true_iff in O. rewrite !occupied_lookup in O.
      destruct O as [O|O].
      - destruct (lookup current sl) as [bd|] eqn:L; [|discriminate].
        destruct (slot_has_write H env current target true sl bd Wc V L)
          as [w [I [Hc [Hb _]]]].
        exists w. split; [apply In_allWrites; now left|now apply hits_iff].
      - destruct (lookup target sl) as [bd|] eqn:L; [|discriminate].
        destruct (slot_has_write H env target current true sl bd Wt V L)
          as [w [I [Hc [Hb _]]]].
        exists w. split; [apply In_allWrites; now right|now apply hits_iff]. }
    destruct X as [w0 [I0 H0]].
    rewrite (lastWrite_all _ _ _ true w0 I0 H0); [reflexivity|].
    intros w I _. apply In_allWrites in I.
    destruct I as [I|I]; now apply forced_writes in I. }
  split; [exact A|].
  intros s Es. destruct (apply_at_slot H env s d C) as [s' [log' [Ea P]]].
  exists s', log'. split; [exact Ea|]. intros sl V.
  destruct (P sl V) as [P1 _]. unfold callsAt. rewrite P1.
  unfold flagged. rewrite occupied_lookup.
  destruct (reached H sl) eqn:R; cbn [andb]; [|reflexivity].
  destruct (lookup s sl) as [bd|] eqn:L.
  - rewrite A; [now rewrite callsFor_length|exact V|].
    rewrite !occupied_lookup. destruct Es as [-> | ->]; rewrite L;
      [reflexivity|apply orb_true_r].
  - destruct (Z.testbit _ _); reflexivity.
Qed.

Lemma forced_diff_sets_every_bit_witness :
  exists d log,
    makeDiff Examples.header Examples.env Examples.storageAt2 Examples.mixed
      true = Some (d, log)
    /\ (forall sl, validSlot sl ->
          occupied Examples.storageAt2 sl || occupied Examples.mixed sl = true ->
          Z.testbit (maskOf (slotCategory sl) d) (slotBit sl) = true)
    /\ (forall s, s = Examples.storageAt2 \/ s = Examples.mixed ->
          exists s' log',
            apply Examples.header Examples.env s d = Some (s', log')
            /\ forall sl, validSlot sl ->
                 callsAt sl log'
                 = if reached Examples.header sl && occupied s sl
                   then 1%nat else 0%nat).
Proof.
  apply forced_diff_sets_every_bit.
  - unfold consistent. simpl. lia.
  - concrete_narrow.
  - concrete_wellFormed.
  - concrete_wellFormed.
  - reflexivity.
  - reflexivity.
Defined.

(** C5 (as stated) fails: a storage buffer is bound at slot 2 in the
    current snapshot only and a uniform buffer at slot 1 in the target
    only.  The forced mask has both bits set, yet [apply] on the target
    issues no call for the storage slot, and [apply] on the current
    snapshot issues none for the uniform slot: one driver call for two
    occupied binding points. *)
Lemma forced_apply_skips_slots_of_the_other_snapshot :
  makeDiff Examples.header Examples.env Examples.storageAt2 Examples.uniformAt1
    true = Some (StateDiff_t.Build_t 4 2 0 0 0 0 0, [])
  /\ occupied Examples.storageAt2 (BufferSlot GL_SHADER_STORAGE_BUFFER 2) = true
  /\ occupied Examples.uniformAt1 (BufferSlot GL_UNIFORM_BUFFER 1) = true
  /\ apply Examples.header Examples.env Examples.uniformAt1
       (StateDiff_t.Build_t 4 2 0 0 0 0 0)
     = Some (Examples.uniformAt1,
             [GET_GL_ERROR; GET_GL_ERROR;
              BufferObject_bind 2 GL_UNIFORM_BUFFER 1; GET_GL_ERROR])
  /\ callsAt (BufferSlot GL_SHADER_STORAGE_BUFFER 2)
       [GET_GL_ERROR; GET_GL_ERROR;
        BufferObject_bind 2 GL_UNIFORM_BUFFER 1; GET_GL_ERROR] = 0%nat
  /\ apply Examples.header Examples.env Examples.storageAt2
       (StateDiff_t.Build_t 4 2 0 0 0 0 0)
     = Some (Examples.storageAt2,
             [GET_GL_ERROR; BufferObject_bind 1 GL_SHADER_STORAGE_BUFFER 2;
              GET_GL_ERROR; GET_GL_ERROR])
  /\ callsAt (BufferSlot GL_UNIFORM_BUFFER 1)
       [GET_GL_ERROR; BufferObject_bind 1 GL_SHADER_STORAGE_BUFFER 2;
        GET_GL_ERROR; GET_GL_ERROR] = 0%nat.
Proof. repeat split. Qed.

(** ** Compiling a shader object *)

(** C9.  [compile] warns and returns [nullptr] whenever the stored GLSL
    code is empty, whatever the SPIR-V words are: no shader module is
    created and the object is unchanged.  In particular every object
    made from SPIR-V words alone, as by [createVertex], gets [nullptr]
    from [compile], so the branch that reuses the stored SPIR-V is never
    taken for it. *)
Theorem compile_refuses_empty_code CompileGlslToSpv toShortString :
  (forall info,
     ShaderObjectInfo.code info = ""%string ->
     ShaderObjectInfo.compile CompileGlslToSpv toShortString info
     = Some ((None, info),
             [WARN "ShaderObjectInfo: Cannot compile empty code."]))
  /\ (forall stage spirv,
        ShaderObjectInfo.compile CompileGlslToSpv toShortString
          (ShaderObjectInfo.fromSpirv stage spirv)
        = Some ((None, ShaderObjectInfo.fromSpirv stage spirv),
                [WARN "ShaderObjectInfo: Cannot compile empty code."]))
  /\ (forall spirv,
        ShaderObjectInfo.compile CompileGlslToSpv toShortString
          (ShaderObjectInfo.createVertex spirv)
        = Some ((None, ShaderObjectInfo.createVertex spirv),
                [WARN "ShaderObjectInfo: Cannot compile empty code."])).
Proof.
  assert (G : forall info,
             ShaderObjectInfo.code info = ""%string ->
             ShaderObjectInfo.compile CompileGlslToSpv toShortString info
             = Some ((None, info),
                     [WARN "ShaderObjectInfo: Cannot compile empty code."])).
  { intros info E. unfold ShaderObjectInfo.compile. rewrite E. reflexivity. }
  split; [exact G|]. split.
  - intros stage spirv. now apply G.
  - intros spirv. now apply G.
Qed.

Lemma compile_refuses_empty_code_witness :
  ShaderObjectInfo.code (ShaderObjectInfo.createVertex [0x07230203; 0x00010000])
  = ""%string
  /\ ShaderObjectInfo.compile (fun _ _ _ _ => inl [0x07230203]) (fun f => f)
       (ShaderObjectInfo.createVertex [0x07230203; 0x00010000])
     = Some ((None, ShaderObjectInfo.createVertex [0x07230203; 0x00010000]),
             [WARN "ShaderObjectInfo: Cannot compile empty code."]).
Proof.
  split; [reflexivity|].
  apply (proj1 (compile_refuses_empty_code
                  (fun _ _ _ _ => inl [0x07230203]) (fun f => f))).
  reflexivity.
Defined.

(** ** Minimality *)

Lemma Reference_ne_refl r : Reference_ne r r = false.
Proof. destruct r as [n|]; simpl; [now rewrite Nat.eqb_refl|reflexivity]. Qed.

Lemma lookup_buffer_slot s sl b :
  lookup s sl = Some (BufferBound b) -> exists t l, sl = BufferSlot t l.
Proof.
  destruct sl as [t l|u|u]; simpl; [eauto| |];
    destruct (umap.find _ _); discriminate.
Qed.

(** A binding that the peer holds unchanged, and that is not stale, is
    scanned as unchanged. *)
Lemma same_binding_value H env peer sl bd :
  irreflexive H ->
  lookup peer sl = Some bd ->
  (forall b, bd = BufferBound b -> changed env b = false) ->
  scanValue H env peer sl bd = false.
Proof.
  intros [IB II] L F. destruct sl as [t l|u|u]; simpl in L.
  - destruct (umap.find (packKey t l) (buffers peer)) as [b|] eqn:E;
      [|discriminate].
    injection L as <-. simpl. rewrite (F b eq_refl).
    unfold getBufferBinding. rewrite E. apply IB.
  - destruct (umap.find u (textures peer)) as [r|] eqn:E; [|discriminate].
    injection L as <-. simpl. unfold getTexture. rewrite E.
    apply Reference_ne_refl.
  - destruct (umap.find u (images peer)) as [p|] eqn:E; [|discriminate].
    injection L as <-. simpl. unfold getImage. rewrite E. apply II.
Qed.

Lemma lastWrite_const c i ws v :
  (forall w, In w ws -> hits w c i = true -> w_val w = v) ->
  lastWrite c i ws = None \/ lastWrite c i ws = Some v.
Proof.
  intros A. destruct (lastWrite c i ws) as [v'|] eqn:E; [|now left].
  right. apply lastWrite_In in E. destruct E as [w [I [Hh <-]]].
  f_equal. now apply A.
Qed.

Lemma Slot_eq_dec (a b : Slot) : a = b \/ a <> b.
Proof.
  destruct (Slot_eqb a b) eqn:E.
  - left. now apply Slot_eqb_eq.
  - right. intros ->. rewrite (proj2 (Slot_eqb_eq b b) eq_refl) in E.
    discriminate.
Qed.

(** The writes of a scan when the two snapshots agree everywhere but at
    one binding point. *)
Lemma write_value H env self peer sl0 w :
  irreflexive H -> wellFormed self -> wellFormed peer ->
  (forall sl, validSlot sl -> sl <> sl0 -> lookup self sl = lookup peer sl) ->
  fresh env self \/ fresh env peer ->
  In w (writesOf H env self peer false) ->
  exists sl bd,
    validSlot sl /\ lookup self sl = Some bd
    /\ w_cat w = slotCategory sl /\ w_bit w = slotBit sl
    /\ ((sl = sl0 /\ w_val w = scanValue H env peer sl0 bd)
        \/ (sl <> sl0 /\ w_val w = false)).
Proof.
  intros IR Ws Wp AG FR I.
  destruct (write_has_slot H env self peer false w Ws I)
    as [sl [bd [V [L [Hc [Hb Hv]]]]]].
  exists sl, bd. repeat split; try assumption.
  destruct (Slot_eq_dec sl sl0) as [->|N]; [left; now split|].
  right. split; [exact N|]. rewrite Hv. cbn [orb].
  apply same_binding_value; [exact IR|now rewrite <- AG|].
  intros b ->. destruct (lookup_buffer_slot self sl b L) as [t [l ->]].
  destruct FR as [FR|FR].
  - destruct (slot_entry self t l b Ws V L) as [Ib _]. exact (FR _ _ Ib).
  - rewrite (AG _ V N) in L.
    destruct (slot_entry peer t l b Wp V L) as [Ib _]. exact (FR _ _ Ib).
Qed.

Lemma fits_nonneg H env s sl bd :
  wellFormed s -> fits H env s = true -> validSlot sl ->
  lookup s sl = Some bd -> 0 <= slotBit sl.
Proof.
  intros W F V L.
  destruct (slot_has_write H env s s false sl bd W V L) as [w [I [Hc [Hb _]]]].
  unfold fits in F. rewrite forallb_forall in F. specialize (F w I).
  apply in_range_iff in F. lia.
Qed.

(** C6 (as amended).  Let the current snapshot have no stale buffer
    binding, let the target agree with it at every binding point but
    one, and let no other occupied binding point fall on the bit of that
    one.  Then [makeDiff] with [forced = false] returns a mask with no
    bit set other than the bit of that binding point, and this bit is set
    exactly when the scan reports a difference there (the comparison of
    the two bindings reports one, or the target binding is stale): the
    mask of its category then has exactly this one bit, and every other
    mask is zero. *)
Theorem single_difference_sets_only_its_bit H env current target sl0 :
  irreflexive H ->
  wellFormed current -> wellFormed target ->
  fits H env current = true -> fits H env target = true ->
  fresh env current ->
  validSlot sl0 ->
  (forall sl, validSlot sl -> sl <> sl0 -> lookup current sl = lookup target sl) ->
  (forall sl, validSlot sl ->
     occupied current sl || occupied target sl = true ->
     slotCategory sl = slotCategory sl0 -> slotBit sl = slotBit sl0 ->
     sl = sl0) ->
  exists d log,
    makeDiff H env current target false = Some (d, log)
    /\ (forall c i,
          Z.testbit (maskOf c d) i
          = Category_eqb c (slotCategory sl0) && (i =? slotBit sl0)
            && scanned H env current target sl0)
    /\ (scanned H env current target sl0 = true ->
        maskOf (slotCategory sl0) d = 2 ^ slotBit sl0
        /\ forall c, c <> slotCategory sl0 -> maskOf c d = 0).
Proof.
  intros IR Wc Wt Fc Ft FR V0 AG NC.
  destruct (makeDiff_returns H env current target false Fc Ft)
    as [d [log [E [_ B]]]].
  exists d, log. split; [exact E|].
  assert (AG' : forall sl, validSlot sl -> sl <> sl0 ->
                  lookup target sl = lookup current sl).
  { intros sl V N. symmetry. now apply AG. }
  assert (K : forall c i,
             Z.testbit (maskOf c d) i
             = Category_eqb c (slotCategory sl0) && (i =? slotBit sl0)
               && scanned H env current target sl0).
  { intros c i. rewrite B, lastWrite_allWrites.
    (* the writes of either scan that hit the bit *)
    assert (Pt : forall w, In w (writesOf H env target current false) ->
                   hits w c i = true ->
                   (c = slotCategory sl0 /\ i = slotBit sl0
                    /\ exists bd, lookup target sl0 = Some bd
                         /\ w_val w = scanValue H env current sl0 bd)
                   \/ ((c <> slotCategory sl0 \/ i <> slotBit sl0)
                       /\ w_val w = false)).
    { intros w I Hh. apply hits_iff in Hh. destruct Hh as [Hc Hb].
      destruct (write_value H env target current sl0 w IR Wt Wc AG'
                  (or_intror FR) I)
        as [sl [bd [V [L [Hc' [Hb' [[-> Hv]|[N Hv]]]]]]]].
      - left. repeat split; try congruence. now exists bd.
      - right. split; [|exact Hv].
        destruct (Category_eqb c (slotCategory sl0)) eqn:Ec;
          [|left; intros ->; now rewrite Category_eqb_refl in Ec].
        apply Category_eqb_eq in Ec. right. intros Ei. apply N.
        apply NC; try assumption; try congruence.
        rewrite !occupied_lookup, L. apply orb_true_r. }
    assert (Pc : forall w, In w (writesOf H env current target false) ->
                   hits w c i = true ->
                   (c = slotCategory sl0 /\ i = slotBit sl0
                    /\ exists bd, lookup current sl0 = Some bd
                         /\ w_val w = scanValue H env target sl0 bd)
                   \/ ((c <> slotCategory sl0 \/ i <> slotBit sl0)
                       /\ w_val w = false)).
    { intros w I Hh. apply hits_iff in Hh. destruct Hh as [Hc Hb].
      destruct (write_value H env current target sl0 w IR Wc Wt AG
                  (or_introl FR) I)
        as [sl [bd [V [L [Hc' [Hb' [[-> Hv]|[N Hv]]]]]]]].
      - left. repeat split; try congruence. now exists bd.
      - right. split; [|exact Hv].
        destruct (Category_eqb c (slotCategory sl0)) eqn:Ec;
          [|left; intros ->; now rewrite Category_eqb_refl in Ec].
        apply Category_eqb_eq in Ec. right. intros Ei. apply N.
        apply NC; try assumption; try congruence.
        rewrite !occupied_lookup, L. reflexivity. }
    destruct (Category_eqb c (slotCategory sl0) && (i =? slotBit sl0)) eqn:P.
    - apply andb_true_iff in P. destruct P as [Pc0 Pi0].
      apply Category_eqb_eq in Pc0. apply Z.eqb_eq in Pi0. subst c i.
      cbn [andb]. unfold scanned.
      destruct (lookup target sl0) as [bdt|] eqn:Lt.
      + destruct (slot_has_write H env target current false sl0 bdt Wt V0 Lt)
          as [w0 [I0 [Hc0 [Hb0 _]]]].
        rewrite (lastWrite_all _ _ _ (scanValue H env current sl0 bdt) w0 I0);
          [reflexivity|now apply hits_iff|].
        intros w I Hh. destruct (Pt w I Hh) as [[_ [_ [bd [L ->]]]]|[[N|N] _]];
          [congruence|contradiction|contradiction].
      + assert (Nt : lastWrite (slotCategory sl0) (slotBit sl0)
                       (writesOf H env target current false) = None).
        { apply lastWrite_none. apply not_true_is_false. intros X.
          apply existsb_exists in X. destruct X as [w [I Hh]].
          destruct (Pt w I Hh) as [[_ [_ [bd [L _]]]]|[[N|N] _]];
            [discriminate|contradiction|contradiction]. }
        rewrite Nt.
        destruct (lookup current sl0) as [bdc|] eqn:Lc.
        * destruct (slot_has_write H env current target false sl0 bdc Wc V0 Lc)
            as [w0 [I0 [Hc0 [Hb0 _]]]].
          rewrite (lastWrite_all _ _ _ (scanValue H env target sl0 bdc) w0 I0);
            [reflexivity|now apply hits_iff|].
          intros w I Hh.
          destruct (Pc w I Hh) as [[_ [_ [bd [L ->]]]]|[[N|N] _]];
            [congruence|contradiction|contradiction].
        * assert (Nc : lastWrite (slotCategory sl0) (slotBit sl0)
                         (writesOf H env current target false) = None).
          { apply lastWrite_none. apply not_true_is_false. intros X.
            apply existsb_exists in X. destruct X as [w [I Hh]].
            destruct (Pc w I Hh) as [[_ [_ [bd [L _]]]]|[[N|N] _]];
              [discriminate|contradiction|contradiction]. }
          now rewrite Nc.
    - cbn [andb].
      assert (Q : c <> slotCategory sl0 \/ i <> slotBit sl0).
      { apply andb_false_iff in P. destruct P as [P|P].
        - left. intros ->. now rewrite Category_eqb_refl in P.
        - right. now apply Z.eqb_neq. }
      assert (Xt : lastWrite c i (writesOf H env target current false) = None
                   \/ lastWrite c i (writesOf H env target current false)
                      = Some false).
      { apply lastWrite_const. intros w I Hh.
        destruct (Pt w I Hh) as [[Ec [Ei _]]|[_ Hv]]; [|exact Hv].
        destruct Q; contradiction. }
      assert (Xc : lastWrite c i (writesOf H env current target false) = None
                   \/ lastWrite c i (writesOf H env current target false)
                      = Some false).
      { apply lastWrite_const. intros w I Hh.
        destruct (Pc w I Hh) as [[Ec [Ei _]]|[_ Hv]]; [|exact Hv].
        destruct Q; contradiction. }
      destruct Xt as [-> | ->]; [|reflexivity].
      destruct Xc as [-> | ->]; reflexivity. }
  split; [exact K|].
  intros S.
  assert (N0 : 0 <= slotBit sl0).
  { unfold scanned in S.
    destruct (lookup target sl0) as [bd|] eqn:Lt;
      [exact (fits_nonneg H env target sl0 bd Wt Ft V0 Lt)|].
    destruct (lookup current sl0) as [bd|] eqn:Lc; [|discriminate].
    exact (fits_nonneg H env current sl0 bd Wc Fc V0 Lc). }
  split.
  - apply Z.bits_inj'. intros n Nn. rewrite K, S, Category_eqb_refl.
    rewrite Z.pow2_bits_eqb by assumption. cbn [andb].
    rewrite andb_true_r. apply Z.eqb_sym.
  - intros c Nc. apply Z.bits_inj'. intros n Nn. rewrite K.
    destruct (Category_eqb c (slotCategory sl0)) eqn:Ec;
      [apply Category_eqb_eq in Ec; contradiction|].
    now rewrite Z.testbit_0_l.
Qed.

Lemma single_difference_sets_only_its_bit_witness :
  exists d log,
    makeDiff Examples.header Examples.env Examples.storageAt2
      Examples.storageAndUniform false = Some (d, log)
    /\ (forall c i,
          Z.testbit (maskOf c d) i
          = Category_eqb c (slotCategory (BufferSlot GL_UNIFORM_BUFFER 1))
            && (i =? slotBit (BufferSlot GL_UNIFORM_BUFFER 1))
            && scanned Examples.header Examples.env Examples.storageAt2
                 Examples.storageAndUniform (BufferSlot GL_UNIFORM_BUFFER 1))
    /\ (scanned Examples.header Examples.env Examples.storageAt2
          Examples.storageAndUniform (BufferSlot GL_UNIFORM_BUFFER 1) = true ->
        maskOf (slotCategory (BufferSlot GL_UNIFORM_BUFFER 1)) d
        = 2 ^ slotBit (BufferSlot GL_UNIFORM_BUFFER 1)
        /\ forall c, c <> slotCategory (BufferSlot GL_UNIFORM_BUFFER 1) ->
                     maskOf c d = 0).
Proof.
  apply single_difference_sets_only_its_bit.
  - split; intros x; cbn.
    + unfold Examples.BufferBinding_ne.
      now rewrite Reference_ne_refl, Z.eqb_refl.
    + unfold Examples.ImageBindParameters_ne.
      now rewrite Reference_ne_refl, !Z.eqb_refl, !xorb_nilpotent.
  - concrete_wellFormed.
  - concrete_wellFormed.
  - reflexivity.
  - reflexivity.
  - intros k b [E|[]]. now injection E as <- <-.
  - vm_compute. intuition discriminate.
  - intros [t l|u|u] V N; [|reflexivity|reflexivity].
    cbn [lookup Examples.storageAt2 Examples.storageAndUniform
         Examples.onlyBuffers buffers Examples.bound umap.find].
    destruct (packKey GL_SHADER_STORAGE_BUFFER 2 =? packKey t l);
      [reflexivity|].
    destruct (Z.eqb_spec (packKey GL_UNIFORM_BUFFER 1) (packKey t l)) as [E|E];
      [|reflexivity].
    symmetry in E. apply packKey_inj in E; [|apply V|now vm_compute].
    destruct E as [-> ->]. contradiction.
  - intros [t l|u|u] V O C B; [|discriminate C|discriminate C].
    cbn [occupied Examples.storageAt2 Examples.storageAndUniform
         Examples.onlyBuffers buffers Examples.bound umap.find] in O.
    destruct (Z.eqb_spec (packKey GL_SHADER_STORAGE_BUFFER 2) (packKey t l))
      as [E|E].
    + symmetry in E. apply packKey_inj in E; [|apply V|now vm_compute].
      destruct E as [-> ->]. discriminate C.
    + destruct (Z.eqb_spec (packKey GL_UNIFORM_BUFFER 1) (packKey t l))
        as [E'|E']; [|discriminate O].
      symmetry in E'. apply packKey_inj in E'; [|apply V|now vm_compute].
      now destruct E' as [-> ->].
Defined.

(** C6 (as stated) fails: the target adds one array buffer, at location
    0, to a current snapshot that holds a fresh array buffer at location
    1; the two fall on bit 0 of the shared mask, the unchanged binding
    is scanned last, and the change mask has no bit set at all. *)
Lemma single_difference_is_overwritten :
  buffers Examples.twoArrayBuffers
  = Examples.bound 1 GL_ARRAY_BUFFER 0 64 :: buffers Examples.arrayAt1
  /\ textures Examples.twoArrayBuffers = textures Examples.arrayAt1
  /\ images Examples.twoArrayBuffers = images Examples.arrayAt1
  /\ lookup Examples.arrayAt1 (BufferSlot GL_ARRAY_BUFFER 0) = None
  /\ changed Examples.env (snd (Examples.bound 2 GL_ARRAY_BUFFER 1 64)) = false
  /\ makeDiff Examples.header Examples.env Examples.arrayAt1
       Examples.twoArrayBuffers false = Some (StateDiff_t.empty, []).
Proof. repeat split. Qed.

(** ** Idempotence of the reconciliation *)

Lemma refreshed_is_fresh env obj b :
  buffer b = Some obj -> changed env (refreshed env obj b) = false.
Proof.
  intros E. unfold changed, refreshed. cbn. rewrite E.
  now rewrite !Z.eqb_refl.
Qed.

(** Where the entries of the snapshot come from after [apply]. *)
Lemma apply_entries H env s d :
  consistent H -> wellFormed s ->
  exists s' log,
    apply H env s d = Some (s', log)
    /\ wellFormed s'
    /\ (forall k b', In (k, b') (buffers s') ->
          (In (k, b') (buffers s)
           /\ flagged H d (BufferSlot (target b') (location b')) = false)
          \/ (exists b0 obj,
                In (k, b0) (buffers s) /\ buffer b0 = Some obj
                /\ b' = refreshed env obj b0))
    /\ (forall u r, In (u, r) (textures s') -> In (u, r) (textures s))
    /\ (forall u p, In (u, p) (images s') -> In (u, p) (images s)).
Proof.
  intros C [NDb [K [NDt NDi]]].
  destruct (apply_raw H env s d C)
    as [bufs [texs [imgs [log [E [_ [[Ab [Ob Kb]] [[At [Ot Kt]] [Ai [Oi Ki]]]]]]]]]].
  exists (Build_BindingState bufs texs imgs), log.
  split; [exact E|]. cbn [buffers textures images].
  assert (PB : forall k b', In (k, b') bufs ->
             (In (k, b') (buffers s)
              /\ flagged H d (BufferSlot (target b') (location b')) = false)
             \/ (exists b0 obj,
                   In (k, b0) (buffers s) /\ buffer b0 = Some obj
                   /\ b' = refreshed env obj b0)).
  { intros k b' I. pose proof (In_find _ _ _ (Kb NDb) I) as F.
    destruct (in_dec Z.eq_dec k (map bufferKey (bufferVisits H d))) as [V|N].
    - apply in_map_iff in V. destruct V as [tl [<- V]].
      rewrite (Ab tl V) in F. right.
      destruct (umap.find (bufferKey tl) (buffers s)) as [b0|] eqn:F0;
        [|discriminate].
      cbn in F. unfold bufferLive in F.
      destruct (buffer b0) as [obj|] eqn:B0; [|discriminate].
      injection F as <-. exists b0, obj. split; [now apply find_In|].
      now split.
    - rewrite (Ob k N) in F. apply find_In in F. left. split; [exact F|].
      apply not_true_is_false. intros Fl.
      apply (In_bufferVisits H d _ _ (proj1 C)) in Fl. apply N.
      apply in_map_iff. exists (target b', location b'). split; [|exact Fl].
      destruct (K k b' F) as [-> _]. reflexivity. }
  split; [|split; [exact PB|split]].
  - split; [now apply Kb|]. split; [|split; [now apply Kt|now apply Ki]].
    intros k b' I. destruct (PB k b' I) as [[I0 _]|[b0 [obj [I0 [_ ->]]]]].
    + now apply K.
    + apply (K k b0 I0).
  - intros u r I. pose proof (In_find _ _ _ (Kt NDt) I) as F.
    destruct (in_dec Z.eq_dec u (textureVisits H d)) as [V|N].
    + rewrite (At u V) in F.
      destruct (umap.find u (textures s)) as [r0|] eqn:F0; [|discriminate].
      cbn in F. unfold textureLive in F. destruct r0 as [tex|]; [|discriminate].
      injection F as <-. now apply find_In.
    + rewrite (Ot u N) in F. now apply find_In.
  - intros u p I. pose proof (In_find _ _ _ (Ki NDi) I) as F.
    destruct (in_dec Z.eq_dec u (imageVisits H d)) as [V|N].
    + rewrite (Ai u V) in F.
      destruct (umap.find u (images s)) as [p0|] eqn:F0; [|discriminate].
      cbn in F. unfold imageLive in F.
      destruct (ImageBindParameters.getTexture p0); [|discriminate].
      injection F as <-. now apply find_In.
    + rewrite (Oi u N) in F. now apply find_In.
Qed.

Lemma apply_empty H env s :
  apply H env s StateDiff_t.empty = Some (s, [GET_GL_ERROR]).
Proof. destruct s. reflexivity. Qed.

(** A snapshot that agrees with itself and has no stale binding yields
    the empty change mask. *)
Lemma makeDiff_self H env s :
  irreflexive H -> wellFormed s -> fits H env s = true -> fresh env s ->
  exists log,
    makeDiff H env s s false = Some (StateDiff_t.empty, log) /\ calls log = [].
Proof.
  intros IR W F FR.
  destruct (makeDiff_returns H env s s false F F) as [d [log [E [Cl B]]]].
  exists log. split; [|exact Cl]. rewrite E. do 2 f_equal.
  apply StateDiff_ext. intros c i. rewrite B.
  assert (X : lastWrite c i (allWrites H env s s false) = None
              \/ lastWrite c i (allWrites H env s s false) = Some false).
  { apply lastWrite_const. intros w I _. apply In_allWrites in I.
    assert (I' : In w (writesOf H env s s false)) by tauto.
    destruct (write_has_slot H env s s false w W I')
      as [sl [bd [V [L [_ [_ ->]]]]]].
    cbn [orb]. apply same_binding_value; try assumption.
    intros b ->. destruct (lookup_buffer_slot s sl b L) as [t [l ->]].
    destruct (slot_entry s t l b W V L) as [Ib _]. exact (FR _ _ Ib). }
  destruct X as [-> | ->]; destruct c; cbn; now rewrite ?Z.testbit_0_l.
Qed.


(** ** The scenario of the specification, evaluated *)

(** Buffer 1 is requested at storage slot 2 while nothing is bound: the
    reconciliation issues one bind call at that slot. *)
Example scenario_first_bind :
  reconcile Examples.header Examples.env Examples.nothingBound
    Examples.storageAt2 false
  = Some ((Examples.storageAt2, Examples.storageAt2),
          [GET_GL_ERROR; BufferObject_bind 1 GL_SHADER_STORAGE_BUFFER 2;
           GET_GL_ERROR]).
Proof. reflexivity. Qed.

(** The same handle is requested again with the same cached extent: no
    driver call. *)
Example scenario_same_binding :
  reconcile Examples.header Examples.env Examples.storageAt2
    Examples.storageAt2 false
  = Some ((Examples.storageAt2, Examples.storageAt2), [GET_GL_ERROR]).
Proof. reflexivity. Qed.

(** The null buffer is requested at the slot: one unbind call, and the
    snapshot has no entry under the key afterwards. *)
Example scenario_unbind :
  reconcile Examples.header Examples.env Examples.storageAt2
    Examples.nullStorageAt2 false
  = Some ((Examples.nothingBound, Examples.nothingBound),
          [GET_GL_ERROR; BufferObject_unbind GL_SHADER_STORAGE_BUFFER 2;
           GET_GL_ERROR]).
Proof. reflexivity. Qed.

(** The key of a buffer binding splits back into target and location. *)
Example packKey_round_trip :
  packKey GL_UNIFORM_BUFFER 3 mod 2 ^ 32 = GL_UNIFORM_BUFFER
  /\ packKey GL_UNIFORM_BUFFER 3 / 2 ^ 32 = 3.
Proof. split; reflexivity. Qed.

(** ** Further properties of the engine *)

(** *** The shared mask: targets and bits *)

Lemma getBufferTargetBit_cases t :
  (In t sharedTargets
   /\ exists bit, getBufferTargetBit t = Some (bit, []) /\ 0 <= bit < 10
                  /\ getBufferTargetFromBit bit = t)
  \/ (~ In t sharedTargets
      /\ getBufferTargetBit t
         = Some (10, [WARN ("Unknown buffer target " ++ toString t)])).
Proof.
  unfold getBufferTargetBit, sharedTargets.
  destruct (t =? GL_ARRAY_BUFFER) eqn:E0;
    [apply Z.eqb_eq in E0; subst; left; split;
       [cbn; tauto | exists 0; repeat split; lia]|].
  destruct (t =? GL_COPY_READ_BUFFER) eqn:E1;
    [apply Z.eqb_eq in E1; subst; left; split;
       [cbn; tauto | exists 1; repeat split; lia]|].
  destruct (t =? GL_COPY_WRITE_BUFFER) eqn:E2;
    [apply Z.eqb_eq in E2; subst; left; split;
       [cbn; tauto | exists 2; repeat split; lia]|].
  destruct (t =? GL_DISPATCH_INDIRECT_BUFFER) eqn:E3;
    [apply Z.eqb_eq in E3; subst; left; split;
       [cbn; tauto | exists 3; repeat split; lia]|].
  destruct (t =? GL_DRAW_INDIRECT_BUFFER) eqn:E4;
    [apply Z.eqb_eq in E4; subst; left; split;
       [cbn; tauto | exists 4; repeat split; lia]|].
  destruct (t =? GL_ELEMENT_ARRAY_BUFFER) eqn:E5;
    [apply Z.eqb_eq in E5; subst; left; split;
       [cbn; tauto | exists 5; repeat split; lia]|].
  destruct (t =? GL_PIXEL_PACK_BUFFER) eqn:E6;
    [apply Z.eqb_eq in E6; subst; left; split;
       [cbn; tauto | exists 6; repeat split; lia]|].
  destruct (t =? GL_PIXEL_UNPACK_BUFFER) eqn:E7;
    [apply Z.eqb_eq in E7; subst; left; split;
       [cbn; tauto | exists 7; repeat split; lia]|].
  destruct (t =? GL_QUERY_BUFFER) eqn:E8;
    [apply Z.eqb_eq in E8; subst; left; split;
       [cbn; tauto | exists 8; repeat split; lia]|].
  destruct (t =? GL_TEXTURE_BUFFER) eqn:E9;
    [apply Z.eqb_eq in E9; subst; left; split;
       [cbn; tauto | exists 9; repeat split; lia]|].
  right. split; [|reflexivity].
  apply Z.eqb_neq in E0, E1, E2, E3, E4, E5, E6, E7, E8, E9.
  cbn. intuition congruence.
Qed.

Lemma fromBit_shared i : 0 <= i < 10 -> In (getBufferTargetFromBit i) sharedTargets.
Proof.
  intros R.
  assert (C : i = 0 \/ i = 1 \/ i = 2 \/ i = 3 \/ i = 4 \/ i = 5 \/ i = 6
              \/ i = 7 \/ i = 8 \/ i = 9) by lia.
  unfold sharedTargets.
  repeat (destruct C as [C|C]; [subst; cbn; tauto|]). subst; cbn; tauto.
Qed.

(** X1. Each of the bits 0 to 9 of the shared mask names a target that
    [getBufferTargetBit] maps back to the same bit, without a diagnostic,
    and that the [switch] of [makeDiff] sends to the shared mask. *)
Theorem bit_to_target_round_trip i :
  0 <= i < 10 ->
  getBufferTargetBit (getBufferTargetFromBit i) = Some (i, [])
  /\ bufferCategory (getBufferTargetFromBit i) = OTHER.
Proof.
  intros R. split; [|apply fromBit_category].
  assert (C : i = 0 \/ i = 1 \/ i = 2 \/ i = 3 \/ i = 4 \/ i = 5 \/ i = 6
              \/ i = 7 \/ i = 8 \/ i = 9) by lia.
  repeat (destruct C as [C|C]; [subst; reflexivity|]). subst; reflexivity.
Qed.

Lemma bit_to_target_round_trip_witness :
  0 <= 7 < 10
  /\ getBufferTargetBit (getBufferTargetFromBit 7) = Some (7, [])
  /\ bufferCategory (getBufferTargetFromBit 7) = OTHER.
Proof. split; [lia | apply (bit_to_target_round_trip 7); lia]. Defined.

(** X2. When [getBufferTargetBit] gives a target a bit other than the
    sentinel 10, it warns about nothing, [getBufferTargetFromBit] gives
    the target back from the bit, and no other target has that bit. *)
Theorem target_to_bit_round_trip t bit log :
  getBufferTargetBit t = Some (bit, log) ->
  bit <> 10 ->
  getBufferTargetFromBit bit = t
  /\ log = []
  /\ 0 <= bit < 10
  /\ forall t' log', getBufferTargetBit t' = Some (bit, log') -> t' = t.
Proof.
  intros E N.
  destruct (getBufferTargetBit_cases t) as [[_ [b [E' [R F]]]]|[_ E']];
    rewrite E' in E; inversion E; subst; [|congruence].
  repeat split; try lia.
  intros t' log' E2.
  destruct (getBufferTargetBit_cases t') as [[_ [b' [E3 [R' F']]]]|[_ E3]];
    rewrite E3 in E2; inversion E2; subst; [reflexivity | lia].
Qed.

Lemma target_to_bit_round_trip_witness :
  getBufferTargetBit GL_QUERY_BUFFER = Some (8, [])
  /\ 8 <> 10
  /\ getBufferTargetFromBit 8 = GL_QUERY_BUFFER
  /\ ([] : list Event) = []
  /\ 0 <= 8 < 10
  /\ forall t' log', getBufferTargetBit t' = Some (8, log') -> t' = GL_QUERY_BUFFER.
Proof.
  split; [reflexivity|]. split; [lia|].
  apply (target_to_bit_round_trip GL_QUERY_BUFFER 8 []); [reflexivity | lia].
Defined.

(** X3. [getBufferTargetBit] never raises and its result is a position
    of an 11-bit mask; it is the sentinel 10 exactly for a target that is
    none of the ten shared ones, and exactly then one warning naming the
    target is emitted. *)
Theorem target_bit_is_total_and_bounded t :
  exists bit log,
    getBufferTargetBit t = Some (bit, log)
    /\ 0 <= bit <= 10
    /\ (bit = 10 <-> ~ In t sharedTargets)
    /\ log = (if bit =? 10
              then [WARN ("Unknown buffer target " ++ toString t)]
              else []).
Proof.
  destruct (getBufferTargetBit_cases t) as [[I [b [E [R F]]]]|[I E]].
  - exists b, []. split; [exact E|]. split; [lia|]. split.
    + split; [lia | tauto].
    + destruct (b =? 10) eqn:B; [apply Z.eqb_eq in B; lia | reflexivity].
  - exists 10, [WARN ("Unknown buffer target " ++ toString t)].
    split; [exact E|]. split; [lia|]. split; [tauto | reflexivity].
Qed.

(** X4. For a texture whose components are signed or unsigned bytes
    [convertImageFormat] never returns one of the unsized formats
    [GL_RED], [GL_RG], [GL_RGB], [GL_RGBA]; and whenever its result is not
    the internal format of the texture, the texture has byte components,
    an unsized internal format and the result is a sized 8-bit format. *)
Theorem convertImageFormat_sizes_byte_formats tex :
  (In (glLocalDataType (pixelFormat tex)) byteTypes ->
   ~ In (convertImageFormat tex) unsizedFormats)
  /\ (convertImageFormat tex <> glInternalFormat (pixelFormat tex) ->
      In (glLocalDataType (pixelFormat tex)) byteTypes
      /\ In (glInternalFormat (pixelFormat tex)) unsizedFormats
      /\ In (convertImageFormat tex) sizedFormats).
Proof.
  unfold convertImageFormat, byteTypes, unsizedFormats, sizedFormats.
  destruct tex as [id [f ty]]; cbn [pixelFormat glInternalFormat glLocalDataType].
  destruct (Z.eqb_spec ty GL_BYTE); destruct (Z.eqb_spec ty GL_UNSIGNED_BYTE);
    cbn [orb];
    destruct (Z.eqb_spec f GL_RED); destruct (Z.eqb_spec f GL_RG);
    destruct (Z.eqb_spec f GL_RGB); destruct (Z.eqb_spec f GL_RGBA);
    unfold GL_RED, GL_RG, GL_RGB, GL_RGBA, GL_R8, GL_RG8, GL_RGB8, GL_RGBA8,
      GL_BYTE, GL_UNSIGNED_BYTE in *; cbn [In]; split; intros; intuition lia.
Qed.

Lemma convertImageFormat_sizes_byte_formats_witness :
  In GL_UNSIGNED_BYTE byteTypes
  /\ ~ In (convertImageFormat
             (Build_Texture 1 (Build_PixelFormat GL_RGBA GL_UNSIGNED_BYTE)))
          unsizedFormats.
Proof.
  split; [cbn; tauto|].
  apply (convertImageFormat_sizes_byte_formats
           (Build_Texture 1 (Build_PixelFormat GL_RGBA GL_UNSIGNED_BYTE))).
  cbn; tauto.
Defined.

(** *** [bindOrRemoveBuffer] *)

Lemma modify_length {V} k (f : V -> V) (m : umap.t V) :
  List.length (umap.modify k f m) = List.length m.
Proof.
  rewrite <- (length_map fst (umap.modify k f m)), <- (length_map fst m).
  change (List.length (umap.keys (umap.modify k f m)) = List.length (umap.keys m)).
  now rewrite keys_modify.
Qed.

Lemma refreshed_twice env obj b :
  refreshed env obj (refreshed env obj b) = refreshed env obj b.
Proof. reflexivity. Qed.

Lemma bindOrRemoveBuffer_cases env m t l :
  (umap.find (packKey t l) m = None
   /\ bindOrRemoveBuffer env m t l = Some (m, []))
  \/ (exists b obj,
        umap.find (packKey t l) m = Some b /\ buffer b = Some obj
        /\ bindOrRemoveBuffer env m t l
           = Some (umap.modify (packKey t l) (fun _ => refreshed env obj b) m,
                   [BufferObject_bind obj t l]))
  \/ (exists b,
        umap.find (packKey t l) m = Some b /\ buffer b = None
        /\ bindOrRemoveBuffer env m t l
           = Some (umap.erase (packKey t l) m, [BufferObject_unbind t l])).
Proof.
  unfold bindOrRemoveBuffer.
  destruct (umap.find (packKey t l) m) as [b|] eqn:F; [|left; split; reflexivity].
  destruct (buffer b) as [obj|] eqn:B.
  - right; left. exists b, obj. split; [reflexivity|]. split; [exact B|].
    cbn. do 2 f_equal.
    apply (modify_found (packKey t l)
             (fun b0 : BufferBinding =>
                Build_BufferBinding (buffer b0) (target b0) (location b0)
                  (getOffset (bufferObject env obj))
                  (getSize (bufferObject env obj)))
             (fun _ => refreshed env obj b) m b F).
    reflexivity.
  - right; right. exists b. split; [reflexivity|]. split; [exact B|].
    reflexivity.
Qed.

Lemma bindOrRemoveBuffer_frame env m t l :
  exists m' log,
    bindOrRemoveBuffer env m t l = Some (m', log)
    /\ (forall k, k <> packKey t l -> umap.find k m' = umap.find k m)
    /\ (forall k, In k (umap.keys m') -> In k (umap.keys m))
    /\ (List.length m' <= List.length m)%nat
    /\ (List.length log <= 1)%nat
    /\ (forall e, In e log -> slotOfEvent e = Some (BufferSlot t l)).
Proof.
  destruct (bindOrRemoveBuffer_cases env m t l)
    as [[F E]|[[b [obj [F [B E]]]]|[b [F [B E]]]]]; rewrite E.
  - exists m, []. split; [reflexivity|]. split; [reflexivity|].
    split; [auto|]. split; [lia|]. split; [cbn; lia|]. intros e [].
  - eexists _, _. split; [reflexivity|]. split; [|split; [|split; [|split]]].
    + intros k N. now apply find_modify_neq.
    + intros k I. now rewrite keys_modify in I.
    + rewrite modify_length. lia.
    + cbn; lia.
    + intros e [<-|[]]. reflexivity.
  - eexists _, _. split; [reflexivity|]. split; [|split; [|split; [|split]]].
    + intros k N. now apply find_erase_neq.
    + intros k I. unfold umap.keys in *. apply in_map_iff in I.
      destruct I as [e [<- I]]. apply In_erase in I. apply in_map, I.
    + unfold umap.erase. apply filter_length_le.
    + cbn; lia.
    + intros e [<-|[]]. reflexivity.
Qed.

(** X5. [bindOrRemoveBuffer] never raises and touches one binding point
    only: the entries under every other key, hence the bindings of every
    other pair of a 32-bit target and a location, are as before; no key
    is added, the map does not grow, and at most one driver call is
    issued, addressed to the given target and location. *)
Theorem bindOrRemoveBuffer_touches_one_key env m t l :
  exists m' log,
    bindOrRemoveBuffer env m t l = Some (m', log)
    /\ (forall k, k <> packKey t l -> umap.find k m' = umap.find k m)
    /\ (forall t' l', 0 <= t < 2 ^ 32 -> 0 <= t' < 2 ^ 32 ->
          (t', l') <> (t, l) ->
          umap.find (packKey t' l') m' = umap.find (packKey t' l') m)
    /\ (forall k, In k (umap.keys m') -> In k (umap.keys m))
    /\ (List.length m' <= List.length m)%nat
    /\ (List.length log <= 1)%nat
    /\ (forall e, In e log -> slotOfEvent e = Some (BufferSlot t l)).
Proof.
  destruct (bindOrRemoveBuffer_frame env m t l)
    as [m' [log [E [Fr [K [Ln [Lg Ad]]]]]]].
  exists m', log. split; [exact E|]. split; [exact Fr|].
  split; [|auto].
  intros t' l' R R' N. apply Fr. intros X.
  apply packKey_inj in X; [|exact R'|exact R]. destruct X as [-> ->].
  now apply N.
Qed.

(** X6. After [bindOrRemoveBuffer] the key holds no null and no stale
    binding: a binding with a live buffer was bound and now caches the
    live offset and size, its handle, target and location unchanged; a
    binding with a null buffer was unbound and erased; a missing key is
    still missing and nothing was called. *)
Theorem bindOrRemoveBuffer_leaves_live_fresh_binding env m t l m' log :
  bindOrRemoveBuffer env m t l = Some (m', log) ->
  match umap.find (packKey t l) m with
  | Some b =>
      match buffer b with
      | Some obj =>
          umap.find (packKey t l) m' = Some (refreshed env obj b)
          /\ log = [BufferObject_bind obj t l]
      | None =>
          umap.find (packKey t l) m' = None /\ log = [BufferObject_unbind t l]
      end
  | None => umap.find (packKey t l) m' = None /\ log = []
  end
  /\ forall b', umap.find (packKey t l) m' = Some b' ->
       changed env b' = false
       /\ exists obj,
            buffer b' = Some obj
            /\ offset b' = getOffset (bufferObject env obj)
            /\ size b' = getSize (bufferObject env obj).
Proof.
  intros E0.
  destruct (bindOrRemoveBuffer_cases env m t l)
    as [[F E]|[[b [obj [F [B E]]]]|[b [F [B E]]]]];
    rewrite E in E0; inversion E0; subst; clear E0; rewrite F.
  - split; [split; reflexivity|]. intros b' F'. discriminate.
  - rewrite B.
    assert (F' : umap.find (packKey t l)
                   (umap.modify (packKey t l) (fun _ => refreshed env obj b) m)
                 = Some (refreshed env obj b))
      by (rewrite find_modify_eq, F; reflexivity).
    split; [split; [exact F' | reflexivity]|].
    intros b' F2. rewrite F' in F2. inversion F2; subst.
    split; [now apply refreshed_is_fresh|].
    exists obj. cbn. auto.
  - rewrite B. split; [split; [apply find_erase_eq | reflexivity]|].
    intros b' F2. rewrite find_erase_eq in F2. discriminate.
Qed.

Lemma bindOrRemoveBuffer_leaves_live_fresh_binding_witness :
  bindOrRemoveBuffer Examples.env (buffers Examples.staleUniformAt1)
    GL_UNIFORM_BUFFER 1
  = Some (buffers Examples.uniformAt1, [BufferObject_bind 2 GL_UNIFORM_BUFFER 1])
  /\ forall b',
       umap.find (packKey GL_UNIFORM_BUFFER 1) (buffers Examples.uniformAt1)
       = Some b' ->
       changed Examples.env b' = false
       /\ exists obj,
            buffer b' = Some obj
            /\ offset b' = getOffset (bufferObject Examples.env obj)
            /\ size b' = getSize (bufferObject Examples.env obj).
Proof.
  split; [reflexivity|].
  apply (bindOrRemoveBuffer_leaves_live_fresh_binding Examples.env
           (buffers Examples.staleUniformAt1) GL_UNIFORM_BUFFER 1
           (buffers Examples.uniformAt1)
           [BufferObject_bind 2 GL_UNIFORM_BUFFER 1]).
  reflexivity.
Defined.

(** X7. Calling [bindOrRemoveBuffer] again on its own result leaves the
    map as it is; the second call repeats the bind of a live binding and
    issues nothing where the first call unbound or found no entry. *)
Theorem bindOrRemoveBuffer_twice env m t l m1 log1 :
  bindOrRemoveBuffer env m t l = Some (m1, log1) ->
  bindOrRemoveBuffer env m1 t l = Some (m1, filter isBind log1).
Proof.
  intros E0.
  destruct (bindOrRemoveBuffer_cases env m t l)
    as [[F E]|[[b [obj [F [B E]]]]|[b [F [B E]]]]];
    rewrite E in E0; inversion E0; subst; clear E0.
  - exact E.
  - assert (F' : umap.find (packKey t l)
                   (umap.modify (packKey t l) (fun _ => refreshed env obj b) m)
                 = Some (refreshed env obj b))
      by (rewrite find_modify_eq, F; reflexivity).
    destruct (bindOrRemoveBuffer_cases env
                (umap.modify (packKey t l) (fun _ => refreshed env obj b) m) t l)
      as [[F2 E2]|[[b2 [obj2 [F2 [B2 E2]]]]|[b2 [F2 [B2 E2]]]]];
      rewrite F' in F2; inversion F2; subst; clear F2.
    + cbn in B2. rewrite B in B2. inversion B2; subst.
      rewrite E2, refreshed_twice. cbn [filter isBind].
      now rewrite (modify_same (packKey t l) _ (refreshed env obj2 b) F').
    + cbn in B2. congruence.
  - destruct (bindOrRemoveBuffer_cases env (umap.erase (packKey t l) m) t l)
      as [[F2 E2]|[[b2 [obj2 [F2 [B2 E2]]]]|[b2 [F2 [B2 E2]]]]];
      rewrite find_erase_eq in F2; try discriminate.
    exact E2.
Qed.

Lemma bindOrRemoveBuffer_twice_witness :
  bindOrRemoveBuffer Examples.env (buffers Examples.nullStorageAt2)
    GL_SHADER_STORAGE_BUFFER 2
  = Some ([], [BufferObject_unbind GL_SHADER_STORAGE_BUFFER 2])
  /\ bindOrRemoveBuffer Examples.env [] GL_SHADER_STORAGE_BUFFER 2
     = Some ([], filter isBind [BufferObject_unbind GL_SHADER_STORAGE_BUFFER 2]).
Proof.
  split; [reflexivity|].
  apply (bindOrRemoveBuffer_twice Examples.env (buffers Examples.nullStorageAt2)
           GL_SHADER_STORAGE_BUFFER 2 []
           [BufferObject_unbind GL_SHADER_STORAGE_BUFFER 2]).
  reflexivity.
Defined.

(** *** [makeDiff]: when it returns, what it reports, which bits it sets *)

Lemma bind_Some {A B} (m : M A) (f : A -> M B) b log :
  bind m f = Some (b, log) ->
  exists a l1 l2, m = Some (a, l1) /\ f a = Some (b, l2) /\ log = l1 ++ l2.
Proof.
  unfold bind. destruct m as [[a l1]|]; [|discriminate].
  destruct (f a) as [[b' l2]|] eqn:E; [|discriminate].
  intros X; inversion X; subst. exists a, l1, l2. auto.
Qed.

Lemma forEach_log {A S} (f : S -> A -> M S) (w : A -> list Event) :
  (forall s x s' lg, f s x = Some (s', lg) -> lg = w x) ->
  forall l s s' log, forEach f l s = Some (s', log) -> log = flat_map w l.
Proof.
  intros W. induction l as [|x l IH]; intros s s' log E; cbn [forEach] in E.
  - inversion E. reflexivity.
  - apply bind_Some in E. destruct E as [a [l1 [l2 [E1 [E2 ->]]]]].
    cbn [flat_map]. apply W in E1. apply IH in E2. now subst.
Qed.

Lemma set_log width bs pos val x lg :
  bitset.set width bs pos val = Some (x, lg) -> lg = [].
Proof.
  unfold bitset.set. destruct (bitset.in_range width pos); [|discriminate].
  intros E; inversion E. reflexivity.
Qed.

Lemma set_then_ret_log {A} width bs pos val (g : Z -> A) r lg :
  bind (bitset.set width bs pos val) (fun x => ret (g x)) = Some (r, lg) ->
  lg = [].
Proof.
  intros E. apply bind_Some in E. destruct E as [a [l1 [l2 [E1 [E2 ->]]]]].
  apply set_log in E1. inversion E2. subst. reflexivity.
Qed.

Lemma recognised_shared t : recognised t = true <-> In t sharedTargets.
Proof.
  unfold recognised, targetBit.
  destruct (getBufferTargetBit_cases t) as [[I [b [E [R F]]]]|[I E]]; rewrite E.
  - destruct (Z.eqb_spec b 10); [lia|]. cbn [negb].
    split; [intros _; exact I | reflexivity].
  - change (10 =? 10) with true. cbn [negb].
    split; [discriminate | intros I'; now destruct (I I')].
Qed.

Lemma diffBuffer_log H env peer forced d e d' lg :
  diffBuffer H env peer forced d e = Some (d', lg) ->
  lg = unknownWarnings [e].
Proof.
  unfold unknownWarnings. cbn [flat_map]. rewrite app_nil_r.
  unfold diffBuffer, bufferCategory.
  destruct (target (snd e) =? GL_SHADER_STORAGE_BUFFER);
    [apply set_then_ret_log|].
  destruct (target (snd e) =? GL_UNIFORM_BUFFER);
    [apply set_then_ret_log|].
  destruct (target (snd e) =? GL_ATOMIC_COUNTER_BUFFER);
    [apply set_then_ret_log|].
  destruct (target (snd e) =? GL_TRANSFORM_FEEDBACK_BUFFER);
    [apply set_then_ret_log|].
  intros E. apply bind_Some in E. destruct E as [bit [l1 [l2 [E1 [E2 ->]]]]].
  apply set_then_ret_log in E2. subst l2. rewrite app_nil_r.
  destruct (recognised (target (snd e))) eqn:R.
  - apply recognised_shared in R.
    destruct (getBufferTargetBit_cases (target (snd e)))
      as [[I [b [E [_ _]]]]|[I E]]; [|tauto].
    rewrite E in E1. now inversion E1.
  - destruct (getBufferTargetBit_cases (target (snd e)))
      as [[I [b [E [_ _]]]]|[I E]].
    + apply recognised_shared in I. congruence.
    + rewrite E in E1. now inversion E1.
Qed.

Lemma unknownWarnings_cons e bs :
  unknownWarnings (e :: bs) = unknownWarnings [e] ++ unknownWarnings bs.
Proof. unfold unknownWarnings. cbn [flat_map]. now rewrite app_nil_r. Qed.

Lemma diffBuffers_log H env peer forced : forall l d d' log,
  forEach (diffBuffer H env peer forced) l d = Some (d', log) ->
  log = unknownWarnings l.
Proof.
  induction l as [|e l IH]; intros d d' log E; cbn [forEach] in E.
  - inversion E. reflexivity.
  - apply bind_Some in E. destruct E as [a [l1 [l2 [E1 [E2 ->]]]]].
    rewrite unknownWarnings_cons.
    apply diffBuffer_log in E1. apply IH in E2. now subst.
Qed.

Lemma flat_map_nil {A B} (l : list A) : flat_map (fun _ => @nil B) l = [].
Proof. induction l; cbn; auto. Qed.

Lemma diffTextures_log H peer forced l d d' log :
  forEach (diffTexture H peer forced) l d = Some (d', log) -> log = [].
Proof.
  intros E. rewrite <- (flat_map_nil l).
  apply (forEach_log (diffTexture H peer forced) (fun _ => []))
    with (s := d) (s' := d'); [|exact E].
  intros s x s' lg. unfold diffTexture. apply set_then_ret_log.
Qed.

Lemma diffImages_log H peer forced l d d' log :
  forEach (diffImage H peer forced) l d = Some (d', log) -> log = [].
Proof.
  intros E. rewrite <- (flat_map_nil l).
  apply (forEach_log (diffImage H peer forced) (fun _ => []))
    with (s := d) (s' := d'); [|exact E].
  intros s x s' lg. unfold diffImage. apply set_then_ret_log.
Qed.

Lemma makeDiff_log H env current target forced d log :
  makeDiff H env current target forced = Some (d, log) ->
  log = unknownWarnings (buffers current) ++ unknownWarnings (buffers target).
Proof.
  unfold makeDiff. intros E.
  apply bind_Some in E. destruct E as [d1 [l1 [r1 [E1 [E ->]]]]].
  apply bind_Some in E. destruct E as [d2 [l2 [r2 [E2 [E ->]]]]].
  apply bind_Some in E. destruct E as [d3 [l3 [r3 [E3 [E ->]]]]].
  apply bind_Some in E. destruct E as [d4 [l4 [r4 [E4 [E ->]]]]].
  apply bind_Some in E. destruct E as [d5 [l5 [r5 [E5 [E ->]]]]].
  apply bind_Some in E. destruct E as [d6 [l6 [r6 [E6 [E ->]]]]].
  inversion E; subst.
  apply diffBuffers_log in E1, E2.
  apply diffTextures_log in E3, E4. apply diffImages_log in E5, E6.
  subst. now rewrite !app_nil_r.
Qed.

Lemma positions_writesOf H env self peer forced :
  map (fun w => (w_cat w, w_bit w)) (writesOf H env self peer forced)
  = positions self.
Proof.
  unfold writesOf, positions. rewrite !map_app, !map_map. reflexivity.
Qed.

Lemma In_positions H env self peer forced c i :
  In (c, i) (positions self)
  <-> exists w, In w (writesOf H env self peer forced) /\ hits w c i = true.
Proof.
  rewrite <- (positions_writesOf H env self peer forced), in_map_iff.
  split; intros [w [A B]]; exists w.
  - inversion A; subst. split; [exact B|]. now apply hits_iff.
  - apply hits_iff in B. destruct B; subst. auto.
Qed.

Lemma fits_positions H env s :
  fits H env s = true
  <-> forall c i, In (c, i) (positions s) -> 0 <= i < widthOf H c.
Proof.
  unfold fits. rewrite forallb_forall. split.
  - intros F c i I. apply (In_positions H env s s false) in I.
    destruct I as [w [I Hh]]. apply hits_iff in Hh. destruct Hh; subst.
    apply in_range_iff. now apply F.
  - intros F w I. apply in_range_iff. apply F.
    apply (In_positions H env s s false). exists w. split; [exact I|].
    now apply hits_iff.
Qed.

Lemma positions_in_range H env current target forced d log :
  makeDiff H env current target forced = Some (d, log) ->
  forall c i, In (c, i) (positions current ++ positions target) ->
    0 <= i < widthOf H c.
Proof.
  intros E. apply makeDiff_fits in E. destruct E as [F1 F2].
  intros c i I. apply in_app_or in I.
  destruct I as [I|I]; [apply (fits_positions H env current) |
                         apply (fits_positions H env target)]; assumption.
Qed.

(** X8. [makeDiff] raises [std::out_of_range] exactly when some binding
    of either snapshot has a position outside its mask: a location at or
    beyond the width for the four indexed buffer targets, a unit at or
    beyond the width for textures and images, and, should the shared
    mask be declared with fewer than eleven bits, the bit of a target of
    the shared mask.  Whether it raises depends neither on the forced
    flag nor on what is bound. *)
Theorem makeDiff_raises_exactly_out_of_range H env current target forced :
  (exists d log, makeDiff H env current target forced = Some (d, log))
  <-> (forall c i, In (c, i) (positions current ++ positions target) ->
         0 <= i < widthOf H c).
Proof.
  split.
  - intros [d [log E]].
    exact (positions_in_range H env current target forced d log E).
  - intros P.
    destruct (makeDiff_returns H env current target forced)
      as [d [log [E _]]].
    + apply fits_positions. intros c i I. apply P, in_or_app. now left.
    + apply fits_positions. intros c i I. apply P, in_or_app. now right.
    + now exists d, log.
Qed.

Lemma makeDiff_raises_exactly_out_of_range_witness :
  (exists d log,
     makeDiff Examples.header Examples.env Examples.storageAt2 Examples.mixed
       true = Some (d, log))
  /\ (forall c i,
        In (c, i) (positions Examples.storageAt2 ++ positions Examples.mixed) ->
        0 <= i < widthOf Examples.header c).
Proof.
  assert (X : exists d log,
            makeDiff Examples.header Examples.env Examples.storageAt2
              Examples.mixed true = Some (d, log))
    by (eexists _, _; vm_compute; reflexivity).
  split; [exact X|].
  apply (makeDiff_raises_exactly_out_of_range Examples.header Examples.env
           Examples.storageAt2 Examples.mixed true).
  exact X.
Defined.

(** X9. [makeDiff] issues no driver call and no error probe.  Its only
    output is one warning for every buffer binding with a target that is
    none of the fourteen known ones, first for the bindings of the
    current snapshot, then for those of the target snapshot, in
    iteration order; the forced flag does not change it. *)
Theorem makeDiff_only_warns_about_unknown_targets
    H env current target forced d log :
  makeDiff H env current target forced = Some (d, log) ->
  log = unknownWarnings (buffers current) ++ unknownWarnings (buffers target)
  /\ (forall e, In e log ->
        exists t, e = WARN ("Unknown buffer target " ++ toString t)
                  /\ ~ In t knownTargets
                  /\ In t (map (fun x => Binding.target (snd x))
                             (buffers current ++ buffers target))).
Proof.
  intros E. apply makeDiff_log in E. split; [exact E|]. subst log.
  intros e I. unfold unknownWarnings in I. rewrite <- flat_map_app in I.
  apply in_flat_map in I. destruct I as [x [Ix Ie]].
  exists (Binding.target (snd x)).
  destruct (bufferCategory_cases (Binding.target (snd x)))
    as [[_ C]|[[_ C]|[[_ C]|[[_ C]|[N1 [N2 [N3 [N4 C]]]]]]]];
    rewrite C in Ie; try (now destruct Ie).
  destruct (recognised (Binding.target (snd x))) eqn:R; [now destruct Ie|].
  destruct Ie as [<-|[]]. split; [reflexivity|]. split.
  - intros K. assert (S : ~ In (Binding.target (snd x)) sharedTargets).
    { intros S. apply recognised_shared in S. congruence. }
    apply S. unfold knownTargets in K. unfold sharedTargets.
    cbn [In] in *. intuition congruence.
  - apply in_map_iff. exists x. auto.
Qed.

Lemma makeDiff_only_warns_about_unknown_targets_witness :
  makeDiff Examples.header Examples.env Examples.staleParameterBuffer
    Examples.staleParameterBuffer false
  = Some (StateDiff_t.with_other StateDiff_t.empty 1024,
          [WARN "Unknown buffer target 33006";
           WARN "Unknown buffer target 33006"])
  /\ [WARN "Unknown buffer target 33006"; WARN "Unknown buffer target 33006"]
     = unknownWarnings (buffers Examples.staleParameterBuffer)
       ++ unknownWarnings (buffers Examples.staleParameterBuffer).
Proof.
  split; [reflexivity|].
  apply (makeDiff_only_warns_about_unknown_targets Examples.header Examples.env
           Examples.staleParameterBuffer Examples.staleParameterBuffer false
           (StateDiff_t.with_other StateDiff_t.empty 1024)).
  reflexivity.
Defined.

Lemma makeDiff_bits H env current target forced d log :
  makeDiff H env current target forced = Some (d, log) ->
  forall c i,
    Z.testbit (maskOf c d) i
    = match lastWrite c i (allWrites H env current target forced) with
      | Some v => v
      | None => false
      end.
Proof.
  intros E. destruct (makeDiff_fits H env current target forced d log E) as [F1 F2].
  destruct (makeDiff_returns H env current target forced F1 F2)
    as [d' [log' [E' [_ B]]]].
  rewrite E in E'. inversion E'; subst. exact B.
Qed.

Lemma In_positions_all H env current target forced c i :
  In (c, i) (positions current ++ positions target)
  <-> exists w, In w (allWrites H env current target forced)
                /\ hits w c i = true.
Proof.
  rewrite in_app_iff,
    (In_positions H env current target forced),
    (In_positions H env target current forced).
  split.
  - intros [[w [I Hh]]|[w [I Hh]]]; exists w; (split; [|exact Hh]);
      apply In_allWrites; auto.
  - intros [w [I Hh]]. apply In_allWrites in I.
    destruct I as [I|I]; [left|right]; exists w; auto.
Qed.

Lemma set_bit_has_position H env current target forced d log :
  makeDiff H env current target forced = Some (d, log) ->
  forall c i, Z.testbit (maskOf c d) i = true ->
    In (c, i) (positions current ++ positions target).
Proof.
  intros E c i T.
  rewrite (makeDiff_bits H env current target forced d log E) in T.
  destruct (lastWrite c i (allWrites H env current target forced)) as [v|] eqn:L;
    [|discriminate].
  apply lastWrite_In in L. destruct L as [w [I [Hh _]]].
  apply (In_positions_all H env current target forced). now exists w.
Qed.

(** X10. Every bit that [makeDiff] sets is the position of a binding of
    the current or of the target snapshot and lies within the width of
    its mask.  The mask of a category without any binding comes back
    zero. *)
Theorem makeDiff_flags_only_occupied_positions
    H env current target forced d log :
  makeDiff H env current target forced = Some (d, log) ->
  (forall c i, Z.testbit (maskOf c d) i = true ->
     In (c, i) (positions current ++ positions target)
     /\ 0 <= i < widthOf H c)
  /\ (forall c, (forall i, ~ In (c, i) (positions current ++ positions target)) ->
        maskOf c d = 0).
Proof.
  intros E. split.
  - intros c i T.
    assert (P := set_bit_has_position H env current target forced d log E c i T).
    split; [exact P|].
    exact (positions_in_range H env current target forced d log E c i P).
  - intros c N. apply Z.bits_inj'. intros i _. rewrite Z.bits_0.
    destruct (Z.testbit (maskOf c d) i) eqn:T; [|reflexivity].
    destruct (N i).
    exact (set_bit_has_position H env current target forced d log E c i T).
Qed.

Lemma makeDiff_flags_only_occupied_positions_witness :
  makeDiff Examples.header Examples.env Examples.storageAt2
    Examples.storageAndUniform false
  = Some (StateDiff_t.with_ubos StateDiff_t.empty 2, [])
  /\ (forall c i,
        Z.testbit (maskOf c (StateDiff_t.with_ubos StateDiff_t.empty 2)) i = true ->
        In (c, i) (positions Examples.storageAt2
                   ++ positions Examples.storageAndUniform)
        /\ 0 <= i < widthOf Examples.header c)
  /\ (forall c,
        (forall i, ~ In (c, i) (positions Examples.storageAt2
                                ++ positions Examples.storageAndUniform)) ->
        maskOf c (StateDiff_t.with_ubos StateDiff_t.empty 2) = 0).
Proof.
  split; [reflexivity|].
  apply (makeDiff_flags_only_occupied_positions Examples.header Examples.env
           Examples.storageAt2 Examples.storageAndUniform false
           (StateDiff_t.with_ubos StateDiff_t.empty 2) []).
  reflexivity.
Defined.

(** X11. Forcing only adds bits: every bit of the difference computed
    with [forced = false] is also set in the difference computed with
    [forced = true] for the same snapshots, which returns whenever the
    unforced one does and reports the same warnings. *)
Theorem forced_diff_includes_unforced_diff H env current target d log :
  makeDiff H env current target false = Some (d, log) ->
  exists d',
    makeDiff H env current target true = Some (d', log)
    /\ forall c i, Z.testbit (maskOf c d) i = true ->
                   Z.testbit (maskOf c d') i = true.
Proof.
  intros E.
  destruct (makeDiff_fits H env current target false d log E) as [F1 F2].
  destruct (makeDiff_returns H env current target true F1 F2)
    as [d' [log' [E' [_ B]]]].
  exists d'. split.
  - rewrite E'. do 2 f_equal.
    rewrite (makeDiff_log H env current target true d' log' E').
    now rewrite (makeDiff_log H env current target false d log E).
  - intros c i T. rewrite B.
    apply (set_bit_has_position H env current target false d log E) in T.
    apply (In_positions_all H env current target true) in T.
    destruct T as [w [I Hh]].
    rewrite (lastWrite_all c i (allWrites H env current target true) true w I Hh);
      [reflexivity|].
    intros w' I' _. apply In_allWrites in I'.
    destruct I' as [I'|I']; eapply forced_writes; eassumption.
Qed.

Lemma forced_diff_includes_unforced_diff_witness :
  makeDiff Examples.header Examples.env Examples.storageAt2
    Examples.storageAndUniform false
  = Some (StateDiff_t.with_ubos StateDiff_t.empty 2, [])
  /\ exists d',
       makeDiff Examples.header Examples.env Examples.storageAt2
         Examples.storageAndUniform true = Some (d', [])
       /\ forall c i,
            Z.testbit (maskOf c (StateDiff_t.with_ubos StateDiff_t.empty 2)) i
            = true ->
            Z.testbit (maskOf c d') i = true.
Proof.
  split; [reflexivity|].
  apply (forced_diff_includes_unforced_diff Examples.header Examples.env
           Examples.storageAt2 Examples.storageAndUniform
           (StateDiff_t.with_ubos StateDiff_t.empty 2) []).
  reflexivity.
Defined.

(** ** Unknown buffer targets *)

Lemma lastWrite_nohit c i ws :
  (forall w, In w ws -> hits w c i = false) -> lastWrite c i ws = None.
Proof.
  intros A. apply lastWrite_none. apply not_true_is_false. intros E.
  apply existsb_exists in E. destruct E as [w [I Hh]].
  rewrite (A w I) in Hh. discriminate.
Qed.

Lemma unknown_target_position t :
  ~ In t knownTargets ->
  bufferCategory t = OTHER /\ recognised t = false /\ targetBit t = 10.
Proof.
  intros U.
  assert (C : bufferCategory t = OTHER).
  { destruct (bufferCategory_cases t)
      as [[-> _]|[[-> _]|[[-> _]|[[-> _]|[_ [_ [_ [_ C]]]]]]]];
      try exact C; exfalso; apply U; unfold knownTargets; cbn [In];
      intuition congruence. }
  assert (S : ~ In t sharedTargets).
  { intros S. apply U. unfold knownTargets, sharedTargets in *. cbn [In] in *.
    intuition congruence. }
  split; [exact C|]. split.
  - destruct (recognised t) eqn:R; [|reflexivity].
    apply recognised_shared in R. contradiction.
  - unfold targetBit.
    destruct (getBufferTargetBit_cases t) as [[I _]|[_ E]]; [contradiction|].
    now rewrite E.
Qed.

Lemma known_target_misses_sentinel H env peer forced e :
  In (target (snd e)) knownTargets ->
  hits (bufferWrite H env peer forced e) OTHER 10 = false.
Proof.
  intros K. unfold hits, bufferWrite. cbn [w_cat w_bit]. unfold bufferBit.
  destruct (bufferCategory_cases (target (snd e)))
    as [[_ C]|[[_ C]|[[_ C]|[[_ C]|[N1 [N2 [N3 [N4 C]]]]]]]];
    rewrite C; cbn [Category_eqb andb]; try reflexivity.
  assert (S : In (target (snd e)) sharedTargets).
  { unfold knownTargets, sharedTargets in *. cbn [In] in *.
    intuition congruence. }
  apply recognised_shared in S. unfold recognised in S.
  apply negb_true_iff in S. exact S.
Qed.

(** The value on the sentinel bit after a loop of [makeDiff] whose last
    binding with an unknown target is [e]. *)
Lemma sentinel_after_scan H env self peer forced pre e post :
  buffers self = pre ++ e :: post ->
  ~ In (target (snd e)) knownTargets ->
  (forall x, In x post -> In (target (snd x)) knownTargets) ->
  lastWrite OTHER 10 (writesOf H env self peer forced)
  = Some (w_val (bufferWrite H env peer forced e)).
Proof.
  intros S U K. unfold writesOf. rewrite S.
  rewrite !lastWrite_app.
  rewrite lastWrite_images by discriminate.
  rewrite lastWrite_textures by discriminate.
  rewrite map_app, lastWrite_app. cbn [map lastWrite].
  rewrite (lastWrite_nohit OTHER 10 (map (bufferWrite H env peer forced) post)).
  - destruct (unknown_target_position _ U) as [C [_ T]].
    unfold hits, bufferWrite. cbn [w_cat w_bit w_val]. unfold bufferBit.
    rewrite C, T. reflexivity.
  - intros w I. apply in_map_iff in I. destruct I as [x [<- I]].
    now apply known_target_misses_sentinel, K.
Qed.

Lemma sentinel_untouched H env self peer forced :
  (forall x, In x (buffers self) -> In (target (snd x)) knownTargets) ->
  lastWrite OTHER 10 (writesOf H env self peer forced) = None.
Proof.
  intros K. unfold writesOf. rewrite !lastWrite_app.
  rewrite lastWrite_images by discriminate.
  rewrite lastWrite_textures by discriminate.
  apply lastWrite_nohit. intros w I. apply in_map_iff in I.
  destruct I as [x [<- I]]. now apply known_target_misses_sentinel, K.
Qed.

(** C8.  A buffer binding, of the current or of the target snapshot,
    whose target is none of the targets that the diff engine recognises
    does not stop [makeDiff]: with every binding within the width of its
    mask, [makeDiff] returns, its log, which holds no driver call, has
    the diagnostic for that target, and the binding is recorded on the
    sentinel bit 10 of the shared mask, a bit that mask must have.  The
    bit is set when the diff is forced; in general it carries the value
    computed for the last binding with an unknown target that is
    scanned: for the last such binding of the target snapshot, or of the
    current snapshot when the target has none, it is set exactly when the
    diff is forced, the binding is stale or it differs from what the other
    snapshot holds under its key. *)
Theorem unknown_target_maps_to_sentinel H env current target forced k b :
  fits H env current = true -> fits H env target = true ->
  In (k, b) (buffers current) \/ In (k, b) (buffers target) ->
  ~ In (Binding.target b) knownTargets ->
  exists d log,
    makeDiff H env current target forced = Some (d, log)
    /\ In (WARN ("Unknown buffer target " ++ toString (Binding.target b))) log
    /\ calls log = []
    /\ 10 < OTHER_BITS H
    /\ bufferCategory (Binding.target b) = OTHER /\ bufferBit b = 10
    /\ (forced = true -> Z.testbit (StateDiff_t.other d) 10 = true)
    /\ (forall pre post,
          buffers target = pre ++ (k, b) :: post ->
          (forall e, In e post -> In (Binding.target (snd e)) knownTargets) ->
          Z.testbit (StateDiff_t.other d) 10
          = forced || changed env b
            || BufferBinding_ne H (getBufferBinding H current (_key b)) b)
    /\ (forall pre post,
          buffers current = pre ++ (k, b) :: post ->
          (forall e, In e post -> In (Binding.target (snd e)) knownTargets) ->
          (forall e, In e (buffers target) ->
             In (Binding.target (snd e)) knownTargets) ->
          Z.testbit (StateDiff_t.other d) 10
          = forced || changed env b
            || BufferBinding_ne H (getBufferBinding H target (_key b)) b).
Proof.
  intros Fc Ft Ib U.
  destruct (unknown_target_position _ U) as [C [R T]].
  assert (Bit : bufferBit b = 10) by (unfold bufferBit; now rewrite C).
  destruct (makeDiff_returns H env current target forced Fc Ft)
    as [d [log [E [Cl B]]]].
  exists d, log. split; [exact E|].
  assert (W : forall self peer,
            In (k, b) (buffers self) ->
            In (bufferWrite H env peer forced (k, b))
              (writesOf H env self peer forced)
            /\ hits (bufferWrite H env peer forced (k, b)) OTHER 10 = true).
  { intros self peer I. split.
    - unfold writesOf. apply in_or_app. left. now apply in_map.
    - apply hits_iff. cbn [bufferWrite w_cat w_bit snd]. auto. }
  split; [|split; [exact Cl|split; [|split; [exact C|split; [exact Bit|]]]]].
  - rewrite (makeDiff_log H env current target forced d log E).
    assert (X : forall bs, In (k, b) bs ->
              In (WARN ("Unknown buffer target " ++ toString (Binding.target b)))
                (unknownWarnings bs)).
    { intros bs I. unfold unknownWarnings. apply in_flat_map.
      exists (k, b). split; [exact I|]. cbn [snd]. rewrite C, R. now left. }
    apply in_or_app. destruct Ib as [I|I]; [left|right]; now apply X.
  - assert (P : In (OTHER, 10) (positions current ++ positions target)).
    { apply (In_positions_all H env current target forced).
      destruct Ib as [I|I].
      - destruct (W current target I) as [Iw Hw].
        exists (bufferWrite H env target forced (k, b)).
        split; [apply In_allWrites; now left | exact Hw].
      - destruct (W target current I) as [Iw Hw].
        exists (bufferWrite H env current forced (k, b)).
        split; [apply In_allWrites; now right | exact Hw]. }
    exact (proj2 (positions_in_range H env current target forced d log E
                    OTHER 10 P)).
  - split; [|split].
    + intros ->. change (StateDiff_t.other d) with (maskOf OTHER d). rewrite B.
      assert (X : exists w, In w (allWrites H env current target true)
                            /\ hits w OTHER 10 = true).
      { destruct Ib as [I|I].
        - destruct (W current target I) as [Iw Hw].
          eexists. split; [apply In_allWrites; left; exact Iw | exact Hw].
        - destruct (W target current I) as [Iw Hw].
          eexists. split; [apply In_allWrites; right; exact Iw | exact Hw]. }
      destruct X as [w [Iw Hw]].
      rewrite (lastWrite_all OTHER 10 _ true w Iw Hw); [reflexivity|].
      intros w' I' _. apply In_allWrites in I'.
      destruct I' as [I'|I']; eapply forced_writes; eassumption.
    + intros pre post S K.
      change (StateDiff_t.other d) with (maskOf OTHER d).
      rewrite B, lastWrite_allWrites.
      rewrite (sentinel_after_scan H env target current forced pre (k, b) post
                 S U K).
      reflexivity.
    + intros pre post S K Kt.
      change (StateDiff_t.other d) with (maskOf OTHER d).
      rewrite B, lastWrite_allWrites.
      rewrite (sentinel_untouched H env target current forced Kt).
      rewrite (sentinel_after_scan H env current target forced pre (k, b) post
                 S U K).
      reflexivity.
Qed.

Lemma unknown_target_maps_to_sentinel_witness :
  exists d log,
    makeDiff Examples.header Examples.env Examples.storageAt2
      Examples.staleParameterBuffer false = Some (d, log)
    /\ In (WARN ("Unknown buffer target "
                 ++ toString (target (snd (Examples.bound 1 0x80EE 0 32))))) log
    /\ calls log = []
    /\ 10 < OTHER_BITS Examples.header
    /\ bufferCategory (target (snd (Examples.bound 1 0x80EE 0 32))) = OTHER
    /\ bufferBit (snd (Examples.bound 1 0x80EE 0 32)) = 10
    /\ (false = true -> Z.testbit (StateDiff_t.other d) 10 = true)
    /\ (forall pre post,
          buffers Examples.staleParameterBuffer
          = pre ++ (fst (Examples.bound 1 0x80EE 0 32),
                    snd (Examples.bound 1 0x80EE 0 32)) :: post ->
          (forall e, In e post -> In (target (snd e)) knownTargets) ->
          Z.testbit (StateDiff_t.other d) 10
          = false || changed Examples.env (snd (Examples.bound 1 0x80EE 0 32))
            || BufferBinding_ne Examples.header
                 (getBufferBinding Examples.header Examples.storageAt2
                    (_key (snd (Examples.bound 1 0x80EE 0 32))))
                 (snd (Examples.bound 1 0x80EE 0 32)))
    /\ (forall pre post,
          buffers Examples.storageAt2
          = pre ++ (fst (Examples.bound 1 0x80EE 0 32),
                    snd (Examples.bound 1 0x80EE 0 32)) :: post ->
          (forall e, In e post -> In (target (snd e)) knownTargets) ->
          (forall e, In e (buffers Examples.staleParameterBuffer) ->
             In (target (snd e)) knownTargets) ->
          Z.testbit (StateDiff_t.other d) 10
          = false || changed Examples.env (snd (Examples.bound 1 0x80EE 0 32))
            || BufferBinding_ne Examples.header
                 (getBufferBinding Examples.header Examples.staleParameterBuffer
                    (_key (snd (Examples.bound 1 0x80EE 0 32))))
                 (snd (Examples.bound 1 0x80EE 0 32))).
Proof.
  apply (unknown_target_maps_to_sentinel Examples.header Examples.env
           Examples.storageAt2 Examples.staleParameterBuffer false
           (fst (Examples.bound 1 0x80EE 0 32))
           (snd (Examples.bound 1 0x80EE 0 32))).
  - reflexivity.
  - reflexivity.
  - right. cbn. tauto.
  - cbn. intuition discriminate.
Defined.

(** *** Bits that no other binding point shares *)

Lemma Reference_ne_sym a b : Reference_ne a b = Reference_ne b a.
Proof.
  destruct a as [x|], b as [y|]; cbn; try reflexivity.
  now rewrite Nat.eqb_sym.
Qed.

(** The bit of a binding point whose position no other occupied binding
    point shares: set for an occupied point when forced or when the scan
    reports a change. *)
Lemma uncontended_bit H env current target forced d log sl :
  wellFormed current -> wellFormed target ->
  makeDiff H env current target forced = Some (d, log) ->
  validSlot sl ->
  (forall sl', validSlot sl' ->
     occupied current sl' || occupied target sl' = true ->
     slotCategory sl' = slotCategory sl -> slotBit sl' = slotBit sl ->
     sl' = sl) ->
  Z.testbit (maskOf (slotCategory sl) d) (slotBit sl)
  = (occupied current sl || occupied target sl)
    && (forced || scanned H env current target sl).
Proof.
  intros WC WT E V Iso.
  rewrite (makeDiff_bits H env current target forced d log E), lastWrite_allWrites.
  rewrite !occupied_lookup. unfold scanned.
  assert (Own : forall self peer, wellFormed self ->
            (forall sl', validSlot sl' -> occupied self sl' = true ->
               slotCategory sl' = slotCategory sl -> slotBit sl' = slotBit sl ->
               sl' = sl) ->
            lastWrite (slotCategory sl) (slotBit sl)
              (writesOf H env self peer forced)
            = match lookup self sl with
              | Some bd => Some (forced || scanValue H env peer sl bd)
              | None => None
              end).
  { intros self peer W I.
    destruct (lookup self sl) as [bd|] eqn:L.
    - destruct (slot_has_write H env self peer forced sl bd W V L)
        as [w [Iw [Cw [Bw Vw]]]].
      apply (lastWrite_all _ _ _ _ w Iw); [apply hits_iff; auto|].
      intros w' Iw' Hw'. apply hits_iff in Hw'. destruct Hw' as [C' B'].
      destruct (write_has_slot H env self peer forced w' W Iw')
        as [sl' [bd' [V' [L' [C2 [B2 V2]]]]]].
      assert (sl' = sl).
      { apply I; [exact V' | rewrite occupied_lookup, L'; reflexivity
                 | congruence | congruence]. }
      subst sl'. rewrite L in L'. inversion L'; subst. exact V2.
    - destruct (lastWrite (slotCategory sl) (slotBit sl)
                  (writesOf H env self peer forced)) as [v|] eqn:LW;
        [|reflexivity].
      apply lastWrite_In in LW. destruct LW as [w' [Iw' [Hw' _]]].
      apply hits_iff in Hw'. destruct Hw' as [C' B'].
      destruct (write_has_slot H env self peer forced w' W Iw')
        as [sl' [bd' [V' [L' [C2 [B2 V2]]]]]].
      assert (sl' = sl).
      { apply I; [exact V' | rewrite occupied_lookup, L'; reflexivity
                 | congruence | congruence]. }
      subst sl'. congruence. }
  rewrite (Own target current WT), (Own current target WC).
  - destruct (lookup target sl) as [bt|]; destruct (lookup current sl) as [bc|];
      cbn [orb andb]; reflexivity.
  - intros sl' V' O. apply Iso; [exact V'|]. rewrite O. reflexivity.
  - intros sl' V' O. apply Iso; [exact V'|]. rewrite O. apply orb_true_r.
Qed.

Lemma texture_slot_uncontended u sl' :
  slotCategory sl' = slotCategory (TextureSlot u) ->
  slotBit sl' = slotBit (TextureSlot u) -> sl' = TextureSlot u.
Proof.
  destruct sl' as [t l|u'|u']; cbn [slotCategory slotBit]; intros C B.
  - pose proof (bufferCategory_isBuffer t) as X. rewrite C in X. discriminate.
  - now subst.
  - discriminate.
Qed.

Lemma indexed_category t :
  In t indexedTargets ->
  bufferCategory t <> OTHER
  /\ forall t', bufferCategory t' = bufferCategory t -> t' = t.
Proof.
  intros I. unfold indexedTargets in I. cbn [In] in I.
  destruct I as [<-|[<-|[<-|[<-|[]]]]]; (split; [discriminate|]);
    intros t' C;
    destruct (bufferCategory_cases t')
      as [[-> C']|[[-> C']|[[-> C']|[[-> C']|[_ [_ [_ [_ C']]]]]]]];
    rewrite C' in C; try discriminate C; reflexivity.
Qed.

Lemma indexed_slot_uncontended t l sl' :
  In t indexedTargets ->
  slotCategory sl' = slotCategory (BufferSlot t l) ->
  slotBit sl' = slotBit (BufferSlot t l) -> sl' = BufferSlot t l.
Proof.
  intros I. destruct (indexed_category t I) as [N Inj].
  destruct sl' as [t' l'|u'|u']; cbn [slotCategory]; intros C B.
  - apply Inj in C. subst t'. cbn [slotBit] in B.
    destruct (bufferCategory t); congruence.
  - pose proof (bufferCategory_isBuffer t) as X. rewrite <- C in X. discriminate.
  - pose proof (bufferCategory_isBuffer t) as X. rewrite <- C in X. discriminate.
Qed.

Lemma indexed_slotBit t l : In t indexedTargets -> slotBit (BufferSlot t l) = l.
Proof.
  intros I. destruct (indexed_category t I) as [N _]. cbn [slotBit].
  destruct (bufferCategory t); congruence.
Qed.

Lemma texture_bit H env current target forced d log u :
  wellFormed current -> wellFormed target ->
  makeDiff H env current target forced = Some (d, log) ->
  Z.testbit (StateDiff_t.textures d) u
  = (occupied current (TextureSlot u) || occupied target (TextureSlot u))
    && (forced || Reference_ne (getTexture current u) (getTexture target u)).
Proof.
  intros W1 W2 E0.
  pose proof (uncontended_bit H env current target forced d log (TextureSlot u)
                W1 W2 E0 I
                (fun sl' _ _ => texture_slot_uncontended u sl')) as B.
  cbn [slotCategory slotBit maskOf] in B. rewrite B. clear B.
  unfold scanned, getTexture, Reference in *. cbn [occupied lookup].
  destruct (umap.find u (textures target)) as [rt|] eqn:Ft;
    destruct (umap.find u (textures current)) as [rc|] eqn:Fc;
    cbn [option_map orb andb scanValue]; unfold getTexture, Reference in *;
    rewrite ?Ft, ?Fc; try reflexivity; now rewrite Reference_ne_sym.
Qed.

(** X12. For snapshots with unique keys, bit [u] of the texture mask is
    set exactly when unit [u] has an entry in one of the snapshots and
    either the diff is forced or the two snapshots hold different
    texture handles at [u], a missing entry counting as the null handle.
    Hence, unforced, the bit is the inequality of the handles, and the
    texture mask does not depend on which snapshot is current and which
    is target. *)
Theorem texture_bit_is_handle_inequality H env current target forced d log :
  wellFormed current -> wellFormed target ->
  makeDiff H env current target forced = Some (d, log) ->
  (forall u,
     Z.testbit (StateDiff_t.textures d) u
     = (occupied current (TextureSlot u) || occupied target (TextureSlot u))
       && (forced || Reference_ne (getTexture current u) (getTexture target u)))
  /\ (forced = false ->
      forall u, Z.testbit (StateDiff_t.textures d) u
                = Reference_ne (getTexture current u) (getTexture target u))
  /\ exists d' log',
       makeDiff H env target current forced = Some (d', log')
       /\ StateDiff_t.textures d' = StateDiff_t.textures d.
Proof.
  intros WC WT E.
  split; [exact (fun u => texture_bit H env current target forced d log u WC WT E)|].
  split.
  - intros -> u. rewrite (texture_bit H env current target false d log u WC WT E).
    cbn [orb]. cbn [occupied]. unfold getTexture.
    destruct (umap.find u (textures current)) as [rc|];
      destruct (umap.find u (textures target)) as [rt|]; cbn [orb andb];
      reflexivity.
  - destruct (makeDiff_fits H env current target forced d log E) as [F1 F2].
    destruct (makeDiff_returns H env target current forced F2 F1)
      as [d' [log' [E' _]]].
    exists d', log'. split; [exact E'|].
    apply Z.bits_inj'. intros u _.
    rewrite (texture_bit H env current target forced d log u WC WT E),
      (texture_bit H env target current forced d' log' u WT WC E').
    now rewrite orb_comm, Reference_ne_sym.
Qed.

Lemma texture_bit_is_handle_inequality_witness :
  exists d log,
    makeDiff Examples.header Examples.env Examples.storageAt2 Examples.mixed
      false = Some (d, log)
    /\ (forall u,
          Z.testbit (StateDiff_t.textures d) u
          = (occupied Examples.storageAt2 (TextureSlot u)
             || occupied Examples.mixed (TextureSlot u))
            && (false
                || Reference_ne (getTexture Examples.storageAt2 u)
                     (getTexture Examples.mixed u)))
    /\ (false = false ->
        forall u,
          Z.testbit (StateDiff_t.textures d) u
          = Reference_ne (getTexture Examples.storageAt2 u)
              (getTexture Examples.mixed u))
    /\ exists d' log',
         makeDiff Examples.header Examples.env Examples.mixed
           Examples.storageAt2 false = Some (d', log')
         /\ StateDiff_t.textures d' = StateDiff_t.textures d.
Proof.
  eexists _, _. split; [reflexivity|].
  apply (texture_bit_is_handle_inequality Examples.header Examples.env
           Examples.storageAt2 Examples.mixed false _ []).
  - concrete_wellFormed.
  - concrete_wellFormed.
  - reflexivity.
Defined.

Lemma image_slot_uncontended u sl' :
  slotCategory sl' = slotCategory (ImageSlot u) ->
  slotBit sl' = slotBit (ImageSlot u) -> sl' = ImageSlot u.
Proof.
  destruct sl' as [t l|u'|u']; cbn [slotCategory slotBit]; intros C B.
  - pose proof (bufferCategory_isBuffer t) as X. rewrite C in X. discriminate.
  - discriminate.
  - now subst.
Qed.

Lemma unshared_slot_uncontended sl sl' :
  slotCategory sl <> OTHER ->
  slotCategory sl' = slotCategory sl -> slotBit sl' = slotBit sl -> sl' = sl.
Proof.
  destruct sl as [t l|u|u]; intros N.
  - apply indexed_slot_uncontended. cbn [slotCategory] in N.
    unfold indexedTargets. cbn [In].
    destruct (bufferCategory_cases t)
      as [[-> _]|[[-> _]|[[-> _]|[[-> _]|[_ [_ [_ [_ C]]]]]]]]; tauto.
  - apply texture_slot_uncontended.
  - apply image_slot_uncontended.
Qed.

(** X13. For snapshots with unique keys, every bit outside the shared
    mask is exact.  The bit of a storage, uniform, atomic-counter or
    transform-feedback binding point, of a texture unit or of an image
    unit is set if and only if one of the snapshots has an entry there
    and either the diff is forced or the scan reports a change: the
    binding of the target is stale or differs from the one of the
    current snapshot or, where only the current snapshot has an entry,
    that entry is stale or differs from the unbound one.  No other
    binding can overwrite such a bit. *)
Theorem unshared_bit_is_exact H env current target forced d log sl :
  wellFormed current -> wellFormed target ->
  makeDiff H env current target forced = Some (d, log) ->
  validSlot sl -> slotCategory sl <> OTHER ->
  Z.testbit (maskOf (slotCategory sl) d) (slotBit sl)
  = (occupied current sl || occupied target sl)
    && (forced || scanned H env current target sl).
Proof.
  intros WC WT E V N.
  exact (uncontended_bit H env current target forced d log sl WC WT E V
           (fun sl' _ _ => unshared_slot_uncontended sl sl' N)).
Qed.

Lemma unshared_bit_is_exact_witness :
  exists d log,
    makeDiff Examples.header Examples.env Examples.storageAt2 Examples.mixed
      false = Some (d, log)
    /\ Z.testbit (maskOf (slotCategory (BufferSlot GL_UNIFORM_BUFFER 1)) d)
         (slotBit (BufferSlot GL_UNIFORM_BUFFER 1))
       = (occupied Examples.storageAt2 (BufferSlot GL_UNIFORM_BUFFER 1)
          || occupied Examples.mixed (BufferSlot GL_UNIFORM_BUFFER 1))
         && (false
             || scanned Examples.header Examples.env Examples.storageAt2
                  Examples.mixed (BufferSlot GL_UNIFORM_BUFFER 1)).
Proof.
  eexists _, _. split; [reflexivity|].
  apply (unshared_bit_is_exact Examples.header Examples.env
           Examples.storageAt2 Examples.mixed false _ []
           (BufferSlot GL_UNIFORM_BUFFER 1)).
  - concrete_wellFormed.
  - concrete_wellFormed.
  - reflexivity.
  - now vm_compute.
  - discriminate.
Defined.

(** X14. A stale binding of the target snapshot at a storage, uniform,
    atomic-counter or transform-feedback binding point is always
    detected and repaired: [makeDiff] sets its bit whatever else is
    bound, and, with masks narrower than 256 bits, [apply] on the target
    then returns, issues exactly one bind call for it and stores the
    live offset and size, after which the binding is no longer stale. *)
Theorem stale_indexed_binding_is_rebound H env current target k b obj :
  consistent H -> narrow H -> wellFormed target ->
  fits H env current = true -> fits H env target = true ->
  In (k, b) (buffers target) ->
  In (Binding.target b) indexedTargets ->
  buffer b = Some obj -> changed env b = true ->
  exists d log s' log',
    makeDiff H env current target false = Some (d, log)
    /\ Z.testbit (maskOf (bufferCategory (Binding.target b)) d) (location b) = true
    /\ apply H env target d = Some (s', log')
    /\ filter (addresses (BufferSlot (Binding.target b) (location b))) log'
       = [BufferObject_bind obj (Binding.target b) (location b)]
    /\ umap.find k (buffers s') = Some (refreshed env obj b)
    /\ changed env (refreshed env obj b) = false.
Proof.
  intros Con _ WT FC FT Ib It Bo St.
  destruct (makeDiff_returns H env current target false FC FT)
    as [d [log [E [_ Bits]]]].
  destruct (entry_slot target k b WT Ib) as [V [L K]].
  set (sl := BufferSlot (Binding.target b) (location b)) in *.
  assert (SB : slotBit sl = location b) by (apply indexed_slotBit, It).
  assert (T : Z.testbit (maskOf (slotCategory sl) d) (slotBit sl) = true).
  { rewrite Bits, lastWrite_allWrites.
    destruct (slot_has_write H env target current false sl (BufferBound b) WT V L)
      as [w [Iw [Cw [Bw Vw]]]].
    rewrite (lastWrite_all (slotCategory sl) (slotBit sl)
               (writesOf H env target current false) true w Iw);
      [reflexivity | apply hits_iff; auto |].
    intros w' Iw' Hw'. apply hits_iff in Hw'. destruct Hw' as [C' B'].
    destruct (write_has_slot H env target current false w' WT Iw')
      as [sl' [bd' [V' [L' [C2 [B2 V2]]]]]].
    assert (sl' = sl).
    { unfold sl in *.
      apply indexed_slot_uncontended; [exact It | congruence | congruence]. }
    subst sl'. rewrite L in L'. inversion L'; subst bd'.
    rewrite V2. unfold sl. cbn [scanValue orb]. now rewrite St. }
  assert (Fl : flagged H d sl = true).
  { unfold flagged. rewrite T, andb_true_r. unfold reached, sl.
    destruct (indexed_category (Binding.target b) It) as [N _].
    assert (Rg : bitset.in_range (widthOf H (bufferCategory (Binding.target b)))
                   (location b) = true).
    { apply in_range_iff. rewrite <- SB.
      apply (proj1 (fits_positions H env target) FT).
      apply (In_positions H env target current false).
      destruct (slot_has_write H env target current false sl (BufferBound b)
                  WT V L) as [w [Iw [Cw [Bw _]]]].
      exists w. split; [exact Iw|]. now apply hits_iff. }
    destruct (bufferCategory (Binding.target b)); congruence. }
  destruct (apply_at_slot H env target d Con) as [s' [log' [A At]]].
  destruct (At sl V) as [Calls Look]. rewrite Fl in Calls, Look.
  rewrite L in Calls, Look. cbn [callsFor afterApply resourceOf] in Calls, Look.
  rewrite Bo in Calls, Look. cbn [bindCall rebound sl] in Calls, Look.
  exists d, log, s', log'. split; [exact E|]. split; [rewrite <- SB; exact T|].
  split; [exact A|]. split; [exact Calls|]. split.
  - subst k. cbn [lookup sl] in Look.
    destruct (umap.find (packKey (Binding.target b) (location b)) (buffers s'));
      cbn [option_map] in Look; congruence.
  - now apply refreshed_is_fresh.
Qed.

Lemma stale_indexed_binding_is_rebound_witness :
  exists d log s' log',
    makeDiff Examples.header Examples.env Examples.uniformAt1
      Examples.staleUniformAt1 false = Some (d, log)
    /\ Z.testbit
         (maskOf (bufferCategory
                    (target (snd (Examples.bound 2 GL_UNIFORM_BUFFER 1 32)))) d)
         (location (snd (Examples.bound 2 GL_UNIFORM_BUFFER 1 32))) = true
    /\ apply Examples.header Examples.env Examples.staleUniformAt1 d
       = Some (s', log')
    /\ filter (addresses
                 (BufferSlot
                    (target (snd (Examples.bound 2 GL_UNIFORM_BUFFER 1 32)))
                    (location (snd (Examples.bound 2 GL_UNIFORM_BUFFER 1 32)))))
         log'
       = [BufferObject_bind 2
            (target (snd (Examples.bound 2 GL_UNIFORM_BUFFER 1 32)))
            (location (snd (Examples.bound 2 GL_UNIFORM_BUFFER 1 32)))]
    /\ umap.find (fst (Examples.bound 2 GL_UNIFORM_BUFFER 1 32)) (buffers s')
       = Some (refreshed Examples.env 2
                 (snd (Examples.bound 2 GL_UNIFORM_BUFFER 1 32)))
    /\ changed Examples.env
         (refreshed Examples.env 2
            (snd (Examples.bound 2 GL_UNIFORM_BUFFER 1 32))) = false.
Proof.
  apply (stale_indexed_binding_is_rebound Examples.header Examples.env
           Examples.uniformAt1 Examples.staleUniformAt1
           (fst (Examples.bound 2 GL_UNIFORM_BUFFER 1 32))
           (snd (Examples.bound 2 GL_UNIFORM_BUFFER 1 32)) 2).
  - vm_compute. intuition discriminate.
  - concrete_narrow.
  - concrete_wellFormed.
  - reflexivity.
  - reflexivity.
  - cbn. tauto.
  - cbn. tauto.
  - reflexivity.
  - reflexivity.
Defined.

(** X15. Nothing to do for an unchanged snapshot: when the comparison
    operators report no difference between a binding and itself, the
    difference of a snapshot with unique keys and no stale buffer
    binding against itself is empty, [makeDiff] reports at most
    warnings, and applying the empty difference leaves the snapshot as
    it is after a single error probe. *)
Theorem unchanged_fresh_snapshot_needs_no_calls H env s :
  irreflexive H -> wellFormed s -> fits H env s = true -> fresh env s ->
  exists log,
    makeDiff H env s s false = Some (StateDiff_t.empty, log)
    /\ calls log = []
    /\ apply H env s StateDiff_t.empty = Some (s, [GET_GL_ERROR]).
Proof.
  intros Irr W F Fr.
  destruct (makeDiff_self H env s Irr W F Fr) as [log [E C]].
  exists log. split; [exact E|]. split; [exact C|]. apply apply_empty.
Qed.

Lemma unchanged_fresh_snapshot_needs_no_calls_witness :
  exists log,
    makeDiff Examples.header Examples.env Examples.storageAndUniform
      Examples.storageAndUniform false = Some (StateDiff_t.empty, log)
    /\ calls log = []
    /\ apply Examples.header Examples.env Examples.storageAndUniform
         StateDiff_t.empty
       = Some (Examples.storageAndUniform, [GET_GL_ERROR]).
Proof.
  apply (unchanged_fresh_snapshot_needs_no_calls Examples.header Examples.env
           Examples.storageAndUniform).
  - split; intros x; cbn.
    + unfold Examples.BufferBinding_ne.
      now rewrite Reference_ne_refl, Z.eqb_refl.
    + unfold Examples.ImageBindParameters_ne.
      now rewrite Reference_ne_refl, !Z.eqb_refl, !xorb_nilpotent.
  - concrete_wellFormed.
  - reflexivity.
  - intros k b [E|[E|[]]]; injection E as <- <-; reflexivity.
Defined.

(** *** [apply]: what it leaves alone, when it raises, how it repeats *)

Lemma keys_In {V} (m : umap.t V) k : In k (umap.keys m) <-> exists v, In (k, v) m.
Proof.
  unfold umap.keys. rewrite in_map_iff. split.
  - intros [[k' v] [<- I]]. now exists v.
  - intros [v I]. now exists (k, v).
Qed.

Lemma length_le_by_keys {V} (m' m : umap.t V) :
  NoDup (umap.keys m') ->
  (forall k, In k (umap.keys m') -> In k (umap.keys m)) ->
  (List.length m' <= List.length m)%nat.
Proof.
  intros N I.
  rewrite <- (length_map fst m'), <- (length_map fst m).
  now apply NoDup_incl_length.
Qed.

(** X16. [apply] returns for a header whose limits fit its masks and
    whose masks are narrower than 256 bits, keeps keys unique, and never adds or retargets a binding: every
    buffer binding left in the snapshot was there before under the same
    key with the same handle, target and location, and is either
    untouched or no longer stale; texture and image entries are only
    ever removed, never changed; the snapshot does not grow. *)
Theorem apply_never_adds_or_retargets H env s d :
  consistent H -> narrow H -> wellFormed s ->
  exists s' log,
    apply H env s d = Some (s', log)
    /\ wellFormed s'
    /\ (forall k b', In (k, b') (buffers s') ->
          exists b0,
            In (k, b0) (buffers s)
            /\ buffer b' = buffer b0 /\ target b' = target b0
            /\ location b' = location b0
            /\ (b' = b0 \/ changed env b' = false))
    /\ (forall u r, In (u, r) (Binding.textures s') -> In (u, r) (Binding.textures s))
    /\ (forall u p, In (u, p) (Binding.images s') -> In (u, p) (Binding.images s))
    /\ (entries s' <= entries s)%nat.
Proof.
  intros Con _ W.
  destruct (apply_entries H env s d Con W) as [s' [log [A [W' [B [T Im]]]]]].
  exists s', log. split; [exact A|]. split; [exact W'|].
  assert (B' : forall k b', In (k, b') (buffers s') ->
            exists b0,
              In (k, b0) (buffers s)
              /\ buffer b' = buffer b0 /\ target b' = target b0
              /\ location b' = location b0
              /\ (b' = b0 \/ changed env b' = false)).
  { intros k b' I. destruct (B k b' I) as [[I0 _]|[b0 [obj [I0 [Bo ->]]]]].
    - exists b'. auto 6.
    - exists b0. split; [exact I0|]. cbn. repeat split.
      right. now apply refreshed_is_fresh. }
  split; [exact B'|]. split; [exact T|]. split; [exact Im|].
  destruct W' as [N1 [_ [N2 N3]]]. unfold entries.
  assert (L1 : (List.length (buffers s') <= List.length (buffers s))%nat).
  { apply length_le_by_keys; [exact N1|]. intros k I.
    apply keys_In in I. destruct I as [b' I].
    destruct (B' k b' I) as [b0 [I0 _]]. apply keys_In. now exists b0. }
  assert (L2 : (List.length (Binding.textures s')
                <= List.length (Binding.textures s))%nat).
  { apply length_le_by_keys; [exact N2|]. intros k I.
    apply keys_In in I. destruct I as [r I]. apply keys_In. exists r. now apply T. }
  assert (L3 : (List.length (Binding.images s')
                <= List.length (Binding.images s))%nat).
  { apply length_le_by_keys; [exact N3|]. intros k I.
    apply keys_In in I. destruct I as [r I]. apply keys_In. exists r. now apply Im. }
  lia.
Qed.

Lemma apply_never_adds_or_retargets_witness :
  exists s' log,
    apply Examples.header Examples.env Examples.mixed Examples.everyBit
    = Some (s', log)
    /\ wellFormed s'
    /\ (forall k b', In (k, b') (buffers s') ->
          exists b0,
            In (k, b0) (buffers Examples.mixed)
            /\ buffer b' = buffer b0 /\ target b' = target b0
            /\ location b' = location b0
            /\ (b' = b0 \/ changed Examples.env b' = false))
    /\ (forall u r, In (u, r) (Binding.textures s') ->
                    In (u, r) (Binding.textures Examples.mixed))
    /\ (forall u p, In (u, p) (Binding.images s') ->
                    In (u, p) (Binding.images Examples.mixed))
    /\ (entries s' <= entries Examples.mixed)%nat.
Proof.
  apply (apply_never_adds_or_retargets Examples.header Examples.env
           Examples.mixed Examples.everyBit).
  - vm_compute. intuition discriminate.
  - concrete_narrow.
  - concrete_wellFormed.
Defined.

Section VisitAgain.

Variables V I : Type.
Variable keyOf : I -> Z.
Variable live : I -> V -> option (Event * V).
Variable dead : I -> Event.

Lemma visits_settled vs m :
  (forall i, In i vs -> settled keyOf live m i) ->
  forEach (visit keyOf live dead) vs m
  = Some (m, flat_map (eventsAt keyOf live dead m) vs).
Proof.
  induction vs as [|i vs IH]; intros St; [reflexivity|].
  cbn [forEach flat_map].
  assert (E : visit keyOf live dead m i = Some (m, eventsAt keyOf live dead m i)).
  { specialize (St i (or_introl eq_refl)). unfold settled in St.
    unfold visit, eventsAt.
    destruct (umap.find (keyOf i) m) as [v|] eqn:F; [|reflexivity].
    destruct St as [e L]. rewrite L. cbn.
    now rewrite (modify_same (keyOf i) m v F). }
  rewrite E. cbn [bind]. rewrite IH; [reflexivity|].
  intros j Ij. apply St. now right.
Qed.

(** After a visit of an entry whose binding is repeated by a second
    bind, the entry is settled and a second visit repeats at most the
    call of the first. *)
Lemma visited_is_settled m m' i :
  (forall v e v', live i v = Some (e, v') -> live i v' = Some (e, v')) ->
  umap.find (keyOf i) m' = afterVisit live i (umap.find (keyOf i) m) ->
  settled keyOf live m' i
  /\ forall e, In e (eventsAt keyOf live dead m' i) ->
               In e (eventsAt keyOf live dead m i).
Proof.
  intros Idem F. unfold settled, eventsAt. rewrite F. unfold afterVisit.
  destruct (umap.find (keyOf i) m) as [v|]; [|split; [exact Logic.I | auto]].
  destruct (live i v) as [[e v']|] eqn:L; cbn [option_map snd].
  - rewrite (Idem v e v' L). split; [now exists e | auto].
  - split; [exact Logic.I | intros e []].
Qed.

Lemma visits_total vs : forall m,
  exists m' log, forEach (visit keyOf live dead) vs m = Some (m', log).
Proof.
  induction vs as [|i vs IH]; intros m; [now exists m, []|].
  cbn [forEach]. destruct (visit_spec V I keyOf live dead m i) as [m1 [E _]].
  rewrite E. destruct (IH m1) as [m' [log E']]. cbn [bind]. rewrite E'.
  now eexists _, _.
Qed.

End VisitAgain.

Lemma bufferLive_again env tl v e v' :
  bufferLive env tl v = Some (e, v') -> bufferLive env tl v' = Some (e, v').
Proof.
  unfold bufferLive. destruct (buffer v) as [obj|] eqn:B; [|discriminate].
  intros X; inversion X; subst. cbn [refreshed buffer]. rewrite B. reflexivity.
Qed.

Lemma textureLive_again env u v e v' :
  textureLive env u v = Some (e, v') -> textureLive env u v' = Some (e, v').
Proof.
  unfold textureLive. destruct v as [tex|]; [|discriminate].
  intros X; inversion X; subst. reflexivity.
Qed.

Lemma imageLive_again env u v e v' :
  imageLive env u v = Some (e, v') -> imageLive env u v' = Some (e, v').
Proof.
  unfold imageLive. destruct (ImageBindParameters.getTexture v) as [tex|] eqn:T;
    [|discriminate].
  intros X; inversion X; subst. rewrite T. reflexivity.
Qed.

Lemma In_calls e log : In e (calls log) -> In e log.
Proof. unfold calls. intros I. now apply filter_In in I. Qed.

(** X17. Applying the same difference a second time changes nothing
    more: the second [apply] returns the snapshot that the first one
    left, and every driver call it issues is a call that the first one
    issued already (the binds of the live bindings are repeated, no
    unbind is). *)
Theorem apply_twice_changes_nothing_more H env s d s1 log1 :
  consistent H ->
  apply H env s d = Some (s1, log1) ->
  exists log2,
    apply H env s1 d = Some (s1, log2)
    /\ (forall e, In e (calls log2) -> In e (calls log1))
    /\ (forall sl, validSlot sl -> lookup s1 sl = None ->
          filter (addresses sl) log2 = []).
Proof.
  intros Con A.
  destruct (apply_raw H env s d Con)
    as [bufs [texs [imgs [log [A' [C [[B1 _] [[T1 _] [I1 _]]]]]]]]].
  rewrite A in A'. inversion A'; subst s1 log1. clear A'.
  assert (SB : forall tl, In tl (bufferVisits H d) ->
            settled bufferKey (bufferLive env) bufs tl
            /\ forall e,
                 In e (eventsAt bufferKey (bufferLive env) bufferDead bufs tl) ->
                 In e (eventsAt bufferKey (bufferLive env) bufferDead (buffers s) tl)).
  { intros tl Itl. apply visited_is_settled; [apply bufferLive_again | now apply B1]. }
  assert (ST : forall u, In u (textureVisits H d) ->
            settled (fun i => i) (textureLive env) texs u
            /\ forall e,
                 In e (eventsAt (fun i => i) (textureLive env) textureDead texs u) ->
                 In e (eventsAt (fun i => i) (textureLive env) textureDead
                         (Binding.textures s) u)).
  { intros u Iu. apply visited_is_settled; [apply textureLive_again | now apply T1]. }
  assert (SI : forall u, In u (imageVisits H d) ->
            settled (fun i => i) (imageLive env) imgs u
            /\ forall e,
                 In e (eventsAt (fun i => i) (imageLive env) imageDead imgs u) ->
                 In e (eventsAt (fun i => i) (imageLive env) imageDead
                         (Binding.images s) u)).
  { intros u Iu. apply visited_is_settled; [apply imageLive_again | now apply I1]. }
  pose proof (apply_quiet H env (Build_BindingState bufs texs imgs) d Con) as Q.
  cbn [buffers Binding.textures Binding.images] in Q.
  rewrite (visits_settled _ _ bufferKey (bufferLive env) bufferDead
             (bufferVisits H d) bufs (fun tl Itl => proj1 (SB tl Itl))),
    (visits_settled _ _ (fun i => i) (textureLive env) textureDead
       (textureVisits H d) texs (fun u Iu => proj1 (ST u Iu))),
    (visits_settled _ _ (fun i => i) (imageLive env) imageDead
       (imageVisits H d) imgs (fun u Iu => proj1 (SI u Iu))) in Q.
  cbn [quiet bind ret] in Q.
  apply quiet_Some in Q. destruct Q as [log2 [A2 C2]].
  exists log2. split; [exact A2|].
  assert (Inc : forall e, In e (calls log2) -> In e (calls log)).
  { intros e Ie. rewrite C2 in Ie. rewrite C.
    rewrite !in_app_iff in Ie. rewrite !in_app_iff.
    destruct Ie as [Ie|[Ie|[Ie|[]]]]; apply In_calls, in_flat_map in Ie;
      destruct Ie as [i [Ii Ie]]; [left|right; left|right; right];
      apply in_flat_map; exists i; (split; [exact Ii|]).
    - now apply (proj2 (SB i Ii)).
    - now apply (proj2 (ST i Ii)).
    - now apply (proj2 (SI i Ii)). }
  split; [exact Inc|].
  intros sl V L.
  destruct (apply_at_slot H env (Build_BindingState bufs texs imgs) d Con)
    as [s2 [log2' [A3 At]]].
  rewrite A2 in A3. inversion A3; subst s2 log2'.
  destruct (At sl V) as [Cl _]. rewrite Cl, L. cbn [callsFor].
  now destruct (flagged H d sl).
Qed.

Lemma apply_twice_changes_nothing_more_witness :
  exists s1 log1,
    apply Examples.header Examples.env Examples.mixed Examples.everyBit
    = Some (s1, log1)
    /\ exists log2,
         apply Examples.header Examples.env s1 Examples.everyBit
         = Some (s1, log2)
         /\ (forall e, In e (calls log2) -> In e (calls log1))
         /\ (forall sl, validSlot sl -> lookup s1 sl = None ->
               filter (addresses sl) log2 = []).
Proof.
  eexists _, _. split; [reflexivity|].
  apply (apply_twice_changes_nothing_more Examples.header Examples.env
           Examples.mixed Examples.everyBit).
  - vm_compute. intuition discriminate.
  - reflexivity.
Defined.

(** X18. [apply] only looks at the bits below the bounds of its loops:
    the width of the mask for the four indexed buffer masks, one less
    than the width for the shared mask, and the texture and image binding
    limits.  With masks narrower than 256 bits, [apply] returns for two
    differences that agree on those bits with the same snapshot and the
    same driver calls; so the sentinel bit, and a bit recorded for a
    texture or image unit at or above the binding limit, is never acted
    upon. *)
Theorem bits_beyond_the_loops_are_ignored H env s d d' :
  consistent H -> narrow H ->
  (forall c i, 0 <= i < loopBound H c ->
     Z.testbit (maskOf c d) i = Z.testbit (maskOf c d') i) ->
  exists s' log log',
    apply H env s d = Some (s', log)
    /\ apply H env s d' = Some (s', log')
    /\ calls log = calls log'.
Proof.
  intros Con _ A.
  assert (B : bufferVisits H d = bufferVisits H d').
  { unfold bufferVisits.
    rewrite (setBits_agree (StateDiff_t.ssbos d) (StateDiff_t.ssbos d')
               (SSBO_BITS H) (A SSBO)),
      (setBits_agree (StateDiff_t.ubos d) (StateDiff_t.ubos d')
         (UBO_BITS H) (A UBO)),
      (setBits_agree (StateDiff_t.acbos d) (StateDiff_t.acbos d')
         (ACBO_BITS H) (A ACBO)),
      (setBits_agree (StateDiff_t.tfbos d) (StateDiff_t.tfbos d')
         (TFBO_BITS H) (A TFBO)),
      (setBits_agree (StateDiff_t.other d) (StateDiff_t.other d')
         (OTHER_BITS H - 1) (A OTHER)).
    reflexivity. }
  assert (T : textureVisits H d = textureVisits H d').
  { unfold textureVisits.
    now rewrite (setBits_agree (StateDiff_t.textures d) (StateDiff_t.textures d')
                   (getMaxTextureBindings H) (A TEXTURE)). }
  assert (Im : imageVisits H d = imageVisits H d').
  { unfold imageVisits.
    now rewrite (setBits_agree (StateDiff_t.images d) (StateDiff_t.images d')
                   (getMaxImageBindings H) (A IMAGE)). }
  assert (Q : quiet (apply H env s d) = quiet (apply H env s d'))
    by (rewrite !apply_quiet by assumption; now rewrite B, T, Im).
  destruct (apply_slots H env s d Con) as [s' [log [E _]]].
  rewrite (quiet_of_Some _ _ _ E) in Q. symmetry in Q.
  apply quiet_Some in Q. destruct Q as [log' [E' C']].
  exists s', log, log'. auto.
Qed.

Lemma bits_beyond_the_loops_are_ignored_witness :
  exists s' log log',
    apply Examples.tightLimits Examples.env Examples.mixed Examples.everyBit
    = Some (s', log)
    /\ apply Examples.tightLimits Examples.env Examples.mixed
         Examples.everyReachedBit
       = Some (s', log')
    /\ calls log = calls log'.
Proof.
  apply (bits_beyond_the_loops_are_ignored Examples.tightLimits Examples.env
           Examples.mixed Examples.everyBit Examples.everyReachedBit).
  - vm_compute. intuition discriminate.
  - concrete_narrow.
  - intros c i R.
    assert (All : forall n (P : Z -> bool),
              forallb P (upTo n) = true -> 0 <= i < n -> P i = true).
    { intros n P F Ri. rewrite forallb_forall in F. apply F, In_upTo, Ri. }
    apply eqb_prop.
    apply (All (loopBound Examples.tightLimits c)
             (fun k => Bool.eqb (Z.testbit (maskOf c Examples.everyBit) k)
                         (Z.testbit (maskOf c Examples.everyReachedBit) k)));
      [destruct c; vm_compute; reflexivity | exact R].
Defined.

(** *** When [apply] raises *)

Lemma bind_None_r {A B} (m : M A) (f : A -> M B) :
  (forall a, f a = None) -> bind m f = None.
Proof.
  intros N. unfold bind. destruct m as [[a l]|]; [|reflexivity]. now rewrite N.
Qed.

Lemma bind_total {A B} (m : M A) (f : A -> M B) :
  (exists a l, m = Some (a, l)) ->
  (forall a, exists b l, f a = Some (b, l)) ->
  exists b l, bind m f = Some (b, l).
Proof.
  intros [a [l ->]] F. destruct (F a) as [b [l' E]]. cbn [bind]. rewrite E.
  now eexists _, _.
Qed.

Lemma forEach_raises {A S} (f : S -> A -> M S) x l :
  In x l -> (forall s, f s x = None) -> forall s, forEach f l s = None.
Proof.
  intros I N. induction l as [|y l IH]; [destruct I|]. intros s.
  cbn [forEach]. destruct I as [->|I].
  - now rewrite N.
  - apply bind_None_r. intros a. now apply IH.
Qed.

Lemma any_false mask : bitset.any mask = false <-> mask = 0.
Proof.
  unfold bitset.any. rewrite negb_false_iff. apply Z.eqb_eq.
Qed.

Lemma quiet_total {A} (m : M A) :
  (exists a l, quiet m = Some (a, l)) -> exists a l, m = Some (a, l).
Proof.
  intros [a [l E]]. apply quiet_Some in E. destruct E as [log [E _]].
  now exists a, log.
Qed.

Lemma applyBuffers_total env width mask count targetOf locationOf m :
  count <= width ->
  exists m' log,
    applyBuffers env width mask count targetOf locationOf m = Some (m', log).
Proof.
  intros L. apply quiet_total. rewrite applyBuffers_quiet by exact L.
  destruct (visits_total _ _ bufferKey (bufferLive env) bufferDead
              (map (fun i => (targetOf i, locationOf i)) (setBits mask count)) m)
    as [m' [log E]].
  rewrite E. now eexists _, _.
Qed.

Lemma applyTextures_total H env mask m :
  mask = 0 \/ getMaxTextureBindings H <= TEXTURE_BITS H ->
  exists m' log, applyTextures H env mask m = Some (m', log).
Proof.
  intros [->|L]; [now exists m, []|].
  apply quiet_total. rewrite applyTextures_quiet by exact L.
  destruct (visits_total _ _ (fun i => i) (textureLive env) textureDead
              (setBits mask (getMaxTextureBindings H)) m) as [m' [log E]].
  rewrite E. now eexists _, _.
Qed.

Lemma applyImages_total H env mask m :
  mask = 0 \/ getMaxImageBindings H <= IMAGE_BITS H ->
  exists m' log, applyImages H env mask m = Some (m', log).
Proof.
  intros [->|L]; [now exists m, []|].
  apply quiet_total. rewrite applyImages_quiet by exact L.
  destruct (visits_total _ _ (fun i => i) (imageLive env) imageDead
              (setBits mask (getMaxImageBindings H)) m) as [m' [log E]].
  rewrite E. now eexists _, _.
Qed.

Lemma test_raises width mask : bitset.test width mask width = None.
Proof.
  unfold bitset.test, bitset.in_range. rewrite Z.ltb_irrefl, andb_false_r.
  reflexivity.
Qed.

Lemma applyTextures_raises H env mask m :
  mask <> 0 -> 0 <= TEXTURE_BITS H < getMaxTextureBindings H ->
  applyTextures H env mask m = None.
Proof.
  intros N R. unfold applyTextures.
  destruct (bitset.any mask) eqn:A; [|apply any_false in A; contradiction].
  rewrite (forEach_raises _ (TEXTURE_BITS H)); [reflexivity | |].
  - apply In_upTo. exact R.
  - intros s. now rewrite test_raises.
Qed.

Lemma applyImages_raises H env mask m :
  mask <> 0 -> 0 <= IMAGE_BITS H < getMaxImageBindings H ->
  applyImages H env mask m = None.
Proof.
  intros N R. unfold applyImages.
  destruct (bitset.any mask) eqn:A; [|apply any_false in A; contradiction].
  rewrite (forEach_raises _ (IMAGE_BITS H)); [reflexivity | |].
  - apply In_upTo. exact R.
  - intros s. now rewrite test_raises.
Qed.

(** X19. With masks narrower than 256 bits, [apply] raises
    [std::out_of_range] exactly when it has to test a texture or image
    bit beyond the width of the mask: the texture mask is non-zero and
    [getMaxTextureBindings()] exceeds its width, or the image mask is
    non-zero and [getMaxImageBindings()] exceeds its width.  The five
    buffer passes never raise. *)
Theorem apply_raises_exactly_beyond_mask_width H env s d :
  narrow H ->
  apply H env s d = None
  <-> (StateDiff_t.textures d <> 0
       /\ TEXTURE_BITS H < getMaxTextureBindings H)
      \/ (StateDiff_t.images d <> 0
          /\ IMAGE_BITS H < getMaxImageBindings H).
Proof.
  intros Nw.
  pose proof (Nw TEXTURE) as WT. pose proof (Nw IMAGE) as WI.
  cbn [widthOf] in WT, WI.
  split.
  - intros E.
    destruct (Z.eq_dec (StateDiff_t.textures d) 0) as [T0|T0];
      destruct (Z.eq_dec (StateDiff_t.images d) 0) as [I0|I0];
      destruct (Z_lt_le_dec (TEXTURE_BITS H) (getMaxTextureBindings H)) as [TL|TL];
      destruct (Z_lt_le_dec (IMAGE_BITS H) (getMaxImageBindings H)) as [IL|IL];
      try (left; split; assumption); try (right; split; assumption);
      exfalso;
      assert (X : exists s' log, apply H env s d = Some (s', log));
      try (destruct X as [s' [log X]]; congruence);
      unfold apply;
      (apply bind_total; [now eexists _, _|]; intros _;
       apply bind_total; [apply applyBuffers_total; lia|]; intros b1;
       apply bind_total; [apply applyBuffers_total; lia|]; intros b2;
       apply bind_total; [apply applyBuffers_total; lia|]; intros b3;
       apply bind_total; [apply applyBuffers_total; lia|]; intros b4;
       apply bind_total; [apply applyBuffers_total; lia|]; intros b5;
       apply bind_total; [apply applyTextures_total; auto|]; intros t;
       apply bind_total; [apply applyImages_total; auto|]; intros i;
       now eexists _, _).
  - intros C. unfold apply.
    apply bind_None_r; intros _.
    apply bind_None_r; intros b1. apply bind_None_r; intros b2.
    apply bind_None_r; intros b3. apply bind_None_r; intros b4.
    apply bind_None_r; intros b5.
    destruct C as [[N L]|[N L]].
    + rewrite applyTextures_raises; [reflexivity | exact N | lia].
    + apply bind_None_r; intros t.
      rewrite applyImages_raises; [reflexivity | exact N | lia].
Qed.

Lemma apply_raises_exactly_beyond_mask_width_witness :
  narrow Examples.wideLimits
  /\ (apply Examples.wideLimits Examples.env Examples.mixed Examples.everyBit
      = None
      <-> (StateDiff_t.textures Examples.everyBit <> 0
           /\ TEXTURE_BITS Examples.wideLimits
              < getMaxTextureBindings Examples.wideLimits)
          \/ (StateDiff_t.images Examples.everyBit <> 0
              /\ IMAGE_BITS Examples.wideLimits
                 < getMaxImageBindings Examples.wideLimits)).
Proof.
  assert (N : narrow Examples.wideLimits)
    by (intros c; destruct c; vm_compute; intuition discriminate).
  split; [exact N|].
  apply (apply_raises_exactly_beyond_mask_width Examples.wideLimits
           Examples.env Examples.mixed Examples.everyBit N).
Defined.

(** *** The error probes of [apply] *)

Lemma forEach_forallb {A S} (p : Event -> bool) (f : S -> A -> M S) :
  (forall s x s' lg, f s x = Some (s', lg) -> forallb p lg = true) ->
  forall l s s' log, forEach f l s = Some (s', log) -> forallb p log = true.
Proof.
  intros P. induction l as [|x l IH]; intros s s' log E; cbn [forEach] in E.
  - inversion E. reflexivity.
  - apply bind_Some in E. destruct E as [a [l1 [l2 [E1 [E2 ->]]]]].
    rewrite forallb_app. apply P in E1. apply IH in E2. now rewrite E1, E2.
Qed.

Lemma test_log width mask i b lg :
  bitset.test width mask i = Some (b, lg) -> lg = [].
Proof.
  unfold bitset.test. destruct (bitset.in_range width i); [|discriminate].
  intros E; inversion E. reflexivity.
Qed.

Lemma pass_log {S} (body : S -> Z -> M S) mask l s s' lg :
  (forall s x s' lg, body s x = Some (s', lg) -> forallb isCall lg = true) ->
  (if bitset.any mask
   then s1 <- forEach body l s ;; emit GET_GL_ERROR ;;; ret s1
   else ret s) = Some (s', lg) ->
  passLog mask lg.
Proof.
  intros B E. unfold passLog. destruct (bitset.any mask).
  - apply bind_Some in E. destruct E as [a [l1 [l2 [E1 [E2 ->]]]]].
    cbn in E2. inversion E2; subst.
    exists l1. split; [reflexivity|].
    exact (forEach_forallb isCall body B l s _ l1 E1).
  - inversion E. now exists [].
Qed.

Lemma applyBuffers_log env width mask count targetOf locationOf m m' lg :
  applyBuffers env width mask count targetOf locationOf m = Some (m', lg) ->
  passLog mask lg.
Proof.
  unfold applyBuffers. apply pass_log.
  intros s x s1 l1 E. apply bind_Some in E.
  destruct E as [b [t1 [t2 [E1 [E2 ->]]]]]. apply test_log in E1. subst t1.
  destruct b; [|inversion E2; reflexivity].
  destruct (bindOrRemoveBuffer_cases env s (targetOf x) (locationOf x))
    as [[_ E]|[[b0 [obj [_ [_ E]]]]|[b0 [_ [_ E]]]]];
    rewrite E in E2; inversion E2; reflexivity.
Qed.

Lemma applyTextures_log H env mask m m' lg :
  applyTextures H env mask m = Some (m', lg) -> passLog mask lg.
Proof.
  unfold applyTextures. apply pass_log.
  intros s x s1 l1 E. apply bind_Some in E.
  destruct E as [b [t1 [t2 [E1 [E2 ->]]]]]. apply test_log in E1. subst t1.
  destruct b; [|inversion E2; reflexivity].
  unfold Reference in *.
  destruct (umap.find x s) as [[tex|]|]; cbn in E2; inversion E2; reflexivity.
Qed.

Lemma applyImages_log H env mask m m' lg :
  applyImages H env mask m = Some (m', lg) -> passLog mask lg.
Proof.
  unfold applyImages. apply pass_log.
  intros s x s1 l1 E. apply bind_Some in E.
  destruct E as [b [t1 [t2 [E1 [E2 ->]]]]]. apply test_log in E1. subst t1.
  destruct b; [|inversion E2; reflexivity].
  destruct (umap.find x s) as [p|]; [|inversion E2; reflexivity].
  destruct (ImageBindParameters.getTexture p); cbn in E2; inversion E2;
    reflexivity.
Qed.

Lemma isCall_not_probe cs :
  forallb isCall cs = true ->
  filter isProbe cs = []
  /\ forall e, In e cs -> isProbe e = true \/ isCall e = true.
Proof.
  intros F. rewrite forallb_forall in F. split.
  - induction cs as [|e cs IH]; [reflexivity|]. cbn [filter].
    assert (C : isCall e = true) by (apply F; now left).
    destruct e; try discriminate C; cbn [isProbe]; apply IH;
      intros x Ix; apply F; now right.
  - intros e I. right. now apply F.
Qed.

Lemma passLog_probes mask lg :
  passLog mask lg ->
  filter isProbe lg = (if bitset.any mask then [GET_GL_ERROR] else [])
  /\ forall e, In e lg -> isProbe e = true \/ isCall e = true.
Proof.
  intros [cs [-> F]]. destruct (isCall_not_probe cs F) as [P Q].
  destruct (bitset.any mask); [|split; [reflexivity | intros e []]].
  rewrite filter_app, P. split; [reflexivity|].
  intros e I. apply in_app_or in I. destruct I as [I|[<-|[]]]; auto.
Qed.

(** X20. [apply] probes the driver's error state once on entry and once
    after the pass of every mask that is not zero, whether or not that
    pass issued a call; it emits nothing else beside its bind and
    unbind calls, in particular no warning. *)
Theorem apply_probes_once_per_nonempty_mask H env s d s' log :
  apply H env s d = Some (s', log) ->
  filter isProbe log
  = repeat GET_GL_ERROR
      (1 + List.length (filter (fun c => bitset.any (maskOf c d)) categories))
  /\ hd_error log = Some GET_GL_ERROR
  /\ (forall e, In e log -> isProbe e = true \/ isCall e = true).
Proof.
  unfold apply. intros E.
  apply bind_Some in E. destruct E as [u [l0 [r0 [E0 [E ->]]]]].
  inversion E0; subst l0. clear E0.
  apply bind_Some in E. destruct E as [b1 [l1 [r1 [E1 [E ->]]]]].
  apply bind_Some in E. destruct E as [b2 [l2 [r2 [E2 [E ->]]]]].
  apply bind_Some in E. destruct E as [b3 [l3 [r3 [E3 [E ->]]]]].
  apply bind_Some in E. destruct E as [b4 [l4 [r4 [E4 [E ->]]]]].
  apply bind_Some in E. destruct E as [b5 [l5 [r5 [E5 [E ->]]]]].
  apply bind_Some in E. destruct E as [t6 [l6 [r6 [E6 [E ->]]]]].
  apply bind_Some in E. destruct E as [i7 [l7 [r7 [E7 [E ->]]]]].
  inversion E; subst. clear E.
  apply applyBuffers_log, passLog_probes in E1, E2, E3, E4, E5.
  apply applyTextures_log, passLog_probes in E6.
  apply applyImages_log, passLog_probes in E7.
  destruct E1 as [P1 Q1], E2 as [P2 Q2], E3 as [P3 Q3], E4 as [P4 Q4],
    E5 as [P5 Q5], E6 as [P6 Q6], E7 as [P7 Q7].
  split; [|split; [reflexivity|]].
  - rewrite !filter_app, P1, P2, P3, P4, P5, P6, P7.
    cbn [filter isProbe categories maskOf].
    destruct (bitset.any (StateDiff_t.ssbos d));
      destruct (bitset.any (StateDiff_t.ubos d));
      destruct (bitset.any (StateDiff_t.acbos d));
      destruct (bitset.any (StateDiff_t.tfbos d));
      destruct (bitset.any (StateDiff_t.other d));
      destruct (bitset.any (StateDiff_t.textures d));
      destruct (bitset.any (StateDiff_t.images d)); reflexivity.
  - intros e I. rewrite !in_app_iff in I.
    destruct I as [[<-|[]]|[I|[I|[I|[I|[I|[I|[I|[]]]]]]]]]; auto.
Qed.

Lemma apply_probes_once_per_nonempty_mask_witness :
  exists s' log,
    apply Examples.header Examples.env Examples.nothingBound
      Examples.storageBit2 = Some (s', log)
    /\ filter isProbe log
       = repeat GET_GL_ERROR
           (1 + List.length
                  (filter (fun c => bitset.any (maskOf c Examples.storageBit2))
                     categories))
    /\ hd_error log = Some GET_GL_ERROR
    /\ (forall e, In e log -> isProbe e = true \/ isCall e = true).
Proof.
  eexists _, _. split; [reflexivity|].
  apply (apply_probes_once_per_nonempty_mask Examples.header Examples.env
           Examples.nothingBound Examples.storageBit2 Examples.nothingBound
           [GET_GL_ERROR; GET_GL_ERROR]).
  reflexivity.
Defined.

(** *** Textures, from difference to driver call *)

(** X21. For snapshots with unique keys, a texture unit below the
    binding limit at which the current and the target snapshot hold
    different handles is always flagged by
    the unforced [makeDiff]; with masks narrower than 256 bits [apply]
    on the target returns, and what it does depends on the target's
    entry alone: a live texture is bound once, a null
    entry is unbound once and erased, and when the target has no entry
    for the unit, when only the current snapshot names it, nothing is
    called at all and the unit stays as the driver has it. *)
Theorem changed_texture_is_applied_from_target_entry
    H env current target d log u :
  consistent H -> narrow H -> wellFormed current -> wellFormed target ->
  makeDiff H env current target false = Some (d, log) ->
  0 <= u < getMaxTextureBindings H ->
  Reference_ne (getTexture current u) (getTexture target u) = true ->
  Z.testbit (StateDiff_t.textures d) u = true
  /\ exists s' log',
       apply H env target d = Some (s', log')
       /\ match umap.find u (Binding.textures target) with
          | Some (Some tex) =>
              filter (addresses (TextureSlot u)) log'
              = [glBindTextureUnit u (getGLId (textureObject env tex))]
              /\ umap.find u (Binding.textures s') = Some (Some tex)
          | Some None =>
              filter (addresses (TextureSlot u)) log' = [glBindTextureUnit u 0]
              /\ umap.find u (Binding.textures s') = None
          | None =>
              filter (addresses (TextureSlot u)) log' = []
              /\ umap.find u (Binding.textures s') = None
          end.
Proof.
  intros Con _ WC WT E R Ne.
  assert (T : Z.testbit (StateDiff_t.textures d) u = true).
  { rewrite (texture_bit H env current target false d log u WC WT E), Ne.
    cbn [orb]. rewrite andb_true_r. cbn [occupied].
    unfold getTexture in Ne.
    destruct (umap.find u (Binding.textures current)) as [rc|]; [reflexivity|].
    destruct (umap.find u (Binding.textures target)) as [rt|]; [reflexivity|].
    discriminate Ne. }
  split; [exact T|].
  destruct (apply_at_slot H env target d Con) as [s' [log' [A At]]].
  exists s', log'. split; [exact A|].
  destruct (At (TextureSlot u) I) as [Cl Lk].
  assert (Fl : flagged H d (TextureSlot u) = true).
  { unfold flagged. cbn [reached slotCategory slotBit maskOf]. rewrite T.
    rewrite andb_true_r. now apply in_range_iff. }
  rewrite Fl in Cl, Lk. cbn [lookup] in Cl, Lk.
  destruct (umap.find u (Binding.textures target)) as [[tex|]|];
    cbn [option_map callsFor afterApply resourceOf bindCall unbindCall rebound]
      in Cl, Lk;
    (split; [exact Cl|]);
    destruct (umap.find u (Binding.textures s')); cbn [option_map] in Lk;
    first [discriminate Lk | now inversion Lk | reflexivity].
Qed.

Lemma changed_texture_is_applied_from_target_entry_witness :
  exists d log,
    makeDiff Examples.header Examples.env Examples.mixed Examples.storageAt2
      false = Some (d, log)
    /\ Z.testbit (StateDiff_t.textures d) 0 = true
    /\ exists s' log',
         apply Examples.header Examples.env Examples.storageAt2 d
         = Some (s', log')
         /\ match umap.find 0 (Binding.textures Examples.storageAt2) with
            | Some (Some tex) =>
                filter (addresses (TextureSlot 0)) log'
                = [glBindTextureUnit 0
                     (getGLId (textureObject Examples.env tex))]
                /\ umap.find 0 (Binding.textures s') = Some (Some tex)
            | Some None =>
                filter (addresses (TextureSlot 0)) log' = [glBindTextureUnit 0 0]
                /\ umap.find 0 (Binding.textures s') = None
            | None =>
                filter (addresses (TextureSlot 0)) log' = []
                /\ umap.find 0 (Binding.textures s') = None
            end.
Proof.
  eexists _, _. split; [reflexivity|].
  apply (changed_texture_is_applied_from_target_entry Examples.header
           Examples.env Examples.mixed Examples.storageAt2 _ [] 0).
  - vm_compute. intuition discriminate.
  - concrete_narrow.
  - concrete_wellFormed.
  - concrete_wellFormed.
  - reflexivity.
  - now vm_compute.
  - reflexivity.
Defined.

(** *** The shared mask, where it is exact and what it cannot reach *)

Lemma shared_target t :
  In t sharedTargets ->
  bufferCategory t = OTHER /\ recognised t = true
  /\ getBufferTargetFromBit (targetBit t) = t.
Proof.
  intros I. apply recognised_shared in I.
  destruct (fromBit_targetBit t I) as [F R].
  split; [|split; [exact I | exact F]].
  rewrite <- F. apply fromBit_category.
Qed.

(** X22. For snapshots with unique keys, the shared mask is exact for a
    recognised target that is bound at one location only: when neither
    snapshot has an entry for the
    target at any other location, the bit of the target is set if and
    only if one of the snapshots has an entry at that location and
    either the diff is forced or the scan reports a change.  Bindings of
    other targets never disturb it; only a second location of the same
    target can. *)
Theorem shared_bit_is_exact_for_single_location
    H env current target forced d log t l :
  wellFormed current -> wellFormed target ->
  makeDiff H env current target forced = Some (d, log) ->
  validSlot (BufferSlot t l) -> In t sharedTargets ->
  (forall l', l' <> l ->
     occupied current (BufferSlot t l') = false
     /\ occupied target (BufferSlot t l') = false) ->
  Z.testbit (StateDiff_t.other d) (targetBit t)
  = (occupied current (BufferSlot t l) || occupied target (BufferSlot t l))
    && (forced || scanned H env current target (BufferSlot t l)).
Proof.
  intros WC WT E V Sh Only.
  destruct (shared_target t Sh) as [Cat [Rec From]].
  pose proof (uncontended_bit H env current target forced d log (BufferSlot t l)
                WC WT E V) as B.
  cbn [slotCategory slotBit] in B. rewrite Cat in B. cbn [maskOf] in B.
  apply B. clear B.
  intros [t' l'|u|u] V' O C Bt; cbn [slotCategory slotBit] in C, Bt;
    try discriminate C.
  rewrite C in Bt.
  assert (Rec' : recognised t' = true).
  { unfold recognised in *. now rewrite Bt. }
  destruct (fromBit_targetBit t' Rec') as [F' _].
  assert (t' = t) by congruence. subst t'.
  destruct (Z.eq_dec l' l) as [->|N]; [reflexivity|].
  destruct (Only l' N) as [O1 O2]. rewrite O1, O2 in O. discriminate.
Qed.

Lemma shared_bit_is_exact_for_single_location_witness :
  exists d log,
    makeDiff Examples.header Examples.env Examples.storageAt2 Examples.mixed
      false = Some (d, log)
    /\ Z.testbit (StateDiff_t.other d) (targetBit GL_ELEMENT_ARRAY_BUFFER)
       = (occupied Examples.storageAt2 (BufferSlot GL_ELEMENT_ARRAY_BUFFER 0)
          || occupied Examples.mixed (BufferSlot GL_ELEMENT_ARRAY_BUFFER 0))
         && (false
             || scanned Examples.header Examples.env Examples.storageAt2
                  Examples.mixed (BufferSlot GL_ELEMENT_ARRAY_BUFFER 0)).
Proof.
  eexists _, _. split; [reflexivity|].
  apply (shared_bit_is_exact_for_single_location Examples.header Examples.env
           Examples.storageAt2 Examples.mixed false _ []
           GL_ELEMENT_ARRAY_BUFFER 0).
  - concrete_wellFormed.
  - concrete_wellFormed.
  - reflexivity.
  - now vm_compute.
  - cbn; tauto.
  - intros l' N.
    assert (K : forall t0 l0, 0 <= t0 < 2 ^ 32 ->
              (packKey t0 l0 =? packKey GL_ELEMENT_ARRAY_BUFFER l') = true ->
              t0 = GL_ELEMENT_ARRAY_BUFFER /\ l0 = l').
    { intros t0 l0 R0 X. apply Z.eqb_eq in X.
      apply packKey_inj in X; [exact X | exact R0 | now vm_compute]. }
    cbn [occupied Examples.storageAt2 Examples.mixed Examples.onlyBuffers
         buffers Examples.bound Examples.nullBound umap.find].
    repeat match goal with
           | |- context [packKey ?t0 ?l0 =? packKey GL_ELEMENT_ARRAY_BUFFER l'] =>
               let X := fresh "X" in
               destruct (packKey t0 l0 =? packKey GL_ELEMENT_ARRAY_BUFFER l') eqn:X;
               [apply K in X; [destruct X as [Kt Kl]; first [discriminate Kt | congruence]
                              | now vm_compute]|]
           end.
    split; reflexivity.
Defined.

(** X23. With masks narrower than 256 bits, [apply] reaches the shared
    targets at location 0 only and unknown targets not at all: for a
    buffer target outside the four
    indexed ones, a binding at any other location, and any binding of a
    target that [getBufferTargetBit] does not recognise, is never bound,
    unbound, refreshed or erased, whatever the difference says. *)
Theorem shared_targets_are_applied_at_location_zero_only H env s d t l :
  consistent H -> narrow H -> validSlot (BufferSlot t l) ->
  ~ In t indexedTargets ->
  l <> 0 \/ ~ In t sharedTargets ->
  exists s' log,
    apply H env s d = Some (s', log)
    /\ filter (addresses (BufferSlot t l)) log = []
    /\ umap.find (packKey t l) (buffers s') = umap.find (packKey t l) (buffers s).
Proof.
  intros Con _ V NI Out.
  destruct (apply_at_slot H env s d Con) as [s' [log [A At]]].
  exists s', log. split; [exact A|].
  destruct (At (BufferSlot t l) V) as [Cl Lk].
  assert (Fl : flagged H d (BufferSlot t l) = false).
  { unfold flagged. cbn [reached].
    assert (C : bufferCategory t = OTHER).
    { unfold indexedTargets in NI. cbn [In] in NI.
      destruct (bufferCategory_cases t)
        as [[-> _]|[[-> _]|[[-> _]|[[-> _]|[_ [_ [_ [_ C]]]]]]]]; tauto. }
    rewrite C. destruct Out as [N|N].
    - destruct (Z.eqb_spec l 0); [contradiction|]. now rewrite andb_false_r.
    - destruct (recognised t) eqn:R; [|reflexivity].
      apply recognised_shared in R. contradiction. }
  rewrite Fl in Cl, Lk. split; [exact Cl|].
  cbn [lookup] in Lk.
  destruct (umap.find (packKey t l) (buffers s'));
    destruct (umap.find (packKey t l) (buffers s)); cbn [option_map] in Lk;
    congruence.
Qed.

Lemma shared_targets_are_applied_at_location_zero_only_witness :
  exists s' log,
    apply Examples.header Examples.env Examples.twoArrayBuffers Examples.everyBit
    = Some (s', log)
    /\ filter (addresses (BufferSlot GL_ARRAY_BUFFER 1)) log = []
    /\ umap.find (packKey GL_ARRAY_BUFFER 1) (buffers s')
       = umap.find (packKey GL_ARRAY_BUFFER 1) (buffers Examples.twoArrayBuffers).
Proof.
  apply (shared_targets_are_applied_at_location_zero_only Examples.header
           Examples.env Examples.twoArrayBuffers Examples.everyBit
           GL_ARRAY_BUFFER 1).
  - vm_compute. intuition discriminate.
  - concrete_narrow.
  - now vm_compute.
  - unfold indexedTargets. cbn [In]. intuition discriminate.
  - left. discriminate.
Defined.

(** *** Images, from difference to driver call *)

(** X24. For snapshots with unique keys, an image binding of the target
    snapshot, at a unit below the binding limit, that the comparison
    operator reports as different
    from what the current snapshot holds at the unit is always flagged
    by the unforced [makeDiff]; with masks narrower than 256 bits and a
    level and a layer that fit the [GLint] parameters of the call,
    [apply] on the target then returns and issues exactly one call for
    the unit: for a live texture
    [glBindImageTexture] with the texture's name, the level, the layered
    flag, the layer, the access of [getImageAccess] and the format of
    [convertImageFormat], the entry staying as it is; for a null texture
    the fixed unbinding call, the entry being erased. *)
Theorem changed_image_is_rebound H env current target d log u p :
  consistent H -> narrow H -> wellFormed current -> wellFormed target ->
  makeDiff H env current target false = Some (d, log) ->
  0 <= u < getMaxImageBindings H ->
  umap.find u (Binding.images target) = Some p ->
  0 <= ImageBindParameters.getLevel p < 2 ^ 31 ->
  0 <= ImageBindParameters.getLayer p < 2 ^ 31 ->
  ImageBindParameters_ne H (getImage H current u) p = true ->
  Z.testbit (StateDiff_t.images d) u = true
  /\ exists s' log',
       apply H env target d = Some (s', log')
       /\ match ImageBindParameters.getTexture p with
          | Some tex =>
              filter (addresses (ImageSlot u)) log'
              = [glBindImageTexture u (getGLId (textureObject env tex))
                   (ImageBindParameters.getLevel p)
                   (if ImageBindParameters.getMultiLayer p
                    then GL_TRUE else GL_FALSE)
                   (ImageBindParameters.getLayer p)
                   (getImageAccess p)
                   (convertImageFormat (textureObject env tex))]
              /\ umap.find u (Binding.images s') = Some p
          | None =>
              filter (addresses (ImageSlot u)) log'
              = [glBindImageTexture u 0 0 GL_FALSE 0 GL_READ_WRITE GL_RGBA32F]
              /\ umap.find u (Binding.images s') = None
          end.
Proof.
  intros Con _ WC WT E R F _ _ Ne.
  assert (L : lookup target (ImageSlot u) = Some (ImageBound p))
    by (cbn [lookup]; now rewrite F).
  assert (T : Z.testbit (StateDiff_t.images d) u = true).
  { pose proof (uncontended_bit H env current target false d log (ImageSlot u)
                  WC WT E I
                  (fun sl' _ _ => image_slot_uncontended u sl')) as B.
    cbn [slotCategory slotBit maskOf] in B. rewrite B.
    unfold scanned. rewrite (occupied_lookup target), L.
    cbn [scanValue orb]. rewrite Ne. now rewrite orb_true_r. }
  split; [exact T|].
  destruct (apply_at_slot H env target d Con) as [s' [log' [A At]]].
  exists s', log'. split; [exact A|].
  destruct (At (ImageSlot u) I) as [Cl Lk].
  assert (Fl : flagged H d (ImageSlot u) = true).
  { unfold flagged. cbn [reached slotCategory slotBit maskOf]. rewrite T.
    rewrite andb_true_r. now apply in_range_iff. }
  rewrite Fl, L in Cl, Lk. cbn [callsFor afterApply resourceOf] in Cl, Lk.
  destruct (ImageBindParameters.getTexture p) as [tex|];
    cbn [bindCall unbindCall rebound] in Cl, Lk; (split; [exact Cl|]);
    cbn [lookup] in Lk;
    destruct (umap.find u (Binding.images s')); cbn [option_map] in Lk;
    first [discriminate Lk | now inversion Lk | reflexivity].
Qed.

Lemma changed_image_is_rebound_witness :
  exists d log,
    makeDiff Examples.header Examples.env Examples.storageAt2 Examples.mixed
      false = Some (d, log)
    /\ Z.testbit (StateDiff_t.images d) 1 = true
    /\ exists s' log',
         apply Examples.header Examples.env Examples.mixed d = Some (s', log')
         /\ filter (addresses (ImageSlot 1)) log'
            = [glBindImageTexture 1 7 0 GL_FALSE 0 GL_READ_ONLY GL_RGBA8]
         /\ umap.find 1 (Binding.images s')
            = Some (ImageBindParameters.Build_t (Some 6%nat) 0 0 false true false).
Proof.
  eexists _, _. split; [reflexivity|].
  apply (changed_image_is_rebound Examples.header Examples.env
           Examples.storageAt2 Examples.mixed _ [] 1
           (ImageBindParameters.Build_t (Some 6%nat) 0 0 false true false)).
  - vm_compute. intuition discriminate.
  - concrete_narrow.
  - concrete_wellFormed.
  - concrete_wellFormed.
  - reflexivity.
  - now vm_compute.
  - reflexivity.
  - now vm_compute.
  - now vm_compute.
  - reflexivity.
Defined.

(** ** Idempotence of the reconciliation, continued *)

Section VisitFilter.

Variables V I : Type.
Variable keyOf : I -> Z.
Variable live : I -> V -> option (Event * V).
Variable dead : I -> Event.
Variable p : Z * V -> bool.

Lemma filter_modify k (f : V -> V) (m : umap.t V) :
  (forall e, fst e = k -> p e = false) ->
  filter p (umap.modify k f m) = filter p m.
Proof.
  intros N. induction m as [|[k' v] m IH]; [reflexivity|].
  cbn [umap.modify]. destruct (Z.eqb_spec k' k) as [->|D].
  - cbn [filter]. now rewrite (N (k, f v) eq_refl), (N (k, v) eq_refl).
  - cbn [filter]. now rewrite IH.
Qed.

Lemma filter_erase k (m : umap.t V) :
  (forall e, fst e = k -> p e = false) ->
  filter p (umap.erase k m) = filter p m.
Proof.
  intros N. unfold umap.erase. apply filter_within.
  intros e Pe. apply negb_true_iff, Z.eqb_neq. intros E.
  rewrite (N e E) in Pe. discriminate.
Qed.

(** Visits leave the entries under other keys where they are, in the
    order they are in. *)
Lemma visits_filter vs : forall m m' log,
  forEach (visit keyOf live dead) vs m = Some (m', log) ->
  (forall e i, In i vs -> fst e = keyOf i -> p e = false) ->
  filter p m' = filter p m.
Proof.
  induction vs as [|i vs IH]; intros m m' log E N; cbn [forEach] in E.
  - inversion E. reflexivity.
  - apply bind_Some in E. destruct E as [m1 [l1 [l2 [E1 [E2 _]]]]].
    rewrite (IH m1 m' l2 E2) by (intros e j Ij; apply N; now right).
    assert (Ni : forall e, fst e = keyOf i -> p e = false)
      by (intros e; apply N; now left).
    unfold visit in E1.
    destruct (umap.find (keyOf i) m) as [v|]; [|now inversion E1].
    destruct (live i v) as [[ev v']|]; cbn in E1; inversion E1; subst.
    + now apply filter_modify.
    + now apply filter_erase.
Qed.

End VisitFilter.

Lemma lastWrite_filter {A} (f : A -> Write) (p : A -> bool) c i l :
  (forall x, In x l -> hits (f x) c i = true -> p x = true) ->
  lastWrite c i (map f (filter p l)) = lastWrite c i (map f l).
Proof.
  induction l as [|x l IH]; intros P; [reflexivity|].
  assert (IH' : lastWrite c i (map f (filter p l)) = lastWrite c i (map f l))
    by (apply IH; intros y Iy; apply P; now right).
  cbn [filter map lastWrite]. destruct (p x) eqn:Px.
  - cbn [map lastWrite]. now rewrite IH'.
  - rewrite IH'. destruct (lastWrite c i (map f l)); [reflexivity|].
    destruct (hits (f x) c i) eqn:Hx; [|reflexivity].
    rewrite (P x (or_introl eq_refl) Hx) in Px. discriminate.
Qed.

(** A run of writes that are weaker, position by position, than a run
    whose last write on a bit clears it, clears the bit as well. *)
Lemma lastWrite_weaker {A} (f g : A -> Write) c i l :
  (forall x, In x l ->
     w_cat (f x) = w_cat (g x) /\ w_bit (f x) = w_bit (g x)
     /\ (w_val (f x) = true -> w_val (g x) = true)) ->
  match lastWrite c i (map g l) with
  | Some true => True
  | Some false => lastWrite c i (map f l) = Some false
  | None => lastWrite c i (map f l) = None
  end.
Proof.
  induction l as [|x l IH]; intros P; [reflexivity|].
  assert (IH' := IH (fun y Iy => P y (or_intror Iy))).
  destruct (P x (or_introl eq_refl)) as [Pc [Pb Pv]].
  cbn [map lastWrite].
  assert (Hh : hits (f x) c i = hits (g x) c i)
    by (unfold hits; now rewrite Pc, Pb).
  destruct (lastWrite c i (map g l)) as [[|]|].
  - exact Logic.I.
  - now rewrite IH'.
  - rewrite IH', Hh. destruct (hits (g x) c i); [|reflexivity].
    destruct (w_val (f x)) eqn:Vf.
    + rewrite (Pv eq_refl). exact Logic.I.
    + destruct (w_val (g x)); [exact Logic.I | reflexivity].
Qed.

Lemma lastWrite_of_buffers H env self peer forced c i :
  isBufferCategory c = true ->
  lastWrite c i (writesOf H env self peer forced)
  = lastWrite c i (map (bufferWrite H env peer forced) (buffers self)).
Proof.
  intros B. unfold writesOf. rewrite !lastWrite_app.
  rewrite lastWrite_images by (destruct c; discriminate).
  rewrite lastWrite_textures by (destruct c; discriminate).
  reflexivity.
Qed.

(** The buffers that [apply] leaves are those of the visits of its five
    buffer passes. *)
Lemma apply_buffers_trace H env s d s' log :
  consistent H ->
  apply H env s d = Some (s', log) ->
  exists l,
    forEach (visit bufferKey (bufferLive env) bufferDead) (bufferVisits H d)
      (buffers s)
    = Some (buffers s', l).
Proof.
  intros C E. pose proof (apply_quiet H env s d C) as Q.
  rewrite (quiet_of_Some _ _ _ E) in Q. symmetry in Q.
  apply bind_Some in Q. destruct Q as [bufs [l1 [r1 [Q1 [Q _]]]]].
  apply bind_Some in Q. destruct Q as [texs [l2 [r2 [_ [Q _]]]]].
  apply bind_Some in Q. destruct Q as [imgs [l3 [r3 [_ [Q _]]]]].
  inversion Q; subst. cbn [buffers].
  apply quiet_Some in Q1. destruct Q1 as [l [Q1 _]]. now exists l.
Qed.

(** For an entry of a well-formed snapshot, being written to a position
    and being at that position are the same. *)
Lemma atPosition_hits env s c i e :
  wellFormed s -> In e (buffers s) ->
  hits (stalenessWrite env e) c i = atPosition c i e.
Proof.
  intros [_ [K _]] I. destruct e as [k b]. destruct (K k b I) as [-> [R _]].
  unfold hits, atPosition, stalenessWrite. cbn [w_cat w_bit fst snd].
  rewrite Z.eqb_refl, andb_true_r.
  replace (0 <=? target b) with true by (symmetry; apply Z.leb_le; lia).
  replace (target b <? 2 ^ 32) with true by (symmetry; apply Z.ltb_lt; lia).
  now rewrite !andb_true_r.
Qed.

(** Scanned against itself, a well-formed snapshot writes for each
    buffer entry whether it is stale. *)
Lemma self_scan_writes H env s e :
  irreflexive H -> wellFormed s -> In e (buffers s) ->
  bufferWrite H env s false e = stalenessWrite env e.
Proof.
  intros [IR _] W I. destruct e as [k b].
  destruct W as [ND [K _]]. destruct (K k b I) as [-> _].
  unfold bufferWrite, stalenessWrite. cbn [snd orb]. f_equal.
  unfold getBufferBinding. rewrite (In_find _ _ _ ND I).
  now rewrite IR, orb_false_r.
Qed.

(** C3 (as amended).  Let the masks be narrower than 256 bits and let
    every stale buffer binding of the target sit at a binding point that
    [apply] reaches (a slot of the storage, uniform, atomic-counter or
    transform-feedback mask, or a recognised target of the shared mask
    at location 0); bindings that are not stale may sit anywhere.  Then a
    reconciliation with [forced = false] returns, and a second one, on
    the snapshot it has left, with no bind request and no resize in
    between, computes the empty change mask and issues no driver
    call. *)
Theorem second_reconcile_is_idle H env current target :
  consistent H -> narrow H -> irreflexive H -> wellFormed target ->
  fits H env current = true -> fits H env target = true ->
  (forall k b, In (k, b) (buffers target) ->
     changed env b = true ->
     reached H (BufferSlot (Binding.target b) (location b)) = true) ->
  exists t' log1,
    reconcile H env current target false = Some ((t', t'), log1)
    /\ exists log2,
         makeDiff H env t' t' false = Some (StateDiff_t.empty, log2)
         /\ exists log3,
              reconcile H env t' t' false = Some ((t', t'), log3)
              /\ calls log3 = [].
Proof.
  intros C _ IR Wt Fc Ft RH.
  destruct (makeDiff_returns H env current target false Fc Ft)
    as [d [l1 [E1 [_ B]]]].
  destruct (apply_entries H env target d C Wt)
    as [t' [la [Ea [Wt' [PB [PT PI]]]]]].
  exists t', (l1 ++ la ++ []). split.
  { unfold reconcile. rewrite E1. cbn [bind]. rewrite Ea. reflexivity. }
  (* the applied snapshot still fits the masks *)
  assert (Ft' : fits H env t' = true).
  { unfold fits in *. rewrite forallb_forall in *. intros w I.
    unfold writesOf in I.
    apply in_app_or in I. destruct I as [I|I];
      [|apply in_app_or in I; destruct I as [I|I]];
      apply in_map_iff in I; destruct I as [[k v] [<- I]].
    - destruct (PB k v I) as [[I0 _]|[b0 [obj [I0 [_ ->]]]]].
      + apply (Ft (bufferWrite H env target false (k, v))).
        unfold writesOf. apply in_or_app. left. now apply in_map.
      + apply (Ft (bufferWrite H env target false (k, b0))).
        unfold writesOf. apply in_or_app. left. now apply in_map.
    - apply (Ft (textureWrite target false (k, v))).
      unfold writesOf. apply in_or_app. right. apply in_or_app. left.
      apply in_map. now apply PT.
    - apply (Ft (imageWrite H target false (k, v))).
      unfold writesOf. apply in_or_app. right. apply in_or_app. right.
      apply in_map. now apply PI. }
  (* a binding that is left on a set bit is not stale *)
  assert (SetBit : forall k b',
            In (k, b') (buffers t') ->
            Z.testbit (maskOf (bufferCategory (Binding.target b')) d)
              (bufferBit b') = true ->
            changed env b' = false).
  { intros k b' I T.
    destruct (PB k b' I) as [[I0 Fl]|[b0 [obj [I0 [B0 ->]]]]];
      [|now apply refreshed_is_fresh].
    destruct (changed env b') eqn:St; [|reflexivity].
    unfold flagged in Fl. rewrite (RH k b' I0 St) in Fl.
    cbn [andb slotCategory slotBit] in Fl.
    unfold bufferBit in T. rewrite T in Fl. discriminate. }
  (* the second scan clears every bit *)
  assert (G : forall c i,
            lastWrite c i (writesOf H env t' t' false) = None
            \/ lastWrite c i (writesOf H env t' t' false) = Some false).
  { intros c i.
    assert (Quiet : Z.testbit (maskOf c d) i = true \/ isBufferCategory c = false ->
              lastWrite c i (writesOf H env t' t' false) = None
              \/ lastWrite c i (writesOf H env t' t' false) = Some false).
    { intros Cs. apply lastWrite_const. intros w Iw Hw.
      apply hits_iff in Hw. destruct Hw as [Hc Hb].
      destruct (write_has_slot H env t' t' false w Wt' Iw)
        as [sl [bd [V [L [Hc' [Hb' ->]]]]]].
      cbn [orb]. apply same_binding_value; try assumption.
      intros b' ->. destruct (lookup_buffer_slot t' sl b' L) as [t [l ->]].
      destruct (slot_entry t' t l b' Wt' V L) as [Ib [Tb Lb]].
      cbn [slotCategory slotBit] in Hc', Hb'. subst t l.
      destruct Cs as [T|NB].
      - apply (SetBit _ _ Ib). change (w_bit w = bufferBit b') in Hb'.
        now rewrite <- Hc', <- Hb', Hc, Hb.
      - pose proof (bufferCategory_isBuffer (Binding.target b')) as X.
        rewrite <- Hc', Hc, NB in X. discriminate. }
    destruct (isBufferCategory c) eqn:BC; [|apply Quiet; now right].
    destruct (Z.testbit (maskOf c d) i) eqn:T; [apply Quiet; now left|].
    clear Quiet.
    (* the bit is clear: its bindings are not visited and stay in order *)
    destruct (apply_buffers_trace H env target d t' la C Ea) as [lv Ev].
    assert (Same : filter (atPosition c i) (buffers t')
                   = filter (atPosition c i) (buffers target)).
    { apply (visits_filter _ _ bufferKey (bufferLive env) bufferDead
               (atPosition c i) (bufferVisits H d) (buffers target)
               (buffers t') lv Ev).
      intros [k b] [t l] Iv Ek. cbn [fst] in Ek. unfold bufferKey in Ek.
      cbn [fst snd] in Ek. apply not_true_is_false. intros P.
      unfold atPosition in P. cbn [fst snd] in P.
      apply andb_true_iff in P. destruct P as [P P5].
      apply andb_true_iff in P. destruct P as [P P4].
      apply andb_true_iff in P. destruct P as [P P3].
      apply andb_true_iff in P. destruct P as [P1 P2].
      apply Category_eqb_eq in P1. apply Z.eqb_eq in P2, P3.
      apply Z.leb_le in P4. apply Z.ltb_lt in P5.
      destruct (bufferVisits_valid H d t l Iv) as [Rt _].
      rewrite P3 in Ek. unfold _key in Ek.
      apply packKey_inj in Ek; [|lia|exact Rt]. destruct Ek as [Et El].
      apply (In_bufferVisits H d t l (proj1 C)) in Iv.
      unfold flagged in Iv. apply andb_true_iff in Iv. destruct Iv as [_ Iv].
      cbn [slotCategory slotBit] in Iv. rewrite <- Et, <- El in Iv.
      change (Z.testbit (maskOf (bufferCategory (Binding.target b)) d)
                (bufferBit b) = true) in Iv.
      rewrite P2, P1 in Iv. congruence. }
    rewrite (lastWrite_of_buffers H env t' t' false c i BC).
    rewrite (map_ext_in _ _ _ (fun e Ie => self_scan_writes H env t' e IR Wt' Ie)).
    rewrite <- (lastWrite_filter (stalenessWrite env) (atPosition c i) c i
                  (buffers t'))
      by (intros e Ie Hh; now rewrite <- (atPosition_hits env t' c i e Wt' Ie)).
    rewrite Same.
    rewrite (lastWrite_filter (stalenessWrite env) (atPosition c i) c i
               (buffers target))
      by (intros e Ie Hh; now rewrite <- (atPosition_hits env target c i e Wt Ie)).
    pose proof (B c i) as Bd. rewrite T, lastWrite_allWrites in Bd.
    rewrite (lastWrite_of_buffers H env target current false c i BC) in Bd.
    pose proof (lastWrite_weaker (stalenessWrite env)
                  (bufferWrite H env current false) c i (buffers target)) as Wk.
    destruct (lastWrite c i
                (map (bufferWrite H env current false) (buffers target)))
      as [[|]|].
    - discriminate Bd.
    - right. apply Wk. intros e _. repeat split.
      unfold stalenessWrite, bufferWrite. cbn [w_val orb]. intros ->. reflexivity.
    - left. apply Wk. intros e _. repeat split.
      unfold stalenessWrite, bufferWrite. cbn [w_val orb]. intros ->. reflexivity. }
  destruct (makeDiff_returns H env t' t' false Ft' Ft')
    as [d2 [l2 [E2 [C2 B2]]]].
  assert (D2 : d2 = StateDiff_t.empty).
  { apply StateDiff_ext. intros c i. rewrite B2, lastWrite_allWrites.
    destruct (G c i) as [-> | ->]; destruct c; cbn; now rewrite ?Z.testbit_0_l. }
  subst d2.
  exists l2. split; [exact E2|].
  exists (l2 ++ [GET_GL_ERROR] ++ []). split.
  - unfold reconcile. rewrite E2. cbn [bind]. rewrite apply_empty. reflexivity.
  - unfold calls in *. rewrite filter_app, C2. reflexivity.
Qed.

Lemma second_reconcile_is_idle_witness :
  exists t' log1,
    reconcile Examples.header Examples.env Examples.storageAt2
      Examples.twoArrayBuffers false = Some ((t', t'), log1)
    /\ exists log2,
         makeDiff Examples.header Examples.env t' t' false
         = Some (StateDiff_t.empty, log2)
         /\ exists log3,
              reconcile Examples.header Examples.env t' t' false
              = Some ((t', t'), log3)
              /\ calls log3 = [].
Proof.
  apply second_reconcile_is_idle.
  - unfold consistent. simpl. lia.
  - concrete_narrow.
  - split; intros x; cbn.
    + unfold Examples.BufferBinding_ne.
      now rewrite Reference_ne_refl, Z.eqb_refl.
    + unfold Examples.ImageBindParameters_ne.
      now rewrite Reference_ne_refl, !Z.eqb_refl, !xorb_nilpotent.
  - concrete_wellFormed.
  - reflexivity.
  - reflexivity.
  - intros k b I St. cbn in I.
    repeat (destruct I as [I|I];
            [injection I as <- <-; vm_compute in St; discriminate St|]).
    contradiction.
Defined.

(** C3 (as stated) fails.  First, the target holds a fresh array buffer
    at location 0 and a stale one at location 1: the first
    reconciliation binds the buffer at location 0, the stale binding at
    location 1 is never refreshed, and the second reconciliation finds
    bit 0 of the shared mask set again and issues the same bind call
    again.  Second, the target holds a stale buffer at an unrecognised
    target: [apply] never looks at the sentinel bit, the binding stays
    stale, and the change mask of the second reconciliation is not
    empty. *)
Lemma second_reconcile_rebinds :
  (reconcile Examples.header Examples.env Examples.nothingBound
     Examples.freshThenStale false
   = Some ((Examples.freshThenStale, Examples.freshThenStale),
           [GET_GL_ERROR; BufferObject_bind 1 GL_ARRAY_BUFFER 0; GET_GL_ERROR])
   /\ makeDiff Examples.header Examples.env Examples.freshThenStale
        Examples.freshThenStale false
      = Some (StateDiff_t.with_other StateDiff_t.empty 1, [])
   /\ reconcile Examples.header Examples.env Examples.freshThenStale
        Examples.freshThenStale false
      = Some ((Examples.freshThenStale, Examples.freshThenStale),
              [GET_GL_ERROR; BufferObject_bind 1 GL_ARRAY_BUFFER 0; GET_GL_ERROR])
   /\ calls [GET_GL_ERROR; BufferObject_bind 1 GL_ARRAY_BUFFER 0; GET_GL_ERROR]
      = [BufferObject_bind 1 GL_ARRAY_BUFFER 0])
  /\ (reconcile Examples.header Examples.env Examples.nothingBound
        Examples.staleParameterBuffer false
      = Some ((Examples.staleParameterBuffer, Examples.staleParameterBuffer),
              [WARN "Unknown buffer target 33006"; GET_GL_ERROR; GET_GL_ERROR])
      /\ makeDiff Examples.header Examples.env Examples.staleParameterBuffer
           Examples.staleParameterBuffer false
         = Some (StateDiff_t.with_other StateDiff_t.empty 1024,
                 [WARN "Unknown buffer target 33006";
                  WARN "Unknown buffer target 33006"])
      /\ StateDiff_t.with_other StateDiff_t.empty 1024 <> StateDiff_t.empty).
Proof. repeat split. discriminate. Qed.

(** ** Further properties of [ShaderObjectInfo::compile] *)

Lemma compile_cases CompileGlslToSpv toShortString info :
  (ShaderObjectInfo.code info = ""%string
   /\ exists log,
        ShaderObjectInfo.compile CompileGlslToSpv toShortString info
        = Some ((None, info), log))
  \/ (ShaderObjectInfo.code info <> ""%string
      /\ ShaderObjectInfo.spirv info <> []
      /\ ShaderObjectInfo.compile CompileGlslToSpv toShortString info
         = Some ((Some (ShaderObjectInfo.spirv info), info),
                 [createShaderModule (ShaderObjectInfo.spirv info)]))
  \/ (ShaderObjectInfo.code info <> ""%string
      /\ ShaderObjectInfo.spirv info = []
      /\ ((exists log,
             ShaderObjectInfo.compile CompileGlslToSpv toShortString info
             = Some ((None, info), log))
          \/ (exists words,
                ShaderObjectInfo.compile CompileGlslToSpv toShortString info
                = Some ((Some words,
                         ShaderObjectInfo.Build_t (ShaderObjectInfo.stage info)
                           (ShaderObjectInfo.code info) words
                           (ShaderObjectInfo.filename info)
                           (ShaderObjectInfo.defines info)),
                        [createShaderModule words])))).
Proof.
  unfold ShaderObjectInfo.compile.
  destruct (String.eqb_spec (ShaderObjectInfo.code info) "") as [E|N].
  - left. split; [exact E|]. now eexists.
  - right. destruct (ShaderObjectInfo.spirv info) as [|w ws] eqn:S.
    + right. split; [exact N|]. split; [reflexivity|].
      destruct (ShaderObjectInfo.stageSetup (ShaderObjectInfo.stage info))
        as [[stageName stageMacro] kind].
      match goal with
      | |- context [CompileGlslToSpv ?a ?b ?c ?d] =>
          destruct (CompileGlslToSpv a b c d) as [words|message]
      end.
      * right. now exists words.
      * left. now eexists.
    + left. split; [exact N|]. split; [discriminate | reflexivity].
Qed.

(** X25. A successful compilation is remembered: once [compile] has
    returned a module made from a non-empty sequence of words, the
    object stores those words, and every later [compile], whatever the
    compiler would answer then, returns a module made from the same
    words without compiling again and leaves the object as it is. *)
Theorem compile_reuses_stored_spirv
    Compile1 short1 Compile2 short2 info words info' log :
  ShaderObjectInfo.compile Compile1 short1 info
  = Some ((Some words, info'), log) ->
  words <> [] ->
  ShaderObjectInfo.spirv info' = words
  /\ ShaderObjectInfo.compile Compile2 short2 info'
     = Some ((Some words, info'), [createShaderModule words]).
Proof.
  intros E N.
  assert (S : ShaderObjectInfo.spirv info' = words
              /\ ShaderObjectInfo.code info' <> ""%string).
  { destruct (compile_cases Compile1 short1 info)
      as [[_ [l E']]|[[C [S E']]|[C [S [[l E']|[ws E']]]]]];
      rewrite E' in E; inversion E; subst; auto. }
  destruct S as [S C]. split; [exact S|].
  destruct (compile_cases Compile2 short2 info')
    as [[C' _]|[[_ [_ E']]|[_ [S' _]]]].
  - contradiction.
  - now rewrite E', S.
  - congruence.
Qed.

Lemma compile_reuses_stored_spirv_witness :
  ShaderObjectInfo.compile (fun _ _ _ _ => inl [0x07230203; 0x00010000])
    (fun f => f) (ShaderObjectInfo.createVertexFromCode "void main() {}")
  = Some ((Some [0x07230203; 0x00010000],
           ShaderObjectInfo.Build_t ShaderObjectInfo.Vertex "void main() {}"
             [0x07230203; 0x00010000] "" []),
          [createShaderModule [0x07230203; 0x00010000]])
  /\ ShaderObjectInfo.spirv
       (ShaderObjectInfo.Build_t ShaderObjectInfo.Vertex "void main() {}"
          [0x07230203; 0x00010000] "" [])
     = [0x07230203; 0x00010000]
  /\ ShaderObjectInfo.compile (fun _ _ _ _ => inr "syntax error"%string)
       (fun f => f)
       (ShaderObjectInfo.Build_t ShaderObjectInfo.Vertex "void main() {}"
          [0x07230203; 0x00010000] "" [])
     = Some ((Some [0x07230203; 0x00010000],
              ShaderObjectInfo.Build_t ShaderObjectInfo.Vertex "void main() {}"
                [0x07230203; 0x00010000] "" []),
             [createShaderModule [0x07230203; 0x00010000]]).
Proof.
  split; [reflexivity|].
  apply (compile_reuses_stored_spirv
           (fun _ _ _ _ => inl [0x07230203; 0x00010000]) (fun f => f)
           (fun _ _ _ _ => inr "syntax error"%string) (fun f => f)
           (ShaderObjectInfo.createVertexFromCode "void main() {}")
           [0x07230203; 0x00010000]
           (ShaderObjectInfo.Build_t ShaderObjectInfo.Vertex "void main() {}"
              [0x07230203; 0x00010000] "" [])
           [createShaderModule [0x07230203; 0x00010000]]).
  - reflexivity.
  - discriminate.
Defined.

(** X26. [compile] always returns a handle, the device being taken to
    create the module it is asked for, and assigns nothing but [spirv]:
    stage, code, file name and macro definitions are as before; a null
    handle
    leaves the whole object unchanged; a module is only ever returned for
    non-empty code and is made from exactly the words that the object
    stores afterwards; words already stored are never replaced. *)
Theorem compile_only_assigns_spirv CompileGlslToSpv toShortString info :
  exists handle info' log,
    ShaderObjectInfo.compile CompileGlslToSpv toShortString info
    = Some ((handle, info'), log)
    /\ ShaderObjectInfo.stage info' = ShaderObjectInfo.stage info
    /\ ShaderObjectInfo.code info' = ShaderObjectInfo.code info
    /\ ShaderObjectInfo.filename info' = ShaderObjectInfo.filename info
    /\ ShaderObjectInfo.defines info' = ShaderObjectInfo.defines info
    /\ (handle = None -> info' = info)
    /\ (forall words, handle = Some words ->
          ShaderObjectInfo.spirv info' = words
          /\ ShaderObjectInfo.code info <> ""%string)
    /\ (ShaderObjectInfo.spirv info <> [] ->
        ShaderObjectInfo.spirv info' = ShaderObjectInfo.spirv info).
Proof.
  destruct (compile_cases CompileGlslToSpv toShortString info)
    as [[C [l E]]|[[C [S E]]|[C [S [[l E]|[ws E]]]]]]; rewrite E;
    eexists _, _, _; (split; [reflexivity|]); cbn;
    repeat split; try congruence;
    try (intros words X; inversion X; subst; auto).
Qed.
